(** * MC_Anamorphosis: image -> setblock commands -> pooled RCON dispatch

    A shallow embedding of [image_processing.py] and [send_commands.py].

    Number model.  Python [int]s (pixel channels, palette entries, rounded
    block coordinates) are [Z].  Python [float]s (distances, offsets, the
    camera basis) are modelled by the real numbers [R]: every statement about
    them below is a statement about the arithmetic the code writes down, with
    IEEE rounding left out.  Strings are [string]. *)

From Stdlib Require Import ZArith String Ascii List Bool Arith Lia Permutation.
From Stdlib Require Import QArith Reals Lra Psatz DecimalString.
From Stdlib Require DecimalZ.
Import ListNotations.

Open Scope Z_scope.

(* ------------------------------------------------------------------ *)
(** ** Colour mapping: [find_closest_block]                            *)
(* ------------------------------------------------------------------ *)

Module Palette.

(** An RGB triple of Python ints. *)
Definition rgb : Type := (Z * Z * Z)%type.

(** [block_rgb_map.items()]: the dict in its iteration (insertion) order. *)
Definition block_rgb_map : Type := list (string * rgb).

(** [closest_distance_sq]: starts at [float('inf')], then holds an int. *)
Inductive distance_sq : Type :=
| Inf : distance_sq
| Fin : Z -> distance_sq.

(** [dist_sq = (r - br)**2 + (g - bg)**2 + (b - bb)**2] *)
Definition dist_sq (r g b : Z) (c : rgb) : Z :=
  let '(br, bg, bb) := c in
  (r - br) ^ 2 + (g - bg) ^ 2 + (b - bb) ^ 2.

(** [dist_sq < closest_distance_sq] *)
Definition lt_closest (d : Z) (c : distance_sq) : bool :=
  match c with
  | Inf => true
  | Fin c' => d <? c'
  end.

(** The loop state: [(closest_block, closest_distance_sq)]. *)
Definition scan_state : Type := (option string * distance_sq)%type.

(** One iteration of the [for block_id, (br, bg, bb) in ...] loop. *)
Definition scan_step (r g b : Z) (st : scan_state) (entry : string * rgb)
  : scan_state :=
  let '(block_id, c) := entry in
  let d := dist_sq r g b c in
  if lt_closest d (snd st) then (Some block_id, Fin d) else st.

Definition scan (r g b : Z) (m : block_rgb_map) (st : scan_state) : scan_state :=
  fold_left (scan_step r g b) m st.

(** [find_closest_block(r, g, b, block_rgb_map)]; [None] is Python's [None]. *)
Definition find_closest_block (r g b : Z) (m : block_rgb_map) : option string :=
  fst (scan r g b m (None, Inf)).

(** The caller's use of it in [process_image_depthmap_and_get_commands]:
    [if block_id is None: block_id = "minecraft:stone"]. *)
Definition pixel_block_id (color : rgb) (m : block_rgb_map) : string :=
  let '(r, g, b) := color in
  match find_closest_block r g b m with
  | None => "minecraft:stone"%string
  | Some block_id => block_id
  end.

(** [e] sits at position [i] of [m], no entry of [m] is nearer to
    [(r, g, b)] than [e], and every entry before position [i] is strictly
    farther. *)
Definition first_argmin (r g b : Z) (m : block_rgb_map) (i : nat)
           (e : string * rgb) : Prop :=
  nth_error m i = Some e /\
  (forall j e', nth_error m j = Some e' ->
                dist_sq r g b (snd e) <= dist_sq r g b (snd e')) /\
  (forall j e', (j < i)%nat -> nth_error m j = Some e' ->
                dist_sq r g b (snd e) < dist_sq r g b (snd e')).

(** What the loop state says about the entries [pre] scanned so far. *)
Definition scanned (r g b : Z) (pre : block_rgb_map) (st : scan_state) : Prop :=
  match st with
  | (None, Inf) => pre = []
  | (Some block_id, Fin d) =>
      exists i c, first_argmin r g b pre i (block_id, c) /\ d = dist_sq r g b c
  | _ => False
  end.

End Palette.

(* ------------------------------------------------------------------ *)
(** ** Vector helpers: [dot], [cross], [norm], [normalize]             *)
(* ------------------------------------------------------------------ *)

Module Vec.
Open Scope R_scope.

(** A Python 3-tuple of floats. *)
Definition vec3 : Type := (R * R * R)%type.

Definition dot (u v : vec3) : R :=
  let '(u0, u1, u2) := u in
  let '(v0, v1, v2) := v in
  u0 * v0 + u1 * v1 + u2 * v2.

Definition cross (u v : vec3) : vec3 :=
  let '(u0, u1, u2) := u in
  let '(v0, v1, v2) := v in
  (u1 * v2 - u2 * v1,
   u2 * v0 - u0 * v2,
   u0 * v1 - u1 * v0).

Definition norm (u : vec3) : R := sqrt (dot u u).

(** [if n == 0: return (0, 0, 0)], else the componentwise quotient. *)
Definition normalize (u : vec3) : vec3 :=
  let n := norm u in
  if Req_dec_T n 0 then (0, 0, 0)
  else let '(u0, u1, u2) := u in (u0 / n, u1 / n, u2 / n).

(** Componentwise operations used to phrase statements (not in the source,
    which writes every component out). *)
Definition vadd (u v : vec3) : vec3 :=
  let '(u0, u1, u2) := u in
  let '(v0, v1, v2) := v in
  (u0 + v0, u1 + v1, u2 + v2).

Definition vsub (u v : vec3) : vec3 :=
  let '(u0, u1, u2) := u in
  let '(v0, v1, v2) := v in
  (u0 - v0, u1 - v1, u2 - v2).

Definition vscale (k : R) (u : vec3) : vec3 :=
  let '(u0, u1, u2) := u in (k * u0, k * u1, k * u2).

End Vec.

(* ------------------------------------------------------------------ *)
(** ** Camera frame (lines 190-209 of [image_processing.py])           *)
(* ------------------------------------------------------------------ *)

Module Camera.
Import Vec.
Open Scope R_scope.

(** [math.radians] *)
Definition radians (deg : R) : R := deg * (PI / 180).

(** [eye_pos = (px, py + eye_height, pz)] with [eye_height = 1.62]. *)
Definition eye_height : R := 1.62.

Definition eye_pos (pos : vec3) : vec3 :=
  let '(px, py, pz) := pos in (px, py + eye_height, pz).

(** [look_vector = (dx, dy, dz)] from [yaw, pitch = player_info["rot"]]. *)
Definition look_vector (yaw pitch : R) : vec3 :=
  let yaw_rad := radians yaw in
  let pitch_rad := radians pitch in
  let dx := - sin yaw_rad * cos pitch_rad in
  let dy := - sin pitch_rad in
  let dz := cos yaw_rad * cos pitch_rad in
  (dx, dy, dz).

(** [approximate_up], after the near-parallel test against [0.99]. *)
Definition approximate_up (look : vec3) : vec3 :=
  if Rgt_dec (Rabs (dot look (0, 1, 0))) 0.99 then (1, 0, 0) else (0, 1, 0).

Definition right_vector (look : vec3) : vec3 :=
  normalize (cross (approximate_up look) look).

Definition true_up_vector (look : vec3) : vec3 :=
  normalize (cross look (right_vector look)).

(** The four values the pixel loop reads. *)
Record frame : Type := mkFrame {
  eye : vec3;
  look : vec3;
  right : vec3;
  true_up : vec3
}.

(** The frame the code builds from [player_info]. *)
Definition camera_frame (pos : vec3) (yaw pitch : R) : frame :=
  let l := look_vector yaw pitch in
  {| eye := eye_pos pos;
     look := l;
     right := right_vector l;
     true_up := true_up_vector l |}.

(** [u], [v], [w] have unit norm and are pairwise orthogonal. *)
Definition orthonormal (u v w : vec3) : Prop :=
  norm u = 1 /\ norm v = 1 /\ norm w = 1 /\
  dot u v = 0 /\ dot u w = 0 /\ dot v w = 0.

End Camera.

(* ------------------------------------------------------------------ *)
(** ** Depth mapping (lines 139-141 and 179-181)                       *)
(* ------------------------------------------------------------------ *)

Module Depth.
Open Scope R_scope.

(** [normalized = arr / 255.0] at one pixel of the grayscale image. *)
Definition normalized (gray : Z) : R := IZR gray / 255.

(** [max_distance - normalized * (max_distance - min_distance)] *)
Definition depth (min_distance max_distance normalized : R) : R :=
  max_distance - normalized * (max_distance - min_distance).

End Depth.

(* ------------------------------------------------------------------ *)
(** ** The pixel loop of [process_image_depthmap_and_get_commands]     *)
(* ------------------------------------------------------------------ *)

Module Pixels.
Import Vec Camera.
Open Scope R_scope.

(** [round(x)] on a float: nearest integer, a tie going to the even one;
    [Int_part] is the floor. *)
Definition py_round (x : R) : Z :=
  let f := Int_part x in
  let d := x - IZR f in
  if Rlt_dec d (1 / 2) then f
  else if Rlt_dec (1 / 2) d then (f + 1)%Z
  else if Z.even f then f else (f + 1)%Z.

(** [str] of a Python int, as an f-string prints it. *)
Definition str_int (z : Z) : string := NilZero.string_of_int (Z.to_int z).

(** [bx = int(round(pos[0]))] etc., then
    [f"setblock {bx} {by} {bz} {block_id}"]. *)
Definition setblock (pos : vec3) (block_id : string) : string :=
  let '(p0, p1, p2) := pos in
  let bx := py_round p0 in
  let by_ := py_round p1 in
  let bz := py_round p2 in
  ("setblock " ++ str_int bx ++ " " ++ str_int by_ ++ " " ++ str_int bz
     ++ " " ++ block_id)%string.

(** The keyword arguments of the function. *)
Record settings : Type := mkSettings {
  min_distance : R;
  max_distance : R;
  pixel_scale : R;
  output_width : nat;
  output_height : nat
}.

(** The defaults of the signature, for an image resized to [w] x [h]. *)
Definition default_settings (w h : nat) : settings :=
  {| min_distance := 60; max_distance := 180; pixel_scale := 1;
     output_width := w; output_height := h |}.

(** An RGBA sample, [pixel_data[col, row]]. *)
Definition rgba : Type := (Z * Z * Z * Z)%type.

(** The resized image [im]: its size, its RGBA samples, and its grayscale
    reduction [im.convert("L")] ([gray_data row col], as numpy indexes it).
    Decoding, resizing and the grayscale reduction are Pillow's. *)
Record image : Type := mkImage {
  width : nat;
  height : nat;
  pixel_data : nat -> nat -> rgba;      (* col, row *)
  gray_data : nat -> nat -> Z           (* row, col *)
}.

(** [base_distance = max_distance] *)
Definition base_distance (s : settings) : R := max_distance s.

(** [far_threshold = min_distance + 0.6 * (max_distance - min_distance)] *)
Definition far_threshold (s : settings) : R :=
  min_distance s + 0.6 * (max_distance s - min_distance s).

(** [depth_map[row, col]].  The code holds it in a single-precision array;
    the rounding to single precision is left out, as for every float. *)
Definition depth_map (s : settings) (im : image) (row col : nat) : R :=
  Depth.depth (min_distance s) (max_distance s)
              (Depth.normalized (gray_data im row col)).

(** [scale_factor = distance / base_distance].  Python raises
    [ZeroDivisionError] when [base_distance] is zero, where division over
    [R] is total: the theorems on the pixel loop assume
    [max_distance s <> 0]. *)
Definition scale_factor (s : settings) (distance : R) : R :=
  distance / base_distance s.

(** [norm_offset_right], with [center_x = width / 2.0]. *)
Definition norm_offset_right (s : settings) (w : nat) (distance : R) (col : nat)
  : R :=
  let center_x := INR w / 2 in
  - ((INR col - center_x) / (INR w / 2)) * (INR (output_width s) / 2)
    * scale_factor s distance.

(** [norm_offset_up], with [center_y = height / 2.0]. *)
Definition norm_offset_up (s : settings) (h : nat) (distance : R) (row : nat)
  : R :=
  let center_y := INR h / 2 in
  ((center_y - INR row) / (INR h / 2)) * (INR (output_height s) / 2)
    * scale_factor s distance.

(** [block_pos] (lines 239-243). *)
Definition block_pos (s : settings) (F : frame) (w h : nat) (distance : R)
           (row col : nat) : vec3 :=
  let '(e0, e1, e2) := eye F in
  let '(l0, l1, l2) := look F in
  let '(r0, r1, r2) := right F in
  let '(t0, t1, t2) := true_up F in
  let off_r := norm_offset_right s w distance col in
  let off_u := norm_offset_up s h distance row in
  (e0 + l0 * distance + r0 * off_r + t0 * off_u,
   e1 + l1 * distance + r1 * off_r + t1 * off_u,
   e2 + l2 * distance + r2 * off_r + t2 * off_u).

(** The positions written for one opaque pixel (lines 245-271). *)
Definition pixel_positions (s : settings) (F : frame) (distance : R)
           (bp : vec3) : list vec3 :=
  if Rge_dec distance (far_threshold s) then
    let '(r0, r1, r2) := right F in
    let '(t0, t1, t2) := true_up F in
    let k := pixel_scale s * scale_factor s distance in
    let delta_r := (k * r0, k * r1, k * r2) in
    let delta_u := (k * t0, k * t1, k * t2) in
    let '(b0, b1, b2) := bp in
    let '(dr0, dr1, dr2) := delta_r in
    let '(du0, du1, du2) := delta_u in
    [ bp;
      (b0 + dr0, b1 + dr1, b2 + dr2);
      (b0 + du0, b1 + du1, b2 + du2);
      (b0 + dr0 + du0, b1 + dr1 + du1, b2 + dr2 + du2) ]
  else [ bp ].

(** The body of the inner loop: the commands appended for one pixel whose
    depth-map entry is [distance]. *)
Definition pixel_commands (s : settings) (m : Palette.block_rgb_map)
           (F : frame) (w h : nat) (pixel : rgba) (distance : R)
           (row col : nat) : list string :=
  let '(r, g, b, alpha_val) := pixel in
  if (alpha_val <? 128)%Z then []
  else
    let block_id := Palette.pixel_block_id (r, g, b) m in
    let bp := block_pos s F w h distance row col in
    map (fun pos => setblock pos block_id) (pixel_positions s F distance bp).

(** [for row in range(height): for col in range(width): ...] *)
Definition process_image (s : settings) (m : Palette.block_rgb_map)
           (F : frame) (im : image) : list string :=
  flat_map (fun row =>
    flat_map (fun col =>
      pixel_commands s m F (width im) (height im)
                     (pixel_data im col row) (depth_map s im row col) row col)
      (seq 0 (width im)))
    (seq 0 (height im)).

(** The function itself, from the loaded palette, the resized image and
    [player_info = {"pos": pos, "rot": (yaw, pitch)}]. *)
Definition process_image_depthmap_and_get_commands
           (s : settings) (m : Palette.block_rgb_map) (im : image)
           (pos : vec3) (yaw pitch : R) : list string :=
  process_image s m (camera_frame pos yaw pitch) im.

(** *** [generate_plane_commands] (lines 79-125)

    The frame [F] carries the arguments [eye_pos], [look_vector],
    [right_vector] and [true_up_vector]. *)

(** [effective_offset = offset_right * scale_factor], with
    [scale_factor = distance / base_distance]. *)
Definition effective_offset (distance base_distance offset_right : R) : R :=
  offset_right * (distance / base_distance).

Definition plane_center (F : frame) (distance base_distance offset_right : R)
  : vec3 :=
  let '(e0, e1, e2) := eye F in
  let '(l0, l1, l2) := look F in
  let '(r0, r1, r2) := right F in
  let eff := effective_offset distance base_distance offset_right in
  (e0 + l0 * distance + r0 * eff,
   e1 + l1 * distance + r1 * eff,
   e2 + l2 * distance + r2 * eff).

Definition plane_top_left (F : frame) (distance base_distance : R)
           (plane_width plane_height : nat) (pixel_scale offset_right : R)
  : vec3 :=
  let scale_factor := distance / base_distance in
  let '(c0, c1, c2) := plane_center F distance base_distance offset_right in
  let '(r0, r1, r2) := right F in
  let '(t0, t1, t2) := true_up F in
  let half_width := (INR plane_width * pixel_scale * scale_factor) / 2 in
  let half_height := (INR plane_height * pixel_scale * scale_factor) / 2 in
  (c0 - half_width * r0 + half_height * t0,
   c1 - half_width * r1 + half_height * t1,
   c2 - half_width * r2 + half_height * t2).

(** [block_pos] of the inner loop, for one [row] and [col]. *)
Definition plane_block_pos (F : frame) (distance base_distance : R)
           (plane_width plane_height : nat) (pixel_scale offset_right : R)
           (row col : nat) : vec3 :=
  let scale_factor := distance / base_distance in
  let '(tl0, tl1, tl2) :=
    plane_top_left F distance base_distance plane_width plane_height
                   pixel_scale offset_right in
  let '(r0, r1, r2) := right F in
  let '(t0, t1, t2) := true_up F in
  let offset_x := (INR col * pixel_scale * scale_factor) * r0
                  - (INR row * pixel_scale * scale_factor) * t0 in
  let offset_y := (INR col * pixel_scale * scale_factor) * r1
                  - (INR row * pixel_scale * scale_factor) * t1 in
  let offset_z := (INR col * pixel_scale * scale_factor) * r2
                  - (INR row * pixel_scale * scale_factor) * t2 in
  (tl0 + offset_x, tl1 + offset_y, tl2 + offset_z).

Definition generate_plane_commands (distance base_distance : R)
           (plane_width plane_height : nat) (pixel_scale : R) (F : frame)
           (block_id : string) (offset_right : R) : list string :=
  flat_map (fun row =>
    map (fun col =>
      setblock (plane_block_pos F distance base_distance plane_width
                  plane_height pixel_scale offset_right row col) block_id)
      (seq 0 plane_width))
    (seq 0 plane_height).

(** *** Counting the commands of an image *)

(** How many commands one pixel contributes. *)
Definition pixel_count (s : settings) (pixel : rgba) (distance : R) : nat :=
  let '(_, _, _, alpha_val) := pixel in
  if (alpha_val <? 128)%Z then 0%nat
  else if Rge_dec distance (far_threshold s) then 4%nat else 1%nat.

(** The direction in which the pixel at [row], [col] is seen from the eye:
    [look] plus the two offsets per unit of depth. *)
Definition pixel_ray (s : settings) (F : frame) (w h : nat) (row col : nat)
  : vec3 :=
  vadd (vadd (look F)
             (vscale (norm_offset_right s w 1 col) (right F)))
       (vscale (norm_offset_up s h 1 row) (true_up F)).

End Pixels.

(* ------------------------------------------------------------------ *)
(** ** [parse_list_response]                                           *)
(* ------------------------------------------------------------------ *)

Module Parse.
Open Scope string_scope.
Open Scope char_scope.

(** A response is a [string] of 8-bit characters; among these the class
    [\d] is ['0'..'9']. *)

(** The text up to the first [']'], and what follows it. *)
Fixpoint until_close (s : string) : option (string * string) :=
  match s with
  | EmptyString => None
  | String c rest =>
      if Ascii.eqb c "]" then Some (EmptyString, rest)
      else match until_close rest with
           | Some (body, post) => Some (String c body, post)
           | None => None
           end
  end.

(** [re.search(r'\[([^\]]+)\]', response)], giving [match.group(1)]: the
    leftmost ['['] that is followed by one or more characters other than
    [']'] and then by [']']. *)
Fixpoint search_bracket (s : string) : option string :=
  match s with
  | EmptyString => None
  | String c rest =>
      if Ascii.eqb c "[" then
        match until_close rest with
        | Some (String b body, _) => Some (String b body)
        | _ => search_bracket rest
        end
      else search_bracket rest
  end.

(** [data.split(',')]: a comma closes the current part and opens a new one;
    any other character joins the current (first) part of what follows. *)
Fixpoint split_comma (s : string) : list string :=
  match s with
  | EmptyString => [EmptyString]
  | String c rest =>
      if Ascii.eqb c "," then EmptyString :: split_comma rest
      else String c (hd EmptyString (split_comma rest))
             :: tl (split_comma rest)
  end.

Definition is_digit (c : ascii) : bool :=
  let n := nat_of_ascii c in (48 <=? n)%nat && (n <=? 57)%nat.

(** The class [\d\.\-+eE]. *)
Definition is_numeric_char (c : ascii) : bool :=
  is_digit c || Ascii.eqb c "." || Ascii.eqb c "-" || Ascii.eqb c "+"
  || Ascii.eqb c "e" || Ascii.eqb c "E".

(** [re.sub(r'[^\d\.\-+eE]', '', p)] *)
Fixpoint strip_non_numeric (p : string) : string :=
  match p with
  | EmptyString => EmptyString
  | String c rest =>
      if is_numeric_char c then String c (strip_non_numeric rest)
      else strip_non_numeric rest
  end.

(** The list comprehension under [try]: the first [ValueError] ends it. *)
Fixpoint convert_all {F : Type} (conv : string -> option F)
         (parts : list string) : option (list F) :=
  match parts with
  | [] => Some []
  | p :: ps =>
      match conv (strip_non_numeric p) with
      | None => None
      | Some v =>
          match convert_all conv ps with
          | None => None
          | Some vs => Some (v :: vs)
          end
      end
  end.

Section WithFloat.
(** Python's builtin [float(str)]: [None] stands for [ValueError]. *)
Context {F : Type} (py_float : string -> option F).

Definition parse_list_response (response : string) : option (list F) :=
  match search_bracket response with
  | None => None
  | Some data => convert_all py_float (split_comma data)
  end.

End WithFloat.

(** The response holds a bracketed list: a ['['], then a non-empty run free
    of [']'], then a [']']. *)
Definition has_bracketed_list (s : string) : Prop :=
  exists pre body post,
    s = (pre ++ String "[" (body ++ String "]" post))%string /\
    body <> EmptyString /\
    ~ In "]" (list_ascii_of_string body).

(** *** A decimal reading of [float] on the stripped alphabet

    [sign] digits [. digits] [(e|E) [sign] digits], with a digit required on
    one side of the point.  The value is the exact rational the text
    denotes, where Python rounds it to a double. *)

Open Scope Z_scope.

Definition digit_val (c : ascii) : Z := Z.of_nat (nat_of_ascii c) - 48.

(** The maximal run of digits at the head of [s]: its value continued from
    [acc], how many digits it has, and the rest. *)
Fixpoint span_digits (s : string) (acc : Z) (len : nat) : Z * nat * string :=
  match s with
  | String c rest =>
      if is_digit c then span_digits rest (10 * acc + digit_val c) (S len)
      else (acc, len, s)
  | EmptyString => (acc, len, s)
  end.

(** An optional sign: [true] for ['-']. *)
Definition read_sign (s : string) : bool * string :=
  match s with
  | String c rest =>
      if Ascii.eqb c "-" then (true, rest)
      else if Ascii.eqb c "+" then (false, rest)
      else (false, s)
  | EmptyString => (false, s)
  end.

Definition pow10 (e : Z) : Q :=
  if e <? 0 then (1 # Z.to_pos (10 ^ (- e)))%Q else inject_Z (10 ^ e).

Definition apply_sign (neg : bool) (z : Z) : Z := if neg then - z else z.

Definition float_of_string (s : string) : option Q :=
  let '(neg, s1) := read_sign s in
  let '(ip, ilen, s2) := span_digits s1 0 0%nat in
  let '(m, flen, s3) :=
    match s2 with
    | String c rest =>
        if Ascii.eqb c "." then span_digits rest ip 0%nat else (ip, 0%nat, s2)
    | EmptyString => (ip, 0%nat, s2)
    end in
  if ((ilen + flen)%nat =? 0)%nat then None
  else
    let mant := apply_sign neg m in
    match s3 with
    | EmptyString => Some (inject_Z mant * pow10 (- Z.of_nat flen))%Q
    | String c rest =>
        if Ascii.eqb c "e" || Ascii.eqb c "E" then
          let '(eneg, r1) := read_sign rest in
          let '(ev, elen, r2) := span_digits r1 0 0%nat in
          match elen, r2 with
          | S _, EmptyString =>
              Some (inject_Z mant
                    * pow10 (apply_sign eneg ev - Z.of_nat flen))%Q
          | _, _ => None
          end
        else None
    end.

End Parse.

(* ------------------------------------------------------------------ *)
(** ** [send_commands.py]: the connection pool and the dispatch        *)
(* ------------------------------------------------------------------ *)

Module Dispatch.
Open Scope nat_scope.

Definition command : Type := string.
Definition response : Type := string.

(** A live [MCRcon] connection, named by the order of its creation. *)
Definition conn : Type := nat.

Inductive exception : Type :=
| ConnectionFailed (k : nat)     (* raised by [conn.connect()] *)
| ValueError (msg : string).     (* raised by [ThreadPoolExecutor(...)] *)

Inductive outcome (A : Type) : Type :=
| Returned (a : A)
| Raised (e : exception).
Arguments Returned {A} a.
Arguments Raised {A} e.

(** [for _ in range(pool_size)]: connect, then [self.pool.put(conn)];
    [connects k] tells whether the [k]-th [connect()] succeeds. *)
Fixpoint connect_loop (connects : nat -> bool) (k n : nat) (queue : list conn)
  : outcome (list conn) :=
  match n with
  | O => Returned queue
  | S n' =>
      if connects k then connect_loop connects (S k) n' (queue ++ [k])
      else Raised (ConnectionFailed k)
  end.

(** [RCONConnectionPool.__init__]: the queue it leaves in [self.pool].
    [range] of a negative size is empty. *)
Definition RCONConnectionPool (connects : nat -> bool) (pool_size : Z)
  : outcome (list conn) :=
  connect_loop connects 0 (Z.to_nat pool_size) [].

(** [ThreadPoolExecutor(max_workers=...)] of the Python library: it refuses
    a worker count that is not positive. *)
Definition ThreadPoolExecutor (max_workers : Z) : outcome nat :=
  if (max_workers <=? 0)%Z
  then Raised (ValueError "max_workers must be greater than 0")
  else Returned (Z.to_nat max_workers).

(** Where a worker thread stands inside [send_block_command] for the
    command at input position [i]. *)
Inductive worker : Type :=
| Waiting (i : nat) (cmd : command)                (* before [pool.get()] *)
| Holding (i : nat) (cmd : command) (c : conn)     (* before [conn.command] *)
| Replied (i : nat) (c : conn) (r : response)      (* before [pool.put] *)
| Returning (i : nat) (r : response).              (* before the future is set *)

Definition worker_index (w : worker) : nat :=
  match w with
  | Waiting i _ | Holding i _ _ | Replied i _ _ | Returning i _ => i
  end.

(** One [conn.command(cmd)] as the service saw it. *)
Record call : Type := mkCall {
  call_index : nat;
  call_conn : conn;
  call_cmd : command;
  call_reply : response
}.

(** The dispatch while [executor.map] runs. *)
Record state : Type := mkState {
  pool : list conn;                   (* [queue.Queue], oldest first *)
  work : list (nat * command);        (* submitted, not yet taken by a thread *)
  workers : list worker;              (* tasks being run *)
  futures : list (option response);   (* one future per input position *)
  calls : list call                   (* what was sent, oldest first *)
}.

(** Writing a future's result. *)
Fixpoint set_future (fs : list (option response)) (i : nat) (r : response)
  : list (option response) :=
  match fs, i with
  | [], _ => []
  | _ :: fs', O => Some r :: fs'
  | f :: fs', S i' => f :: set_future fs' i' r
  end.

(** [executor.map] submits one task per command, in input order. *)
Definition tasks (commands : list command) : list (nat * command) :=
  combine (seq 0 (length commands)) commands.

Definition init_state (queue : list conn) (commands : list command) : state :=
  {| pool := queue;
     work := tasks commands;
     workers := [];
     futures := repeat None (length commands);
     calls := [] |}.

(** The interleavings of at most [max_workers] threads.  The reply of the
    service to a call is whatever it is: [step_command] allows any.  All
    tasks are queued from the start; a run in which the submitting thread is
    still at work only has fewer interleavings. *)
Inductive step (max_workers : nat) : state -> state -> Prop :=
| step_take : forall q i cmd rest ws fs log,
    length ws < max_workers ->
    step max_workers
         (mkState q ((i, cmd) :: rest) ws fs log)
         (mkState q rest (Waiting i cmd :: ws) fs log)
| step_get : forall c q wk ws1 i cmd ws2 fs log,
    step max_workers
         (mkState (c :: q) wk (ws1 ++ Waiting i cmd :: ws2) fs log)
         (mkState q wk (ws1 ++ Holding i cmd c :: ws2) fs log)
| step_command : forall r q wk ws1 i cmd c ws2 fs log,
    step max_workers
         (mkState q wk (ws1 ++ Holding i cmd c :: ws2) fs log)
         (mkState q wk (ws1 ++ Replied i c r :: ws2) fs
                  (log ++ [mkCall i c cmd r]))
| step_put : forall q wk ws1 i c r ws2 fs log,
    step max_workers
         (mkState q wk (ws1 ++ Replied i c r :: ws2) fs log)
         (mkState (q ++ [c]) wk (ws1 ++ Returning i r :: ws2) fs log)
| step_return : forall q wk ws1 i r ws2 fs log,
    step max_workers
         (mkState q wk (ws1 ++ Returning i r :: ws2) fs log)
         (mkState q wk (ws1 ++ ws2) (set_future fs i r) log).

Inductive steps (max_workers : nat) : state -> state -> Prop :=
| steps_refl : forall st, steps max_workers st st
| steps_step : forall st1 st2 st3,
    step max_workers st1 st2 -> steps max_workers st2 st3 ->
    steps max_workers st1 st3.

(** Every task was taken and every thread is idle. *)
Definition finished (st : state) : Prop := work st = [] /\ workers st = [].

(** [list(executor.map(...))]: the futures' results, in input order. *)
Fixpoint collect (fs : list (option response)) : option (list response) :=
  match fs with
  | [] => Some []
  | None :: _ => None
  | Some r :: fs' =>
      match collect fs' with
      | Some rs => Some (r :: rs)
      | None => None
      end
  end.

(** [pool.close_all()]: [while not self.pool.empty()], take the oldest
    connection off the queue ([self.pool.get()]) and disconnect it.  The
    result is the disconnections made, in the order they were made, and the
    queue the loop leaves. *)
Fixpoint close_all (queue : list conn) (disconnected : list conn)
  : list conn * list conn :=
  match queue with
  | [] => (disconnected, queue)
  | c :: rest => close_all rest (disconnected ++ [c])
  end.

(** What a call of [send_commands] yields together with what the service
    saw; the service answers every call it receives. *)
Inductive send_commands (connects : nat -> bool) (commands : list command)
          (pool_size : Z) : outcome (list response) -> list call -> Prop :=
| send_connect_failed : forall e,
    RCONConnectionPool connects pool_size = Raised e ->
    send_commands connects commands pool_size (Raised e) []
| send_no_executor : forall queue e,
    RCONConnectionPool connects pool_size = Returned queue ->
    ThreadPoolExecutor pool_size = Raised e ->
    send_commands connects commands pool_size (Raised e) []
| send_done : forall queue max_workers st results,
    RCONConnectionPool connects pool_size = Returned queue ->
    ThreadPoolExecutor pool_size = Returned max_workers ->
    steps max_workers (init_state queue commands) st ->
    finished st ->
    collect (futures st) = Some results ->
    send_commands connects commands pool_size (Returned results) (calls st).

(** The calls of a log that carry input position [i]. *)
Definition calls_of (i : nat) (log : list call) : list call :=
  filter (fun k => call_index k =? i) log.

(** Progress measure of a dispatch state. *)
Definition worker_weight (w : worker) : nat :=
  match w with
  | Waiting _ _ => 4
  | Holding _ _ _ => 3
  | Replied _ _ _ => 2
  | Returning _ _ => 1
  end.

Definition weight (st : state) : nat :=
  5 * length (work st) + list_sum (map worker_weight (workers st)).

(** *** What holds of every state of a dispatch *)

(** A worker's record agrees with the input and with the calls made so
    far. *)
Definition worker_ok (commands : list command) (log : list call)
           (w : worker) : Prop :=
  match w with
  | Waiting i cmd | Holding i cmd _ => nth_error commands i = Some cmd
  | Replied i _ r | Returning i r => exists c cmd, In (mkCall i c cmd r) log
  end.

(** The input positions of the workers that have not called yet. *)
Definition uncalled (ws : list worker) : list nat :=
  flat_map (fun w => match w with
                     | Waiting i _ | Holding i _ _ => [i]
                     | _ => []
                     end) ws.

Record dispatch_inv (commands : list command) (st : state) : Prop := {
  inv_work :
    Forall (fun t => nth_error commands (fst t) = Some (snd t)) (work st);
  inv_workers : Forall (worker_ok commands (calls st)) (workers st);
  inv_calls :
    Forall (fun k => nth_error commands (call_index k) = Some (call_cmd k))
           (calls st);
  inv_futures_length : length (futures st) = length commands;
  inv_futures : forall i r,
    nth_error (futures st) i = Some (Some r) ->
    exists c cmd, In (mkCall i c cmd r) (calls st);
  inv_cover : forall i, i < length commands ->
    In i (map fst (work st)) \/ In i (map worker_index (workers st)) \/
    exists r, nth_error (futures st) i = Some (Some r);
  inv_once :
    NoDup (map fst (work st) ++ uncalled (workers st)
             ++ map call_index (calls st))
}.

(** *** Connections are conserved *)

Definition holds_conn (w : worker) : bool :=
  match w with
  | Holding _ _ _ | Replied _ _ _ => true
  | _ => false
  end.

(** The number of connections checked out. *)
Definition checked_out (ws : list worker) : nat :=
  length (filter holds_conn ws).

(** The queue and the workers together hold the [size] connections. *)
Definition pool_inv (size : nat) (st : state) : Prop :=
  length (pool st) + checked_out (workers st) = size.

(** The connections the workers hold, between [pool.get()] and
    [pool.put(conn)]. *)
Definition held (ws : list worker) : list conn :=
  flat_map (fun w => match w with
                     | Holding _ _ c | Replied _ c _ => [c]
                     | _ => []
                     end) ws.

(** Runs of a given number of moves. *)
Inductive steps_n (max_workers : nat) : nat -> state -> state -> Prop :=
| steps_n_O : forall st, steps_n max_workers 0 st st
| steps_n_S : forall k st1 st2 st3,
    step max_workers st1 st2 -> steps_n max_workers k st2 st3 ->
    steps_n max_workers (S k) st1 st3.

(** With a single worker: the calls made, then the call about to be made,
    then the tasks still queued, are the input positions in order. *)
Definition in_order (n : nat) (st : state) : Prop :=
  (map call_index (calls st) ++ uncalled (workers st) ++ map fst (work st)
   = seq 0 n) /\
  length (workers st) <= 1.

End Dispatch.

(* ------------------------------------------------------------------ *)
(** ** [main.py]                                                       *)
(* ------------------------------------------------------------------ *)

Module Main.
Import Vec Camera Pixels.
Open Scope string_scope.

(** What [main] finds around it: the files, the two values the user writes
    into the script (shipped empty), the server, and what the palette file
    and the image hold once loaded (the image as Pillow resizes it to the
    output size). *)
Record environment : Type := mkEnvironment {
  rgb_json_exists : bool;            (* [os.path.exists(rgb_json_path)] *)
  manual_json : option bool;         (* absent, or present and whether it is JSON *)
  password : string;
  player_name : string;
  server_up : bool;                  (* does [MCRcon(...)] connect *)
  rcon : string -> string;           (* [mcr.command]: the reply to a command *)
  rgb_values : Palette.block_rgb_map;
  image_png : image
}.

(** The three places where [main] prints an error and returns. *)
Inductive stop : Type :=
| RgbJsonMissing
| CredentialsMissing
| ParseFailed.

(** The exceptions that nothing in [main] catches. *)
Inductive crash : Type :=
| ManualJsonInvalid      (* [json.load] on [manual.json] *)
| ConnectFailed          (* entering [with MCRcon(...)] *)
| UnpackError.           (* [px, py, pz = ...] or [yaw, pitch = ...] *)

Inductive result : Type :=
| Stopped (why : stop)
| Crashed (why : crash)
| Sends (commands : list string).   (* [send_commands(commands, ...)] is called *)

(** [px, py, pz = player_info["pos"]] *)
Definition unpack_pos (pos : list R) : option vec3 :=
  match pos with
  | [px; py; pz] => Some (px, py, pz)
  | _ => None
  end.

(** [yaw, pitch = player_info["rot"]] *)
Definition unpack_rot (rot : list R) : option (R * R) :=
  match rot with
  | [yaw; pitch] => Some (yaw, pitch)
  | _ => None
  end.

(** [process_image_depthmap_and_get_commands] as [main] calls it, on the
    parsed lists; [None] is the [ValueError] of an unpacking. *)
Definition process_player_info (s : settings) (m : Palette.block_rgb_map)
           (im : image) (pos rot : list R) : option (list string) :=
  match unpack_pos pos with
  | None => None
  | Some p =>
      match unpack_rot rot with
      | None => None
      | Some (yaw, pitch) =>
          Some (process_image_depthmap_and_get_commands s m im p yaw pitch)
      end
  end.

Definition pos_query (name : string) : string :=
  "data get entity " ++ name ++ " Pos".

Definition rot_query (name : string) : string :=
  "data get entity " ++ name ++ " Rotation".

Section WithFloat.
(** Python's builtin [float(str)], as in [Parse]. *)
Context (py_float : string -> option R).

Definition main (env : environment) : result :=
  if negb (rgb_json_exists env) then Stopped RgbJsonMissing
  else
    match manual_json env with
    | Some false => Crashed ManualJsonInvalid
    | _ =>
        if String.eqb (password env) "" || String.eqb (player_name env) ""
        then Stopped CredentialsMissing
        else if negb (server_up env) then Crashed ConnectFailed
        else
          let pos_response := rcon env (pos_query (player_name env)) in
          let rot_response := rcon env (rot_query (player_name env)) in
          match Parse.parse_list_response py_float pos_response,
                Parse.parse_list_response py_float rot_response with
          | Some pos, Some rot =>
              let s := default_settings 400 (height (image_png env)) in
              match process_player_info s (rgb_values env) (image_png env)
                                        pos rot with
              | Some commands => Sends commands
              | None => Crashed UnpackError
              end
          | _, _ => Stopped ParseFailed
          end
    end.

End WithFloat.

(** [float] read as the exact decimal value. *)
Definition decimal_float (s : string) : option R :=
  option_map Q2R (Parse.float_of_string s).

(** *** A sample environment *)

(** A server that reports the pose of the player. *)
Definition pose_server (pos_text rot_text : string) (query : string)
  : string :=
  if String.eqb query (pos_query "Steve") then pos_text else rot_text.

Definition sample_environment (pos_text rot_text : string) : environment :=
  {| rgb_json_exists := true;
     manual_json := None;
     password := "secret";
     player_name := "Steve";
     server_up := true;
     rcon := pose_server pos_text rot_text;
     rgb_values := [("minecraft:black_wool", (0, 0, 0)%Z)];
     image_png := mkImage 1 1 (fun _ _ => (0, 0, 0, 0)%Z) (fun _ _ => 0%Z) |}.

End Main.

(* ================================================================== *)
(** * Properties                                                       *)
(* ================================================================== *)

(* ------------------------------------------------------------------ *)
(** ** The palette scan                                                *)
(* ------------------------------------------------------------------ *)

Module PaletteFacts.
Import Palette.

Lemma nth_error_snoc_inv {A : Type} (pre : list A) (e e' : A) (j : nat) :
  nth_error (pre ++ [e]) j = Some e' ->
  ((j < length pre)%nat /\ nth_error pre j = Some e') \/
  (j = length pre /\ e' = e).
Proof.
  intros H.
  destruct (Nat.lt_ge_cases j (length pre)) as [Hlt | Hge].
  - left. split; [assumption|]. now rewrite nth_error_app1 in H.
  - right. rewrite nth_error_app2 in H by assumption.
    destruct (j - length pre)%nat as [|k] eqn:Hk; simpl in H.
    + split; [lia | congruence].
    + destruct k; discriminate.
Qed.

Lemma scanned_step (r g b : Z) (pre : block_rgb_map) (st : scan_state)
      (e : string * rgb) :
  scanned r g b pre st -> scanned r g b (pre ++ [e]) (scan_step r g b st e).
Proof.
  destruct e as [block_id c]. destruct st as [[id0|] [|d0]]; simpl; try tauto.
  - (* an entry is held already *)
    intros (i & c0 & (Hi & Hmin & Hfirst) & ->). simpl in *.
    destruct (Z.ltb_spec (dist_sq r g b c) (dist_sq r g b c0)) as [Hlt | Hge].
    + exists (length pre), c. split; [|reflexivity]. repeat split; simpl.
      * rewrite nth_error_app2, Nat.sub_diag by lia. reflexivity.
      * intros j e' Hj. apply nth_error_snoc_inv in Hj as [[_ Hj] | [_ ->]].
        -- specialize (Hmin _ _ Hj). lia.
        -- simpl. lia.
      * intros j e' Hlen Hj.
        apply nth_error_snoc_inv in Hj as [[_ Hj] | [Heq _]]; [|lia].
        specialize (Hmin _ _ Hj). lia.
    + exists i, c0. split; [|reflexivity]. repeat split; simpl.
      * rewrite nth_error_app1; [assumption|].
        apply nth_error_Some. congruence.
      * intros j e' Hj. apply nth_error_snoc_inv in Hj as [[_ Hj] | [_ ->]].
        -- exact (Hmin _ _ Hj).
        -- simpl. lia.
      * intros j e' Hlt Hj.
        apply nth_error_snoc_inv in Hj as [[_ Hj] | [Heq _]].
        -- exact (Hfirst _ _ Hlt Hj).
        -- assert (i < length pre)%nat by (apply nth_error_Some; congruence).
           lia.
  - (* nothing is held: the first entry is taken *)
    intros ->. exists 0%nat, c. split; [|reflexivity]. repeat split; simpl.
    + intros [|[|j]] e' Hj; simpl in Hj; try discriminate.
      injection Hj as <-. simpl. lia.
    + intros j e' Hlt. lia.
Qed.

Lemma scanned_scan (r g b : Z) (m pre : block_rgb_map) (st : scan_state) :
  scanned r g b pre st -> scanned r g b (pre ++ m) (scan r g b m st).
Proof.
  revert pre st. induction m as [|e m IH]; intros pre st H; simpl.
  - now rewrite app_nil_r.
  - replace (pre ++ e :: m) with ((pre ++ [e]) ++ m)
      by (rewrite <- app_assoc; reflexivity).
    apply IH, scanned_step, H.
Qed.

Lemma scan_holds_entry (r g b : Z) (m : block_rgb_map) (st : scan_state)
      (block_id : string) (d : Z) :
  st = (Some block_id, Fin d) ->
  exists block_id' d', scan r g b m st = (Some block_id', Fin d').
Proof.
  revert st block_id d. induction m as [|[id c] m IH]; intros st id0 d0 ->; simpl.
  - eauto.
  - unfold scan in IH. destruct (dist_sq r g b c <? d0); eapply IH; reflexivity.
Qed.



(** The scan of a non-empty palette ends on its first nearest entry. *)
Lemma find_closest_block_argmin (r g b : Z) (m : block_rgb_map) :
  m <> [] ->
  exists i block_id c,
    find_closest_block r g b m = Some block_id /\
    first_argmin r g b m i (block_id, c).
Proof.
  intros Hne. unfold find_closest_block.
  pose proof (scanned_scan r g b m [] (None, Inf) eq_refl) as H.
  simpl in H. destruct m as [|e m]; [congruence|].
  destruct (scan_holds_entry r g b m (scan_step r g b (None, Inf) e)
              (fst e) (dist_sq r g b (snd e))) as (id' & d' & Hs).
  { destruct e as [id c]. reflexivity. }
  simpl in *. unfold scan in *. rewrite Hs in *. simpl in H.
  destruct H as (i & c & Hmin & _). exists i, id', c. split; [reflexivity|assumption].
Qed.

(** Two runs of the scan: an exact match that is not the first entry, and
    two entries at the same distance. *)
Example find_closest_block_exact :
  find_closest_block 255 0 0
    [("minecraft:stone", (125, 125, 125)); ("minecraft:red_wool", (255, 0, 0));
     ("minecraft:tnt", (255, 0, 0))]%string
  = Some "minecraft:red_wool"%string.
Proof. reflexivity. Qed.

Example find_closest_block_tie :
  find_closest_block 1 0 0
    [("minecraft:a", (0, 0, 0)); ("minecraft:b", (2, 0, 0))]%string
  = Some "minecraft:a"%string.
Proof. reflexivity. Qed.



(** C2 (as the code has it).  On the empty palette [find_closest_block]
    raises nothing: it returns [None], and the pixel loop then writes
    ["minecraft:stone"].  On a non-empty palette it returns the identifier of
    one of the palette's entries, and that identifier is the one the pixel
    loop writes. *)
Theorem find_closest_block_none_or_entry (r g b : Z) (m : block_rgb_map) :
  match m with
  | [] => find_closest_block r g b m = None /\
          pixel_block_id (r, g, b) m = "minecraft:stone"%string
  | _ :: _ => exists block_id c,
                In (block_id, c) m /\
                find_closest_block r g b m = Some block_id /\
                pixel_block_id (r, g, b) m = block_id
  end.
Proof.
  destruct m as [|e m'] eqn:Hm; [split; reflexivity|]. rewrite <- Hm.
  destruct (find_closest_block_argmin r g b m) as (i & block_id & c & Hf & Hi & _).
  { rewrite Hm. discriminate. }
  exists block_id, c. repeat split.
  - eapply nth_error_In, Hi.
  - exact Hf.
  - unfold pixel_block_id. now rewrite Hf.
Qed.

End PaletteFacts.

(* ------------------------------------------------------------------ *)
(** ** Vector algebra                                                  *)
(* ------------------------------------------------------------------ *)

Module VecFacts.
Import Vec.
Open Scope R_scope.

Ltac vec_destruct :=
  repeat match goal with
         | v : vec3 |- _ => let a := fresh "a" in let b := fresh "b" in
                            let c := fresh "c" in destruct v as [[a b] c]
         end.

(** Equality of two triples, component by component. *)
Ltac vec_eq := apply (f_equal2 pair); [apply (f_equal2 pair)|].

Lemma dot_comm (u v : vec3) : dot u v = dot v u.
Proof. vec_destruct. simpl. ring. Qed.

Lemma dot_cross_l (u v : vec3) : dot (cross u v) u = 0.
Proof. vec_destruct. simpl. ring. Qed.

Lemma dot_cross_r (u v : vec3) : dot (cross u v) v = 0.
Proof. vec_destruct. simpl. ring. Qed.

(** Lagrange's identity. *)
Lemma dot_cross_cross (u v : vec3) :
  dot (cross u v) (cross u v) = dot u u * dot v v - dot u v * dot u v.
Proof. vec_destruct. simpl. ring. Qed.

Lemma dot_self_nonneg (u : vec3) : 0 <= dot u u.
Proof. vec_destruct. simpl. nra. Qed.

Lemma norm_pos (u : vec3) : 0 < dot u u -> 0 < norm u.
Proof. intros H. unfold norm. now apply sqrt_lt_R0. Qed.

Lemma norm_sqr (u : vec3) : norm u * norm u = dot u u.
Proof. unfold norm. apply sqrt_sqrt, dot_self_nonneg. Qed.

Lemma norm_unit (u : vec3) : dot u u = 1 -> norm u = 1.
Proof. intros H. unfold norm. rewrite H. apply sqrt_1. Qed.

(** Away from the zero vector [normalize] divides by the norm. *)
Lemma normalize_scale (u : vec3) :
  0 < dot u u -> normalize u = vscale (/ norm u) u.
Proof.
  intros H. pose proof (norm_pos u H) as Hn. unfold normalize.
  destruct (Req_dec_T (norm u) 0) as [E | _]; [lra|].
  vec_destruct. simpl. unfold Rdiv. f_equal; [f_equal|]; ring.
Qed.

Lemma dot_vscale_l (k : R) (u v : vec3) : dot (vscale k u) v = k * dot u v.
Proof. vec_destruct. simpl. ring. Qed.

Lemma dot_vscale_r (k : R) (u v : vec3) : dot u (vscale k v) = k * dot u v.
Proof. vec_destruct. simpl. ring. Qed.

Lemma dot_normalize_self (u : vec3) :
  0 < dot u u -> dot (normalize u) (normalize u) = 1.
Proof.
  intros H. rewrite (normalize_scale u H), dot_vscale_l, dot_vscale_r.
  rewrite <- norm_sqr. pose proof (norm_pos u H). field. lra.
Qed.

Lemma dot_normalize_l (u v : vec3) :
  0 < dot u u -> dot u v = 0 -> dot (normalize u) v = 0.
Proof.
  intros H H0. rewrite (normalize_scale u H), dot_vscale_l, H0. ring.
Qed.

Lemma normalize_zero : normalize (0, 0, 0) = (0, 0, 0).
Proof.
  unfold normalize. destruct (Req_dec_T (norm (0, 0, 0)) 0) as [_ | Hn].
  - reflexivity.
  - exfalso. apply Hn. unfold norm. simpl.
    replace (0 * 0 + 0 * 0 + 0 * 0) with 0 by ring. apply sqrt_0.
Qed.

End VecFacts.

(* ------------------------------------------------------------------ *)
(** ** The camera basis                                                *)
(* ------------------------------------------------------------------ *)

Module CameraFacts.
Import Vec Camera VecFacts.
Open Scope R_scope.

Lemma look_vector_unit (yaw pitch : R) :
  dot (look_vector yaw pitch) (look_vector yaw pitch) = 1.
Proof.
  unfold look_vector. simpl.
  pose proof (sin2_cos2 (radians yaw)) as Hy.
  pose proof (sin2_cos2 (radians pitch)) as Hp.
  unfold Rsqr in Hy, Hp.
  set (sy := sin (radians yaw)) in *. set (cy := cos (radians yaw)) in *.
  set (sp := sin (radians pitch)) in *. set (cp := cos (radians pitch)) in *.
  replace (- sy * cp * (- sy * cp) + - sp * - sp + cy * cp * (cy * cp))
    with ((sy * sy + cy * cy) * (cp * cp) + sp * sp) by ring.
  rewrite Hy. lra.
Qed.

(** In either branch the reference vector is not parallel to a unit [look],
    so the cross product that [right_vector] normalises is not zero. *)
Lemma cross_up_look_nonzero (l : vec3) :
  dot l l = 1 ->
  0 < dot (cross (approximate_up l) l) (cross (approximate_up l) l).
Proof.
  intros Hl. rewrite dot_cross_cross, Hl. unfold approximate_up.
  destruct l as [[dx dy] dz]. simpl in *.
  replace (dx * 0 + dy * 1 + dz * 0) with dy by ring.
  destruct (Rgt_dec (Rabs dy) 0.99) as [Hbig | Hsmall]; simpl.
  - assert (0.99 * 0.99 < dy * dy).
    { unfold Rabs in Hbig. destruct (Rcase_abs dy); nra. }
    nra.
  - assert (dy * dy <= 0.99 * 0.99).
    { unfold Rabs in Hsmall. destruct (Rcase_abs dy); nra. }
    nra.
Qed.

Lemma right_vector_unit (l : vec3) :
  dot l l = 1 -> dot (right_vector l) (right_vector l) = 1.
Proof.
  intros Hl. apply dot_normalize_self, cross_up_look_nonzero, Hl.
Qed.

Lemma right_vector_orth_look (l : vec3) :
  dot l l = 1 -> dot (right_vector l) l = 0.
Proof.
  intros Hl. apply dot_normalize_l.
  - apply cross_up_look_nonzero, Hl.
  - apply dot_cross_r.
Qed.

Lemma cross_look_right_unit (l : vec3) :
  dot l l = 1 ->
  dot (cross l (right_vector l)) (cross l (right_vector l)) = 1.
Proof.
  intros Hl. rewrite dot_cross_cross, Hl, (right_vector_unit l Hl).
  rewrite (dot_comm l), (right_vector_orth_look l Hl). ring.
Qed.

Lemma true_up_vector_unit (l : vec3) :
  dot l l = 1 -> dot (true_up_vector l) (true_up_vector l) = 1.
Proof.
  intros Hl. apply dot_normalize_self.
  rewrite (cross_look_right_unit l Hl). lra.
Qed.

Lemma true_up_vector_orth_look (l : vec3) :
  dot l l = 1 -> dot (true_up_vector l) l = 0.
Proof.
  intros Hl. apply dot_normalize_l.
  - rewrite (cross_look_right_unit l Hl). lra.
  - apply dot_cross_l.
Qed.

Lemma true_up_vector_orth_right (l : vec3) :
  dot l l = 1 -> dot (true_up_vector l) (right_vector l) = 0.
Proof.
  intros Hl. apply dot_normalize_l.
  - rewrite (cross_look_right_unit l Hl). lra.
  - apply dot_cross_r.
Qed.

(** The basis is orthonormal, exactly, over the reals. *)
Lemma camera_frame_orthonormal (pos : vec3) (yaw pitch : R) :
  let F := camera_frame pos yaw pitch in
  orthonormal (look F) (right F) (true_up F).
Proof.
  simpl. pose proof (look_vector_unit yaw pitch) as Hl.
  set (l := look_vector yaw pitch) in *.
  unfold orthonormal. repeat split.
  - now apply norm_unit.
  - apply norm_unit, right_vector_unit, Hl.
  - apply norm_unit, true_up_vector_unit, Hl.
  - rewrite dot_comm. apply right_vector_orth_look, Hl.
  - rewrite dot_comm. apply true_up_vector_orth_look, Hl.
  - rewrite dot_comm. apply true_up_vector_orth_right, Hl.
Qed.

Lemma normalize_unit (u : vec3) : dot u u = 1 -> normalize u = u.
Proof.
  intros H. rewrite normalize_scale by lra. rewrite (norm_unit u H).
  destruct u as [[a b] c]. simpl. f_equal; [f_equal|]; field.
Qed.

(** Looking straight along +z (yaw 0, pitch 0). *)
Lemma look_vector_front : look_vector 0 0 = (0, 0, 1).
Proof.
  unfold look_vector, radians.
  replace (0 * (PI / 180)) with 0 by ring. rewrite sin_0, cos_0.
  f_equal; [f_equal|]; ring.
Qed.

Lemma right_vector_front : right_vector (0, 0, 1) = (1, 0, 0).
Proof.
  unfold right_vector, approximate_up. simpl.
  destruct (Rgt_dec (Rabs (0 * 0 + 0 * 1 + 1 * 0)) 0.99) as [H | _].
  - exfalso. replace (0 * 0 + 0 * 1 + 1 * 0) with 0 in H by ring.
    rewrite Rabs_R0 in H. lra.
  - simpl. rewrite normalize_unit by (simpl; ring).
    f_equal; [f_equal|]; ring.
Qed.

Lemma true_up_vector_front : true_up_vector (0, 0, 1) = (0, 1, 0).
Proof.
  unfold true_up_vector. rewrite right_vector_front. simpl.
  rewrite normalize_unit by (simpl; ring).
  f_equal; [f_equal|]; ring.
Qed.

Lemma camera_frame_front (pos : vec3) :
  camera_frame pos 0 0 = mkFrame (eye_pos pos) (0, 0, 1) (1, 0, 0) (0, 1, 0).
Proof.
  unfold camera_frame. rewrite look_vector_front, right_vector_front,
    true_up_vector_front. reflexivity.
Qed.

(** Looking straight down (yaw 0, pitch 90) takes the fallback reference. *)
Lemma look_vector_down : look_vector 0 90 = (0, -1, 0).
Proof.
  unfold look_vector, radians.
  replace (0 * (PI / 180)) with 0 by ring.
  replace (90 * (PI / 180)) with (PI / 2) by field.
  rewrite sin_0, cos_0, sin_PI2, cos_PI2.
  f_equal; [f_equal|]; ring.
Qed.

Lemma approximate_up_down : approximate_up (look_vector 0 90) = (1, 0, 0).
Proof.
  rewrite look_vector_down. unfold approximate_up. simpl.
  destruct (Rgt_dec (Rabs (0 * 0 + -1 * 1 + 0 * 0)) 0.99) as [_ | H].
  - reflexivity.
  - exfalso. apply H. replace (0 * 0 + -1 * 1 + 0 * 0) with (- (1)) by ring.
    rewrite Rabs_Ropp, Rabs_R1. lra.
Qed.

(** The fallback frame: looking straight down, the reference is (1,0,0). *)
Lemma camera_frame_down (pos : vec3) :
  camera_frame pos 0 90
  = mkFrame (eye_pos pos) (0, -1, 0) (0, 0, -1) (1, 0, 0).
Proof.
  unfold camera_frame.
  assert (Hr : right_vector (look_vector 0 90) = (0, 0, -1)).
  { unfold right_vector. rewrite approximate_up_down, look_vector_down.
    simpl. rewrite normalize_unit by (simpl; ring). vec_eq; ring. }
  assert (Ht : true_up_vector (look_vector 0 90) = (1, 0, 0)).
  { unfold true_up_vector. rewrite Hr, look_vector_down.
    simpl. rewrite normalize_unit by (simpl; ring). vec_eq; ring. }
  rewrite Hr, Ht, look_vector_down. reflexivity.
Qed.

(** C6.  For every yaw and pitch (in degrees) the basis built by the code is
    orthonormal, component by component:
    [look = (-sin yaw * cos pitch, -sin pitch, cos yaw * cos pitch)];
    [right] is a positive multiple [k] of [cross up_ref look], where
    [up_ref] is [(1,0,0)] when [|look_y| > 0.99] and [(0,1,0)] otherwise;
    [true_up] is [cross look right] (the second normalisation divides by 1
    in real arithmetic).  The three sums of squares are 1, so the three
    lengths are within [1e-6] of 1, and the three pairwise dot products are
    0, so within [1e-6] of 0.  The fallback branch is covered: at yaw 0,
    pitch 90 the basis is [(0,-1,0)], [(0,0,-1)], [(1,0,0)]. *)
Theorem camera_basis_orthonormal (pos : vec3) (yaw pitch : R) :
  let F := camera_frame pos yaw pitch in
  let l0 := - sin (yaw * (PI / 180)) * cos (pitch * (PI / 180)) in
  let l1 := - sin (pitch * (PI / 180)) in
  let l2 := cos (yaw * (PI / 180)) * cos (pitch * (PI / 180)) in
  (exists u0 u1 u2 k r0 r1 r2 t0 t1 t2 : R,
     look F = (l0, l1, l2) /\
     right F = (r0, r1, r2) /\
     true_up F = (t0, t1, t2) /\
     (Rabs l1 > 0.99 -> u0 = 1 /\ u1 = 0 /\ u2 = 0) /\
     (~ Rabs l1 > 0.99 -> u0 = 0 /\ u1 = 1 /\ u2 = 0) /\
     0 < k /\
     r0 = k * (u1 * l2 - u2 * l1) /\
     r1 = k * (u2 * l0 - u0 * l2) /\
     r2 = k * (u0 * l1 - u1 * l0) /\
     t0 = l1 * r2 - l2 * r1 /\
     t1 = l2 * r0 - l0 * r2 /\
     t2 = l0 * r1 - l1 * r0 /\
     l0 * l0 + l1 * l1 + l2 * l2 = 1 /\
     r0 * r0 + r1 * r1 + r2 * r2 = 1 /\
     t0 * t0 + t1 * t1 + t2 * t2 = 1 /\
     l0 * r0 + l1 * r1 + l2 * r2 = 0 /\
     l0 * t0 + l1 * t1 + l2 * t2 = 0 /\
     r0 * t0 + r1 * t1 + r2 * t2 = 0 /\
     Rabs (sqrt (l0 * l0 + l1 * l1 + l2 * l2) - 1) <= 1 / 1000000 /\
     Rabs (sqrt (r0 * r0 + r1 * r1 + r2 * r2) - 1) <= 1 / 1000000 /\
     Rabs (sqrt (t0 * t0 + t1 * t1 + t2 * t2) - 1) <= 1 / 1000000 /\
     Rabs (l0 * r0 + l1 * r1 + l2 * r2) <= 1 / 1000000 /\
     Rabs (l0 * t0 + l1 * t1 + l2 * t2) <= 1 / 1000000 /\
     Rabs (r0 * t0 + r1 * t1 + r2 * t2) <= 1 / 1000000) /\
  look (camera_frame pos 0 90) = (0, -1, 0) /\
  right (camera_frame pos 0 90) = (0, 0, -1) /\
  true_up (camera_frame pos 0 90) = (1, 0, 0).
Proof.
  intros F l0 l1 l2.
  split; [|rewrite camera_frame_down; repeat split].
  pose proof (look_vector_unit yaw pitch) as Hl.
  pose proof (cross_up_look_nonzero _ Hl) as Hc.
  pose proof (right_vector_unit _ Hl) as Hr.
  pose proof (right_vector_orth_look _ Hl) as Hrl.
  pose proof (true_up_vector_unit _ Hl) as Ht.
  pose proof (true_up_vector_orth_look _ Hl) as Htl.
  pose proof (true_up_vector_orth_right _ Hl) as Htr.
  assert (Htc : true_up_vector (look_vector yaw pitch)
                = cross (look_vector yaw pitch)
                        (right_vector (look_vector yaw pitch))).
  { unfold true_up_vector. apply normalize_unit, cross_look_right_unit, Hl. }
  assert (Hrc : right_vector (look_vector yaw pitch)
                = vscale (/ norm (cross (approximate_up (look_vector yaw pitch))
                                        (look_vector yaw pitch)))
                         (cross (approximate_up (look_vector yaw pitch))
                                (look_vector yaw pitch))).
  { unfold right_vector. apply normalize_scale, Hc. }
  pose proof (Rinv_0_lt_compat _ (norm_pos _ Hc)) as Hk.
  set (k := / norm (cross (approximate_up (look_vector yaw pitch))
                          (look_vector yaw pitch))) in *.
  clearbody k.
  assert (Hlook : look_vector yaw pitch = (l0, l1, l2)) by reflexivity.
  unfold F, camera_frame. simpl look. simpl right. simpl true_up.
  rewrite Hlook in *. clear Hlook.
  clearbody l0 l1 l2.
  assert (Hup : exists u0 u1 u2,
             approximate_up (l0, l1, l2) = (u0, u1, u2) /\
             (Rabs l1 > 0.99 -> u0 = 1 /\ u1 = 0 /\ u2 = 0) /\
             (~ Rabs l1 > 0.99 -> u0 = 0 /\ u1 = 1 /\ u2 = 0)).
  { unfold approximate_up. simpl.
    replace (l0 * 0 + l1 * 1 + l2 * 0) with l1 by ring.
    destruct (Rgt_dec (Rabs l1) 0.99) as [Hb | Hs].
    - exists 1, 0, 0. split; [reflexivity|]. split; [tauto|].
      intros Hn. contradiction.
    - exists 0, 1, 0. split; [reflexivity|]. split; [|tauto].
      intros Hn. contradiction. }
  destruct Hup as (u0 & u1 & u2 & Hu & Hbig & Hsmall).
  rewrite Hu in Hrc. simpl in Hrc.
  rewrite Htc in *. rewrite Hrc in *. simpl in *.
  exists u0, u1, u2, k. eexists. eexists. eexists. eexists. eexists. eexists.
  split; [reflexivity|]. split; [reflexivity|]. split; [reflexivity|].
  split; [exact Hbig|]. split; [exact Hsmall|]. split; [exact Hk|].
  do 6 (split; [reflexivity|]).
  split; [exact Hl|]. split; [exact Hr|]. split; [exact Ht|].
  assert (Hlr : l0 * (k * (u1 * l2 - u2 * l1)) + l1 * (k * (u2 * l0 - u0 * l2))
                + l2 * (k * (u0 * l1 - u1 * l0)) = 0) by ring.
  split; [exact Hlr|].
  split; [ring|].
  split; [ring|].
  rewrite Hl, Hr, Ht, sqrt_1.
  replace (1 - 1) with 0 by ring. rewrite Rabs_R0.
  split; [lra|]. split; [lra|]. split; [lra|].
  rewrite Hlr.
  match goal with
  | |- Rabs 0 <= _ /\ Rabs ?a <= _ /\ Rabs ?b <= _ =>
      replace a with 0 by ring; replace b with 0 by ring
  end.
  rewrite Rabs_R0. lra.
Qed.

End CameraFacts.

(* ------------------------------------------------------------------ *)
(** ** The depth mapping                                               *)
(* ------------------------------------------------------------------ *)

Module DepthFacts.
Import Depth.
Open Scope R_scope.

(** A grayscale sample in 0..255 normalises into [0, 1]. *)
Lemma normalized_range (gray : Z) :
  (0 <= gray <= 255)%Z -> 0 <= normalized gray <= 1.
Proof.
  intros [H0 H1]. apply IZR_le in H0, H1. unfold normalized. lra.
Qed.

Lemma depth_antitone (lo hi b b' : R) :
  lo <= hi -> b <= b' -> depth lo hi b' <= depth lo hi b.
Proof. intros Hlh Hb. unfold depth. nra. Qed.

Lemma depth_bounds (lo hi b : R) :
  lo <= hi -> 0 <= b <= 1 -> lo <= depth lo hi b <= hi.
Proof. intros Hlh [H0 H1]. unfold depth. nra. Qed.

(** C5.  With [min_distance < max_distance] and a normalised brightness [b]
    in [0, 1], the depth is [max_distance - b * (max_distance -
    min_distance)]; it lies in [min_distance, max_distance], it does not
    increase when [b] increases, and it is [max_distance] at [b = 0] and
    [min_distance] at [b = 1]. *)
Theorem depth_mapping (min_distance max_distance b : R) :
  min_distance < max_distance ->
  0 <= b <= 1 ->
  depth min_distance max_distance b
    = max_distance - b * (max_distance - min_distance) /\
  min_distance <= depth min_distance max_distance b <= max_distance /\
  (forall b', 0 <= b' <= 1 -> b <= b' ->
     depth min_distance max_distance b' <= depth min_distance max_distance b) /\
  depth min_distance max_distance 0 = max_distance /\
  depth min_distance max_distance 1 = min_distance.
Proof.
  intros Hlt Hb. split; [reflexivity|]. split; [|split; [|split]].
  - apply depth_bounds; lra.
  - intros b' _ Hle. apply depth_antitone; lra.
  - unfold depth. ring.
  - unfold depth. ring.
Qed.

Lemma depth_mapping_witness :
  60 < 180 /\ 0 <= 1 / 4 <= 1 /\
  depth 60 180 (1 / 4) = 180 - 1 / 4 * (180 - 60) /\
  60 <= depth 60 180 (1 / 4) <= 180 /\
  (forall b', 0 <= b' <= 1 -> 1 / 4 <= b' ->
     depth 60 180 b' <= depth 60 180 (1 / 4)) /\
  depth 60 180 0 = 180 /\
  depth 60 180 1 = 60.
Proof.
  split; [lra|]. split; [lra|].
  apply (depth_mapping 60 180 (1 / 4)); lra.
Defined.

End DepthFacts.

(* ------------------------------------------------------------------ *)
(** ** Projection and emission                                         *)
(* ------------------------------------------------------------------ *)

Module PixelsFacts.
Import Vec Camera Pixels VecFacts CameraFacts.
Open Scope R_scope.

(** *** Rounding *)

Lemma Int_part_IZR_plus (z : Z) (d : R) :
  0 <= d < 1 -> Int_part (IZR z + d) = z.
Proof.
  intros Hd. symmetry. apply Int_part_spec. lra.
Qed.

Lemma py_round_below (z : Z) (d : R) :
  0 <= d < 1 / 2 -> py_round (IZR z + d) = z.
Proof.
  intros Hd. unfold py_round. rewrite Int_part_IZR_plus by lra.
  destruct (Rlt_dec (IZR z + d - IZR z) (1 / 2)) as [_ | H]; [reflexivity|].
  exfalso. apply H. lra.
Qed.

Lemma py_round_above (z : Z) (d : R) :
  1 / 2 < d < 1 -> py_round (IZR z + d) = (z + 1)%Z.
Proof.
  intros Hd. unfold py_round. rewrite Int_part_IZR_plus by lra.
  destruct (Rlt_dec (IZR z + d - IZR z) (1 / 2)) as [H | _]; [lra|].
  destruct (Rlt_dec (1 / 2) (IZR z + d - IZR z)) as [_ | H]; [reflexivity|].
  exfalso. apply H. lra.
Qed.

(** A tie goes to the even neighbour. *)
Lemma py_round_half (z : Z) :
  py_round (IZR z + 1 / 2) = if Z.even z then z else (z + 1)%Z.
Proof.
  unfold py_round. rewrite Int_part_IZR_plus by lra.
  destruct (Rlt_dec (IZR z + 1 / 2 - IZR z) (1 / 2)) as [H | _]; [lra|].
  destruct (Rlt_dec (1 / 2) (IZR z + 1 / 2 - IZR z)) as [H | _]; [lra|].
  reflexivity.
Qed.

Lemma py_round_IZR (z : Z) : py_round (IZR z) = z.
Proof.
  replace (IZR z) with (IZR z + 0) by ring. apply py_round_below. lra.
Qed.

Example py_round_examples :
  py_round 65.62 = 66%Z /\ py_round 0.5 = 0%Z /\ py_round 1.5 = 2%Z /\
  py_round (-0.4) = 0%Z /\ py_round (-2.5) = (-2)%Z.
Proof.
  repeat split.
  - replace 65.62 with (IZR 65 + 0.62) by lra. rewrite py_round_above; [reflexivity|lra].
  - replace 0.5 with (IZR 0 + 1 / 2) by lra. now rewrite py_round_half.
  - replace 1.5 with (IZR 1 + 1 / 2) by lra. now rewrite py_round_half.
  - replace (-0.4) with (IZR (-1) + 0.6) by lra. rewrite py_round_above; [reflexivity|lra].
  - replace (-2.5) with (IZR (-3) + 1 / 2) by lra. now rewrite py_round_half.
Qed.

(** *** The lateral offset *)

(** Relative to the eye, the component of [block_pos] along [right] is the
    lateral offset, whenever [right] is a unit vector orthogonal to the other
    two. *)
Lemma block_pos_right_component (s : settings) (F : frame) (w h : nat)
      (distance : R) (row col : nat) :
  dot (look F) (right F) = 0 ->
  dot (right F) (right F) = 1 ->
  dot (true_up F) (right F) = 0 ->
  dot (vsub (block_pos s F w h distance row col) (eye F)) (right F)
  = norm_offset_right s w distance col.
Proof.
  intros Hlr Hrr Htr. unfold block_pos.
  destruct F as [[[e0 e1] e2] [[l0 l1] l2] [[r0 r1] r2] [[t0 t1] t2]].
  simpl in *.
  set (a := norm_offset_right s w distance col).
  set (b := norm_offset_up s h distance row).
  replace ((e0 + l0 * distance + r0 * a + t0 * b - e0) * r0 +
           (e1 + l1 * distance + r1 * a + t1 * b - e1) * r1 +
           (e2 + l2 * distance + r2 * a + t2 * b - e2) * r2)
    with (distance * (l0 * r0 + l1 * r1 + l2 * r2)
          + a * (r0 * r0 + r1 * r1 + r2 * r2)
          + b * (t0 * r0 + t1 * r1 + t2 * r2)) by ring.
  rewrite Hlr, Hrr, Htr. ring.
Qed.

Lemma scale_factor_pos (s : settings) (distance : R) :
  0 < max_distance s -> 0 < distance -> 0 < scale_factor s distance.
Proof.
  intros Hm Hd. unfold scale_factor, base_distance.
  now apply Rdiv_lt_0_compat.
Qed.

(** The sign of the lateral offset is opposite to that of
    [col - width / 2]. *)
Lemma norm_offset_right_sign (s : settings) (w : nat) (distance : R)
      (col : nat) :
  (0 < w)%nat -> (0 < output_width s)%nat ->
  0 < max_distance s -> 0 < distance ->
  (INR col < INR w / 2 -> 0 < norm_offset_right s w distance col) /\
  (INR w / 2 < INR col -> norm_offset_right s w distance col < 0).
Proof.
  intros Hw How Hm Hd.
  pose proof (scale_factor_pos s distance Hm Hd) as Hsf.
  apply lt_0_INR in Hw, How. unfold norm_offset_right.
  set (W := INR w) in *. set (O := INR (output_width s)) in *.
  set (k := scale_factor s distance) in *.
  assert (Hok : 0 < O / 2 * k) by (apply Rmult_lt_0_compat; lra).
  set (x := (INR col - W / 2) / (W / 2)).
  replace (- x * (O / 2) * k) with (- (x * (O / 2 * k))) by ring.
  split; intros Hc.
  - assert (x < 0).
    { assert (0 < (W / 2 - INR col) / (W / 2))
        by (apply Rdiv_lt_0_compat; lra).
      replace x with (- ((W / 2 - INR col) / (W / 2)))
        by (unfold x; field; lra).
      lra. }
    nra.
  - assert (0 < x) by (unfold x; apply Rdiv_lt_0_compat; lra).
    nra.
Qed.

(** C1 (as the code has it).  Under the frame [look = (0,0,1)],
    [right = (1,0,0)] that the code builds, with a positive depth (so that
    [scale_factor > 0], [max_distance] and the output width being
    positive), the position [block_pos] of a pixel column left of the image
    centre ([col < width/2]) has a positive component along [right]
    relative to the eye, and a column right of the centre has a negative
    one: the lateral offset carries the opposite sign of [col - width/2].
    The position is the one projected, before it is rounded into a
    command. *)
Theorem lateral_offset_sign_flip (s : settings) (pos : vec3) (yaw pitch : R)
        (w h : nat) (distance : R) (row col : nat) :
  let F := camera_frame pos yaw pitch in
  look F = (0, 0, 1) -> right F = (1, 0, 0) ->
  (col < w)%nat -> (0 < output_width s)%nat ->
  0 < max_distance s -> 0 < distance ->
  (INR col < INR w / 2 ->
   0 < dot (vsub (block_pos s F w h distance row col) (eye F)) (right F)) /\
  (INR w / 2 < INR col ->
   dot (vsub (block_pos s F w h distance row col) (eye F)) (right F) < 0).
Proof.
  intros F Hl Hr Hcol How Hm Hd.
  assert (Hw : (0 < w)%nat) by lia.
  destruct (camera_frame_orthonormal pos yaw pitch)
    as (Hn1 & Hn2 & Hn3 & Hlr & Hlu & Hru).
  fold F in Hn1, Hn2, Hn3, Hlr, Hlu, Hru.
  rewrite block_pos_right_component.
  - now apply norm_offset_right_sign.
  - exact Hlr.
  - rewrite Hr. simpl. ring.
  - rewrite dot_comm. exact Hru.
Qed.

Lemma lateral_offset_sign_flip_witness :
  let s := default_settings 4 4 in
  let F := camera_frame (0, 64, 0) 0 0 in
  (look F = (0, 0, 1) /\ right F = (1, 0, 0)) /\
  ((0 < 4)%nat /\ (0 < output_width s)%nat) /\
  (0 < max_distance s /\ 0 < 180) /\
  INR 0 < INR 4 / 2 /\
  0 < dot (vsub (block_pos s F 4 4 180 0 0) (eye F)) (right F).
Proof.
  intros s F.
  assert (HF : look F = (0, 0, 1) /\ right F = (1, 0, 0)).
  { unfold F. rewrite camera_frame_front. split; reflexivity. }
  assert (Hcol : INR 0 < INR 4 / 2) by (simpl; lra).
  split; [exact HF|]. split; [split; simpl; lia|].
  split; [split; simpl; lra|]. split; [exact Hcol|].
  apply (lateral_offset_sign_flip s (0, 64, 0) 0 0 4 4 180 0 0).
  - exact (proj1 HF).
  - exact (proj2 HF).
  - lia.
  - simpl. lia.
  - simpl. lra.
  - lra.
  - exact Hcol.
Defined.

(** The statement with the signs as first written fails: in a 4-pixel-wide
    image seen under [look = (0,0,1)], [right = (1,0,0)] at depth 180, column
    0 (left of the centre) lands 2 blocks on the positive side of [right],
    and column 3 (right of the centre) lands 1 block on the negative side. *)
Lemma left_column_positive_along_right :
  let s := default_settings 4 4 in
  let F := camera_frame (0, 64, 0) 0 0 in
  look F = (0, 0, 1) /\ right F = (1, 0, 0) /\
  INR 0 < INR 4 / 2 /\ INR 4 / 2 < INR 3 /\
  dot (vsub (block_pos s F 4 4 180 0 0) (eye F)) (right F) = 2 /\
  dot (vsub (block_pos s F 4 4 180 0 3) (eye F)) (right F) = -1 /\
  ~ (dot (vsub (block_pos s F 4 4 180 0 0) (eye F)) (right F) < 0) /\
  ~ (0 < dot (vsub (block_pos s F 4 4 180 0 3) (eye F)) (right F)).
Proof.
  intros s F.
  assert (E0 : dot (vsub (block_pos s F 4 4 180 0 0) (eye F)) (right F) = 2).
  { unfold F. rewrite camera_frame_front.
    unfold block_pos, norm_offset_right, norm_offset_up, scale_factor,
      base_distance. simpl. field. }
  assert (E3 : dot (vsub (block_pos s F 4 4 180 0 3) (eye F)) (right F) = -1).
  { unfold F. rewrite camera_frame_front.
    unfold block_pos, norm_offset_right, norm_offset_up, scale_factor,
      base_distance. simpl. field. }
  assert (HF : look F = (0, 0, 1) /\ right F = (1, 0, 0)).
  { unfold F. rewrite camera_frame_front. split; reflexivity. }
  split; [exact (proj1 HF)|]. split; [exact (proj2 HF)|].
  split; [simpl; lra|]. split; [simpl; lra|].
  split; [exact E0|]. split; [exact E3|].
  rewrite E0, E3. split; lra.
Qed.

(** Rounding to the block lattice can swallow the offset: in a one-pixel
    image at depth 60 the lateral offset is 1/6, and the block written has
    the x of the eye. *)
Example rounded_offset_can_vanish :
  norm_offset_right (default_settings 1 1) 1 60 0 = 1 / 6 /\
  py_round (0 + 0 * 60 + 1 * norm_offset_right (default_settings 1 1) 1 60 0)
  = 0%Z.
Proof.
  assert (E : norm_offset_right (default_settings 1 1) 1 60 0 = 1 / 6).
  { unfold norm_offset_right, scale_factor, base_distance. simpl. field. }
  split; [exact E|]. rewrite E.
  replace (0 + 0 * 60 + 1 * (1 / 6)) with (IZR 0 + 1 / 6) by lra.
  apply py_round_below. lra.
Qed.

(** *** Emission *)

Lemma pixel_commands_opaque (s : settings) (m : Palette.block_rgb_map)
      (F : frame) (w h : nat) (r g b a : Z) (distance : R) (row col : nat) :
  (128 <= a)%Z ->
  pixel_commands s m F w h (r, g, b, a) distance row col
  = map (fun pos => setblock pos (Palette.pixel_block_id (r, g, b) m))
        (pixel_positions s F distance (block_pos s F w h distance row col)).
Proof.
  intros Ha. unfold pixel_commands.
  destruct (Z.ltb_spec a 128) as [Hlt | _]; [lia | reflexivity].
Qed.

Lemma pixel_positions_far (s : settings) (F : frame) (distance : R)
      (bp : vec3) :
  distance >= far_threshold s ->
  let k := pixel_scale s * scale_factor s distance in
  pixel_positions s F distance bp
  = [ bp;
      vadd bp (vscale k (right F));
      vadd bp (vscale k (true_up F));
      vadd (vadd bp (vscale k (right F))) (vscale k (true_up F)) ].
Proof.
  intros Hfar k. unfold pixel_positions.
  destruct (Rge_dec distance (far_threshold s)) as [_ | Hn]; [|contradiction].
  destruct (right F) as [[r0 r1] r2]. destruct (true_up F) as [[t0 t1] t2].
  destruct bp as [[b0 b1] b2]. reflexivity.
Qed.

Lemma pixel_positions_near (s : settings) (F : frame) (distance : R)
      (bp : vec3) :
  distance < far_threshold s -> pixel_positions s F distance bp = [ bp ].
Proof.
  intros Hnear. unfold pixel_positions.
  destruct (Rge_dec distance (far_threshold s)) as [Hge | _]; [lra|reflexivity].
Qed.

Lemma far_threshold_default (w h : nat) :
  far_threshold (default_settings w h) = 132.
Proof. unfold far_threshold. simpl. lra. Qed.







(** *** The loop *)

(** Every entry of the depth map lies between the two bounds. *)
Lemma depth_map_bounds (s : settings) (im : image) (row col : nat) :
  min_distance s <= max_distance s ->
  (0 <= gray_data im row col <= 255)%Z ->
  min_distance s <= depth_map s im row col <= max_distance s.
Proof.
  intros Hb Hg. unfold depth_map.
  apply DepthFacts.depth_bounds; [assumption|].
  now apply DepthFacts.normalized_range.
Qed.

(** An image of a single pixel yields that pixel's commands. *)
Lemma process_image_single (s : settings) (m : Palette.block_rgb_map)
      (F : frame) (px : rgba) (gray : Z) :
  let im := mkImage 1 1 (fun _ _ => px) (fun _ _ => gray) in
  process_image s m F im
  = pixel_commands s m F 1 1 px (depth_map s im 0 0) 0 0.
Proof. intros im. unfold process_image. simpl. now rewrite !app_nil_r. Qed.

(** The commands of the whole image are those of its pixels. *)
Lemma in_process_image (s : settings) (m : Palette.block_rgb_map)
      (F : frame) (im : image) (cmd : string) :
  In cmd (process_image s m F im) <->
  exists row col,
    (row < height im)%nat /\ (col < width im)%nat /\
    In cmd (pixel_commands s m F (width im) (height im)
              (pixel_data im col row) (depth_map s im row col) row col).
Proof.
  unfold process_image. rewrite in_flat_map. split.
  - intros (row & Hrow & H). apply in_flat_map in H as (col & Hcol & H).
    apply in_seq in Hrow, Hcol. exists row, col. repeat split; try lia. exact H.
  - intros (row & col & Hrow & Hcol & H). exists row. split.
    + apply in_seq. lia.
    + apply in_flat_map. exists col. split; [apply in_seq; lia | exact H].
Qed.

(** *** Worked runs *)

(** Rewrites [py_round x] to [z] when [x] is [z + d] with [d] below one
    half, and to [z + 1] when [d] is above it. *)
Ltac round_down x z :=
  replace (py_round x) with z
    by (replace x with (IZR z + (x - IZR z)) by ring;
        symmetry; apply py_round_below; lra).
Ltac round_up x z :=
  replace (py_round x) with (z + 1)%Z
    by (replace x with (IZR z + (x - IZR z)) by ring;
        symmetry; apply py_round_above; lra).

(** Yaw 0, pitch 0, the player at (0, 64, 0): the eye is at (0, 65.62, 0) and
    a centre pixel at depth 100 projects to (0, 65.62, 100), which is written
    as block (0, 66, 100). *)
Example centre_pixel_projection :
  let s := default_settings 2 2 in
  let F := camera_frame (0, 64, 0) 0 0 in
  eye F = (0, 65.62, 0) /\
  block_pos s F 2 2 100 1 1 = (0, 65.62, 100) /\
  setblock (block_pos s F 2 2 100 1 1) "minecraft:stone"
  = "setblock 0 66 100 minecraft:stone"%string.
Proof.
  intros s F.
  assert (HE : eye F = (0, 65.62, 0)).
  { unfold F. rewrite camera_frame_front. simpl. unfold eye_height.
    vec_eq; lra. }
  assert (HB : block_pos s F 2 2 100 1 1 = (0, 65.62, 100)).
  { unfold F. rewrite camera_frame_front.
    unfold block_pos, norm_offset_right, norm_offset_up, scale_factor,
      base_distance. simpl. unfold eye_height.
    vec_eq; lra. }
  split; [exact HE|]. split; [exact HB|].
  rewrite HB. unfold setblock.
  round_down 0 0%Z. round_up 65.62 65%Z. round_down 100 100%Z.
  reflexivity.
Qed.

(** A single black opaque pixel at the far bound 180: the 2 x 2 cluster. *)
Example far_pixel_cluster :
  process_image_depthmap_and_get_commands (default_settings 1 1)
    [("minecraft:black_wool", (0, 0, 0)%Z)]%string
    (mkImage 1 1 (fun _ _ => (0, 0, 0, 255)%Z) (fun _ _ => 0%Z))
    (0, 64, 0) 0 0
  = [ "setblock 0 66 180 minecraft:black_wool";
      "setblock 2 66 180 minecraft:black_wool";
      "setblock 0 67 180 minecraft:black_wool";
      "setblock 2 67 180 minecraft:black_wool" ]%string.
Proof.
  unfold process_image_depthmap_and_get_commands.
  rewrite process_image_single, camera_frame_front.
  rewrite pixel_commands_opaque by lia.
  assert (HD : depth_map (default_settings 1 1)
                 (mkImage 1 1 (fun _ _ => (0, 0, 0, 255)%Z) (fun _ _ => 0%Z))
                 0 0 = 180).
  { unfold depth_map, Depth.depth, Depth.normalized. simpl. field. }
  rewrite HD.
  rewrite pixel_positions_far by (rewrite far_threshold_default; lra).
  assert (HB : block_pos (default_settings 1 1)
                 (mkFrame (eye_pos (0, 64, 0)) (0, 0, 1) (1, 0, 0) (0, 1, 0))
                 1 1 180 0 0 = (0.5, 66.12, 180)).
  { unfold block_pos, norm_offset_right, norm_offset_up, scale_factor,
      base_distance. simpl. unfold eye_height.
    vec_eq; lra. }
  rewrite HB. unfold scale_factor, base_distance. simpl.
  replace (1 * (180 / 180)) with 1 by field.
  replace (0.5 + 1 * 1) with 1.5 by lra.
  replace (0.5 + 1 * 0) with 0.5 by lra.
  replace (66.12 + 1 * 0) with 66.12 by lra.
  replace (66.12 + 1 * 1) with 67.12 by lra.
  replace (180 + 1 * 0) with 180 by lra.
  replace (1.5 + 1 * 0) with 1.5 by lra.
  replace (180 + 1 * 0) with 180 by lra.
  replace (py_round 0.5) with 0%Z
    by (replace 0.5 with (IZR 0 + 1 / 2) by lra; now rewrite py_round_half).
  replace (py_round 1.5) with 2%Z
    by (replace 1.5 with (IZR 1 + 1 / 2) by lra; now rewrite py_round_half).
  round_down 66.12 66%Z. round_down 67.12 67%Z. round_down 180 180%Z.
  reflexivity.
Qed.

(** C2, as first written, fails.  With an empty palette nothing is raised:
    [find_closest_block] returns [None], the pixel loop substitutes
    ["minecraft:stone"], and the run ends normally with a command for that
    block. *)
Lemma empty_palette_defaults_to_stone :
  Palette.find_closest_block 10 20 30 [] = None /\
  Palette.pixel_block_id (10, 20, 30)%Z [] = "minecraft:stone"%string /\
  process_image_depthmap_and_get_commands (default_settings 1 1) []
    (mkImage 1 1 (fun _ _ => (10, 20, 30, 255)%Z) (fun _ _ => 255%Z))
    (0, 64, 0) 0 0
  = [ "setblock 0 66 60 minecraft:stone"%string ].
Proof.
  split; [reflexivity|]. split; [reflexivity|].
  unfold process_image_depthmap_and_get_commands.
  rewrite process_image_single, camera_frame_front.
  rewrite pixel_commands_opaque by lia.
  assert (HD : depth_map (default_settings 1 1)
                 (mkImage 1 1 (fun _ _ => (10, 20, 30, 255)%Z)
                          (fun _ _ => 255%Z)) 0 0 = 60).
  { unfold depth_map, Depth.depth, Depth.normalized. simpl. field. }
  rewrite HD.
  rewrite pixel_positions_near by (rewrite far_threshold_default; lra).
  assert (HB : block_pos (default_settings 1 1)
                 (mkFrame (eye_pos (0, 64, 0)) (0, 0, 1) (1, 0, 0) (0, 1, 0))
                 1 1 60 0 0 = (1 / 6, 65.62 + 1 / 6, 60)).
  { unfold block_pos, norm_offset_right, norm_offset_up, scale_factor,
      base_distance. simpl. unfold eye_height.
    vec_eq; lra. }
  rewrite HB. simpl. unfold setblock.
  round_down (1 / 6) 0%Z. round_up (65.62 + 1 / 6) 65%Z. round_down 60 60%Z.
  reflexivity.
Qed.

End PixelsFacts.

(* ------------------------------------------------------------------ *)
(** ** Parsing the player's position and rotation                      *)
(* ------------------------------------------------------------------ *)

Module ParseFacts.
Import Parse.
Open Scope string_scope.
Open Scope char_scope.

Lemma list_ascii_app (s t : string) :
  list_ascii_of_string (s ++ t)
  = (list_ascii_of_string s ++ list_ascii_of_string t)%list.
Proof. induction s as [|c s IH]; simpl; [reflexivity | now rewrite IH]. Qed.

(** [until_close] cuts at the first [']']. *)
Lemma until_close_some (s body post : string) :
  until_close s = Some (body, post) ->
  s = body ++ String "]" post /\ ~ In "]" (list_ascii_of_string body).
Proof.
  revert body post. induction s as [|c s IH]; intros body post H; simpl in H.
  - discriminate.
  - destruct (Ascii.eqb_spec c "]") as [-> | Hc].
    + injection H as <- <-. split; [reflexivity | intros []].
    + destruct (until_close s) as [[b p]|]; [|discriminate].
      injection H as <- <-. destruct (IH b p eq_refl) as [-> Hb].
      split; [reflexivity|]. simpl. intros [E | E]; [congruence | tauto].
Qed.

Lemma until_close_app (body post : string) :
  ~ In "]" (list_ascii_of_string body) ->
  until_close (body ++ String "]" post) = Some (body, post).
Proof.
  induction body as [|c body IH]; intros Hb; simpl.
  - reflexivity.
  - simpl in Hb. destruct (Ascii.eqb_spec c "]") as [-> | _]; [tauto|].
    rewrite IH by tauto. reflexivity.
Qed.

(** What [search_bracket] returns is a bracketed, non-empty, [']']-free run
    of the response. *)
Lemma search_bracket_some (s data : string) :
  search_bracket s = Some data ->
  exists pre post,
    s = pre ++ String "[" (data ++ String "]" post) /\
    data <> EmptyString /\
    ~ In "]" (list_ascii_of_string data).
Proof.
  induction s as [|c s IH]; intros H; simpl in H; [discriminate|].
  assert (Hrec : search_bracket s = Some data ->
                 exists pre post,
                   String c s = pre ++ String "[" (data ++ String "]" post) /\
                   data <> EmptyString /\
                   ~ In "]" (list_ascii_of_string data)).
  { intros H'. destruct (IH H') as (pre & post & -> & Hne & Hb).
    exists (String c pre), post. repeat split; assumption. }
  destruct (Ascii.eqb_spec c "[") as [-> | _]; [|auto].
  destruct (until_close s) as [[[|b body] post]|] eqn:Hu; auto.
  injection H as <-. apply until_close_some in Hu as [-> Hb].
  exists EmptyString, post. repeat split; [discriminate | exact Hb].
Qed.

(** Conversely a response that holds such a run is matched. *)
Lemma search_bracket_finds (pre body post : string) :
  body <> EmptyString ->
  ~ In "]" (list_ascii_of_string body) ->
  search_bracket (pre ++ String "[" (body ++ String "]" post)) <> None.
Proof.
  intros Hne Hb. induction pre as [|c pre IH]; simpl.
  - rewrite until_close_app by assumption.
    destruct body; [congruence | discriminate].
  - destruct (Ascii.eqb c "["); [|exact IH].
    destruct (until_close _) as [[[|b' body'] post']|]; try exact IH.
    discriminate.
Qed.

Lemma search_bracket_none_iff (s : string) :
  search_bracket s = None <-> ~ has_bracketed_list s.
Proof.
  split.
  - intros Hs (pre & body & post & -> & Hne & Hb).
    exact (search_bracket_finds pre body post Hne Hb Hs).
  - intros Hno. destruct (search_bracket s) as [data|] eqn:Hs; [|reflexivity].
    exfalso. apply Hno. apply search_bracket_some in Hs as (pre & post & ? & ? & ?).
    exists pre, data, post. auto.
Qed.

(** [split_comma] cuts at every comma and nowhere else. *)
Lemma split_comma_nonempty (s : string) : split_comma s <> [].
Proof. destruct s as [|c s]; simpl; [|destruct (Ascii.eqb c ",")]; discriminate. Qed.

Lemma split_comma_join (s : string) :
  String.concat "," (split_comma s) = s.
Proof.
  induction s as [|c s IH]; simpl; [reflexivity|].
  pose proof (split_comma_nonempty s) as Hne.
  destruct (Ascii.eqb_spec c ",") as [-> | _].
  - destruct (split_comma s) as [|p ps]; [congruence|].
    simpl in *. now rewrite IH.
  - destruct (split_comma s) as [|p [|p' ps]]; [congruence| |]; simpl in *;
      now rewrite <- IH.
Qed.

Lemma split_comma_no_comma (s : string) :
  Forall (fun p => ~ In "," (list_ascii_of_string p)) (split_comma s).
Proof.
  induction s as [|c s IH]; simpl.
  - constructor; [intros [] | constructor].
  - pose proof (split_comma_nonempty s) as Hne.
    destruct (Ascii.eqb_spec c ",") as [-> | Hc].
    + constructor; [intros [] | assumption].
    + destruct (split_comma s) as [|p ps]; [congruence|]. simpl.
      apply Forall_cons_iff in IH as [Hp Hps].
      constructor; [|assumption]. simpl. intros [E | E]; [congruence | tauto].
Qed.

(** The comprehension fails exactly when some token fails. *)
Lemma convert_all_none_iff {F : Type} (conv : string -> option F)
      (parts : list string) :
  convert_all conv parts = None <->
  exists tok, In tok parts /\ conv (strip_non_numeric tok) = None.
Proof.
  induction parts as [|p ps IH]; simpl.
  - split; [discriminate | intros (tok & [] & _)].
  - destruct (conv (strip_non_numeric p)) as [v|] eqn:Hp.
    + destruct (convert_all conv ps) as [vs|].
      * split; [discriminate|]. intros (tok & [<- | Hin] & Htok).
        -- congruence.
        -- assert (Some vs = None) by (apply IH; eauto). discriminate.
      * split; [|reflexivity]. intros _.
        destruct (proj1 IH eq_refl) as (tok & Hin & Htok). eauto.
    + split; [|reflexivity]. intros _. exists p. auto.
Qed.

(** When it succeeds, each value is the conversion of its stripped token. *)
Lemma convert_all_some {F : Type} (conv : string -> option F)
      (parts : list string) (vs : list F) :
  convert_all conv parts = Some vs ->
  Forall2 (fun tok v => conv (strip_non_numeric tok) = Some v) parts vs.
Proof.
  revert vs. induction parts as [|p ps IH]; intros vs H; simpl in H.
  - injection H as <-. constructor.
  - destruct (conv (strip_non_numeric p)) as [v|] eqn:Hp; [|discriminate].
    destruct (convert_all conv ps) as [vs'|]; [|discriminate].
    injection H as <-. constructor; auto.
Qed.

(** Stripping keeps exactly the characters of the numeric class, in order. *)
Lemma strip_non_numeric_filter (p : string) :
  list_ascii_of_string (strip_non_numeric p)
  = filter is_numeric_char (list_ascii_of_string p).
Proof.
  induction p as [|c p IH]; simpl; [reflexivity|].
  destruct (is_numeric_char c); simpl; now rewrite IH.
Qed.

(** The numeric class is: a digit, a point, a sign, an exponent marker. *)
Lemma is_numeric_char_spec (c : ascii) :
  is_numeric_char c = true <->
  (48 <= nat_of_ascii c <= 57)%nat \/
  c = "." \/ c = "-" \/ c = "+" \/ c = "e" \/ c = "E".
Proof.
  unfold is_numeric_char, is_digit.
  rewrite !orb_true_iff, andb_true_iff, !Nat.leb_le.
  rewrite !Ascii.eqb_eq. tauto.
Qed.

Example parse_docstring :
  parse_list_response float_of_string
    "Pos has the following properties: [123.0, 64.0, -12.0]"%string
  = Some [123.0%Q; 64.0%Q; (-12.0)%Q].
Proof. reflexivity. Qed.

Example parse_stray_characters :
  parse_list_response float_of_string "[12.5d, -3.25f, 1e2]"%string
  = Some [12.5%Q; (-3.25)%Q; 100%Q].
Proof. reflexivity. Qed.

Example parse_failures :
  parse_list_response float_of_string "no list here"%string = None /\
  parse_list_response float_of_string "empty [] brackets"%string = None /\
  parse_list_response float_of_string "[1.0, , 2.0]"%string = None /\
  parse_list_response float_of_string "[1.2.3]"%string = None.
Proof. repeat split; reflexivity. Qed.

(** The leftmost match: no bracketed run starts earlier. *)
Lemma search_bracket_leftmost (s data : string) :
  search_bracket s = Some data ->
  exists pre post,
    s = pre ++ String "[" (data ++ String "]" post) /\
    data <> EmptyString /\
    ~ In "]" (list_ascii_of_string data) /\
    forall pre' data' post',
      s = pre' ++ String "[" (data' ++ String "]" post') ->
      data' <> EmptyString ->
      ~ In "]" (list_ascii_of_string data') ->
      (String.length pre <= String.length pre')%nat.
Proof.
  induction s as [|c s IH]; intros H; simpl in H; [discriminate|].
  assert (Hrec :
    search_bracket s = Some data ->
    (forall data' post', c = "[" -> s = data' ++ String "]" post' ->
       data' <> EmptyString -> ~ In "]" (list_ascii_of_string data') ->
       False) ->
    exists pre post,
      String c s = pre ++ String "[" (data ++ String "]" post) /\
      data <> EmptyString /\
      ~ In "]" (list_ascii_of_string data) /\
      forall pre' data' post',
        String c s = pre' ++ String "[" (data' ++ String "]" post') ->
        data' <> EmptyString ->
        ~ In "]" (list_ascii_of_string data') ->
        (String.length (pre) <= String.length pre')%nat).
  { intros H' Hno. destruct (IH H') as (pre & post & -> & Hne & Hb & Hmin).
    exists (String c pre), post. repeat split; try assumption.
    intros [|c' pre'] data' post' E Hne' Hb'; simpl in E.
    - exfalso. injection E as -> E. exact (Hno data' post' eq_refl E Hne' Hb').
    - injection E as _ E. simpl. apply le_n_S. exact (Hmin pre' data' post' E Hne' Hb'). }
  destruct (Ascii.eqb_spec c "[") as [-> | Hc].
  - destruct (until_close s) as [[[|b body] post]|] eqn:Hu.
    + apply Hrec; [exact H|]. intros data' post' _ -> Hne' Hb'.
      rewrite until_close_app in Hu by assumption. injection Hu as -> _.
      congruence.
    + injection H as <-. apply until_close_some in Hu as [-> Hb].
      exists EmptyString, post. repeat split; [discriminate | exact Hb |].
      intros. simpl. lia.
    + apply Hrec; [exact H|]. intros data' post' _ -> Hne' Hb'.
      rewrite until_close_app in Hu by assumption. discriminate.
  - apply Hrec; [exact H|]. intros; congruence.
Qed.

Lemma search_bracket_leftmost_finds (pre data post : string) :
  data <> EmptyString ->
  ~ In "]" (list_ascii_of_string data) ->
  (forall pre' data' post',
     pre ++ String "[" (data ++ String "]" post)
     = pre' ++ String "[" (data' ++ String "]" post') ->
     data' <> EmptyString ->
     ~ In "]" (list_ascii_of_string data') ->
     (String.length pre <= String.length pre')%nat) ->
  search_bracket (pre ++ String "[" (data ++ String "]" post)) = Some data.
Proof.
  intros Hne Hb. induction pre as [|c pre IH]; intros Hmin; simpl.
  - rewrite until_close_app by assumption.
    destruct data; [congruence | reflexivity].
  - assert (Htail : search_bracket (pre ++ String "[" (data ++ String "]" post))
                    = Some data).
    { apply IH. intros pre' data' post' E Hne' Hb'.
      apply le_S_n. apply (Hmin (String c pre') data' post'); [|assumption..].
      simpl. now rewrite E. }
    destruct (Ascii.eqb_spec c "[") as [-> | _]; [|exact Htail].
    destruct (until_close _) as [[[|b body] post1]|] eqn:Hu; try exact Htail.
    exfalso. apply until_close_some in Hu as [E Hb1].
    assert (Hle := Hmin EmptyString (String b body) post1).
    simpl in Hle. rewrite E in Hle.
    specialize (Hle eq_refl). 
    assert (S (String.length pre) <= 0)%nat by (apply Hle; [discriminate | exact Hb1]).
    lia.
Qed.

(** [split_comma] is the only way to cut a text at its commas. *)
Lemma split_comma_single (p : string) :
  ~ In "," (list_ascii_of_string p) -> split_comma p = [p].
Proof.
  induction p as [|c p IH]; intros Hp; simpl; [reflexivity|].
  simpl in Hp. destruct (Ascii.eqb_spec c ",") as [-> | _]; [tauto|].
  rewrite IH by tauto. reflexivity.
Qed.

Lemma split_comma_app (p rest : string) :
  ~ In "," (list_ascii_of_string p) ->
  split_comma (p ++ String "," rest) = p :: split_comma rest.
Proof.
  induction p as [|c p IH]; intros Hp; simpl.
  - reflexivity.
  - simpl in Hp. destruct (Ascii.eqb_spec c ",") as [-> | _]; [tauto|].
    rewrite IH by tauto. reflexivity.
Qed.

Lemma split_comma_concat (parts : list string) :
  parts <> [] ->
  Forall (fun p => ~ In "," (list_ascii_of_string p)) parts ->
  split_comma (String.concat "," parts) = parts.
Proof.
  induction parts as [|p ps IH]; intros Hne Hall; [congruence|].
  apply Forall_cons_iff in Hall as [Hp Hps].
  destruct ps as [|q ps].
  - simpl. now apply split_comma_single.
  - change (String.concat "," (p :: q :: ps))
      with (p ++ String "," (String.concat "," (q :: ps))).
    rewrite split_comma_app by exact Hp. f_equal.
    apply IH; [discriminate | exact Hps].
Qed.

Lemma is_numeric_char_listed (c : ascii) :
  is_numeric_char c
  = existsb (Ascii.eqb c)
      ["0"; "1"; "2"; "3"; "4"; "5"; "6"; "7"; "8"; "9";
       "."; "-"; "+"; "e"; "E"].
Proof.
  destruct c as [[] [] [] [] [] [] [] []]; reflexivity.
Qed.

Lemma strip_non_numeric_unique (tok t : string) :
  list_ascii_of_string t
  = filter (fun c => existsb (Ascii.eqb c)
              ["0"; "1"; "2"; "3"; "4"; "5"; "6"; "7"; "8"; "9";
               "."; "-"; "+"; "e"; "E"])
           (list_ascii_of_string tok) <->
  t = strip_non_numeric tok.
Proof.
  rewrite <- (filter_ext _ _ is_numeric_char_listed).
  rewrite <- strip_non_numeric_filter. split; [|now intros ->].
  intros H. rewrite <- (string_of_list_ascii_of_string t), H.
  apply string_of_list_ascii_of_string.
Qed.

Lemma convert_all_of_Forall2 {F : Type} (conv : string -> option F)
      (parts : list string) (vs : list F) :
  Forall2 (fun tok v => conv (strip_non_numeric tok) = Some v) parts vs ->
  convert_all conv parts = Some vs.
Proof.
  induction 1 as [|p v ps vs Hp _ IH]; simpl; [reflexivity|].
  now rewrite Hp, IH.
Qed.

(** C8.  [parse_list_response] returns [None] exactly when the response
    holds no bracketed list (a ['['], a non-empty run free of [']'], a
    [']']), or when some comma-separated token of the first such list fails
    the numeric conversion once every character other than a digit, a
    decimal point, a sign or an exponent marker has been stripped from it.
    Otherwise it returns the conversions of the stripped tokens, one per
    token and in order.  The tokens are the comma-free texts which, joined
    by commas, give the bracketed text back; a stripped token keeps exactly
    the characters [0]..[9], [.], [-], [+], [e], [E] of the token, in
    order, so stray characters next to a number are tolerated. *)
Theorem parse_list_response_none_iff {F : Type}
        (py_float : string -> option F) (s : string) :
  let bracketed := fun pre data post : string =>
    s = pre ++ String "[" (data ++ String "]" post) /\
    data <> EmptyString /\
    ~ In "]" (list_ascii_of_string data) in
  let first_list := fun data : string =>
    exists pre post,
      bracketed pre data post /\
      forall pre' data' post',
        bracketed pre' data' post' ->
        (String.length pre <= String.length pre')%nat in
  let tokens := fun (data : string) (parts : list string) =>
    String.concat "," parts = data /\
    parts <> [] /\
    Forall (fun p => ~ In "," (list_ascii_of_string p)) parts in
  let numeric := fun c : ascii =>
    existsb (Ascii.eqb c)
      ["0"; "1"; "2"; "3"; "4"; "5"; "6"; "7"; "8"; "9";
       "."; "-"; "+"; "e"; "E"] in
  let stripped := fun tok t : string =>
    list_ascii_of_string t = filter numeric (list_ascii_of_string tok) in
  (parse_list_response py_float s = None <->
   (forall pre data post, ~ bracketed pre data post) \/
   (exists data parts tok t,
      first_list data /\ tokens data parts /\ In tok parts /\
      stripped tok t /\ py_float t = None)) /\
  (forall vs,
     parse_list_response py_float s = Some vs <->
     exists data parts,
       first_list data /\ tokens data parts /\
       Forall2 (fun tok v => exists t, stripped tok t /\ py_float t = Some v)
               parts vs).
Proof.
  intros bracketed first_list tokens numeric stripped.
  assert (Hfirst : forall data,
             first_list data <-> search_bracket s = Some data).
  { intros data. split.
    - intros (pre & post & (-> & Hne & Hb) & Hmin).
      apply search_bracket_leftmost_finds; [assumption..|].
      intros pre' data' post' E Hne' Hb'.
      apply (Hmin pre' data' post'). repeat split; assumption.
    - intros H. apply search_bracket_leftmost in H
        as (pre & post & E & Hne & Hb & Hmin).
      exists pre, post. split; [repeat split; assumption|].
      intros pre' data' post' (E' & Hne' & Hb').
      exact (Hmin pre' data' post' E' Hne' Hb'). }
  assert (Htokens : forall data parts,
             tokens data parts <-> parts = split_comma data).
  { intros data parts. split.
    - intros (<- & Hne & Hall). symmetry. now apply split_comma_concat.
    - intros ->. split; [apply split_comma_join|].
      split; [apply split_comma_nonempty | apply split_comma_no_comma]. }
  assert (Hstrip : forall tok t, stripped tok t <-> t = strip_non_numeric tok)
    by (intros; apply strip_non_numeric_unique).
  unfold parse_list_response. split.
  - destruct (search_bracket s) as [data|] eqn:Hs.
    + rewrite convert_all_none_iff. split.
      * intros (tok & Hin & Htok). right.
        exists data, (split_comma data), tok, (strip_non_numeric tok).
        split; [now apply Hfirst|]. split; [now apply Htokens|].
        split; [exact Hin|]. split; [now apply Hstrip | exact Htok].
      * intros [Hno | (data' & parts & tok & t & Hd & Hp & Hin & Ht & Hf)].
        -- exfalso. apply search_bracket_some in Hs
             as (pre & post & E & Hne & Hb).
           apply (Hno pre data post). repeat split; assumption.
        -- apply Hfirst in Hd. assert (data' = data) by congruence.
           subst data'. apply Htokens in Hp. subst parts.
           apply Hstrip in Ht. subst t. eauto.
    + split; [|reflexivity]. intros _. left.
      intros pre data post (-> & Hne & Hb).
      exact (search_bracket_finds pre data post Hne Hb Hs).
  - intros vs. split.
    + intros H. destruct (search_bracket s) as [data|] eqn:Hs; [|discriminate].
      exists data, (split_comma data).
      split; [now apply Hfirst|]. split; [now apply Htokens|].
      apply convert_all_some in H.
      induction H as [|tok v ps vs' Hv _ IH]; constructor; [|exact IH].
      exists (strip_non_numeric tok). split; [now apply Hstrip | exact Hv].
    + intros (data & parts & Hd & Hp & Hall).
      apply Hfirst in Hd. rewrite Hd.
      apply Htokens in Hp. subst parts.
      apply convert_all_of_Forall2.
      induction Hall as [|tok v ps vs' (t & Ht & Hv) _ IH];
        constructor; [|exact IH].
      apply Hstrip in Ht. now subst t.
Qed.

End ParseFacts.

(* ------------------------------------------------------------------ *)
(** ** The dispatch                                                    *)
(* ------------------------------------------------------------------ *)

Module DispatchFacts.
Import Dispatch.
Open Scope nat_scope.

(** *** Futures *)

Lemma set_future_length (fs : list (option response)) (i : nat) (r : response) :
  length (set_future fs i r) = length fs.
Proof.
  revert i. induction fs as [|f fs IH]; intros [|i]; simpl; auto.
Qed.

Lemma set_future_same (fs : list (option response)) (i : nat) (r : response) :
  i < length fs -> nth_error (set_future fs i r) i = Some (Some r).
Proof.
  revert i. induction fs as [|f fs IH]; intros i H; simpl in H; [lia|].
  destruct i as [|i]; simpl; [reflexivity|]. apply IH. lia.
Qed.

Lemma set_future_other (fs : list (option response)) (i j : nat)
      (r : response) :
  j <> i -> nth_error (set_future fs i r) j = nth_error fs j.
Proof.
  revert i j. induction fs as [|f fs IH]; intros i j H.
  - destruct i; reflexivity.
  - destruct i as [|i], j as [|j]; simpl; try reflexivity.
    + congruence.
    + apply IH. congruence.
Qed.

Lemma collect_some (fs : list (option response)) (rs : list response) :
  collect fs = Some rs -> fs = map Some rs.
Proof.
  revert rs. induction fs as [|[r|] fs IH]; intros rs H; simpl in H.
  - injection H as <-. reflexivity.
  - destruct (collect fs) as [rs'|]; [|discriminate].
    injection H as <-. simpl. f_equal. now apply IH.
  - discriminate.
Qed.

Lemma collect_all_set (fs : list (option response)) :
  (forall i, i < length fs -> exists r, nth_error fs i = Some (Some r)) ->
  exists rs, collect fs = Some rs.
Proof.
  induction fs as [|f fs IH]; intros H; simpl.
  - eauto.
  - destruct (H 0) as (r & Hr); [simpl; lia|]. simpl in Hr.
    injection Hr as ->.
    destruct IH as (rs & ->); [|eauto].
    intros i Hi. apply (H (S i)). simpl. lia.
Qed.

(** *** Tasks *)

Lemma in_combine_seq {A : Type} (l : list A) (a i : nat) (x : A) :
  In (i, x) (combine (seq a (length l)) l) ->
  a <= i /\ nth_error l (i - a) = Some x.
Proof.
  revert a. induction l as [|y l IH]; intros a H; simpl in H; [contradiction|].
  destruct H as [[= <- <-] | H].
  - rewrite Nat.sub_diag. split; [lia | reflexivity].
  - apply IH in H as [Hle Hn]. split; [lia|].
    replace (i - a) with (S (i - S a)) by lia. exact Hn.
Qed.

Lemma map_fst_combine_seq {A : Type} (l : list A) (a : nat) :
  map fst (combine (seq a (length l)) l) = seq a (length l).
Proof.
  revert a. induction l as [|y l IH]; intros a; simpl; [reflexivity|].
  now rewrite IH.
Qed.

(** *** What holds of every state of a dispatch *)

Lemma uncalled_app (ws1 ws2 : list worker) :
  uncalled (ws1 ++ ws2) = uncalled ws1 ++ uncalled ws2.
Proof. unfold uncalled. apply flat_map_app. Qed.

Lemma worker_ok_log (commands : list command) (log log' : list call)
      (w : worker) :
  worker_ok commands log w -> worker_ok commands (log ++ log') w.
Proof.
  destruct w; simpl; auto; intros (c' & cmd & H); exists c', cmd;
    apply in_or_app; auto.
Qed.

Lemma dispatch_inv_init (queue : list conn) (commands : list command) :
  dispatch_inv commands (init_state queue commands).
Proof.
  constructor; simpl.
  - apply Forall_forall. intros [i cmd] H. apply in_combine_seq in H as [_ H].
    simpl. now rewrite Nat.sub_0_r in H.
  - constructor.
  - constructor.
  - apply repeat_length.
  - intros i r H. apply nth_error_In, repeat_spec in H. discriminate.
  - intros i Hi. left. unfold tasks. rewrite map_fst_combine_seq.
    apply in_seq. lia.
  - unfold tasks. rewrite map_fst_combine_seq, app_nil_r. apply seq_NoDup.
Qed.

Lemma call_index_lt (commands : list command) (log : list call) (k : call) :
  Forall (fun k => nth_error commands (call_index k) = Some (call_cmd k)) log ->
  In k log -> call_index k < length commands.
Proof.
  intros Hc Hin. rewrite Forall_forall in Hc. specialize (Hc k Hin).
  apply nth_error_Some. congruence.
Qed.

Lemma dispatch_inv_step (commands : list command) (max_workers : nat)
      (st st' : state) :
  dispatch_inv commands st -> step max_workers st st' ->
  dispatch_inv commands st'.
Proof.
  intros [Hw Hws Hc Hfl Hf Hcov Hon] Hstep.
  destruct Hstep as [q i cmd rest ws fs log Hlen
                    | c q wk ws1 i cmd ws2 fs log
                    | r q wk ws1 i cmd c ws2 fs log
                    | q wk ws1 i c r ws2 fs log
                    | q wk ws1 i r ws2 fs log]; simpl in *.
  - (* a thread takes the next task *)
    constructor; simpl; auto.
    + now apply Forall_inv_tail in Hw.
    + constructor; [|assumption]. now apply Forall_inv in Hw.
    + intros j Hj. destruct (Hcov j Hj) as [[<- | H] | [H | H]]; auto.
    + eapply Permutation_NoDup; [|exact Hon].
      apply (Permutation_middle (map fst rest)).
  - (* pool.get() *)
    constructor; simpl; auto.
    + apply Forall_app in Hws as [H1 H2]. apply Forall_app. split; [assumption|].
      constructor; [now apply Forall_inv in H2 | now apply Forall_inv_tail in H2].
    + intros j Hj. rewrite map_app in *. simpl in *. now apply Hcov.
    + rewrite uncalled_app in *. exact Hon.
  - (* conn.command(cmd) *)
    apply Forall_app in Hws as [H1 H2].
    pose proof (Forall_inv H2) as Hcmd. apply Forall_inv_tail in H2.
    simpl in Hcmd.
    constructor; simpl.
    + assumption.
    + apply Forall_app. split; [|constructor].
      * eapply Forall_impl; [|exact H1]. intros w. apply worker_ok_log.
      * simpl. exists c, cmd. apply in_or_app. right. now left.
      * eapply Forall_impl; [|exact H2]. intros w. apply worker_ok_log.
    + apply Forall_app. split; [assumption|]. constructor; [exact Hcmd|constructor].
    + assumption.
    + intros j r' H. destruct (Hf j r' H) as (c' & cmd' & Hin).
      exists c', cmd'. apply in_or_app. now left.
    + intros j Hj. rewrite map_app in *. simpl in *. now apply Hcov.
    + rewrite uncalled_app in *. simpl in *. rewrite map_app. simpl.
      eapply Permutation_NoDup; [|exact Hon].
      apply Permutation_app_head. rewrite <- !app_assoc.
      apply Permutation_app_head. simpl.
      rewrite app_assoc. apply Permutation_cons_append.
  - (* pool.put(conn) *)
    constructor; simpl; auto.
    + apply Forall_app in Hws as [H1 H2]. apply Forall_app. split; [assumption|].
      constructor; [exact (Forall_inv H2) | now apply Forall_inv_tail in H2].
    + intros j Hj. rewrite map_app in *. simpl in *. now apply Hcov.
    + rewrite uncalled_app in *. exact Hon.
  - (* the result reaches its future *)
    apply Forall_app in Hws as [H1 H2].
    pose proof (Forall_inv H2) as (c0 & cmd0 & Hcall). apply Forall_inv_tail in H2.
    assert (Hi : i < length fs).
    { rewrite Hfl. exact (call_index_lt commands log _ Hc Hcall). }
    constructor; simpl.
    + assumption.
    + apply Forall_app. now split.
    + assumption.
    + now rewrite set_future_length.
    + intros j r' H. destruct (Nat.eq_dec j i) as [-> | Hne].
      * rewrite set_future_same in H by assumption. injection H as <-.
        now exists c0, cmd0.
      * rewrite set_future_other in H by assumption. now apply Hf.
    + intros j Hj. destruct (Nat.eq_dec j i) as [-> | Hne].
      * right. right. exists r. now apply set_future_same.
      * rewrite set_future_other by assumption.
        destruct (Hcov j Hj) as [H | [H | H]]; auto.
        right. left. rewrite map_app in *. simpl in H.
        apply in_app_or in H as [H | [H | H]]; apply in_or_app; auto.
        congruence.
    + rewrite uncalled_app in *. exact Hon.
Qed.

Lemma dispatch_inv_steps (commands : list command) (max_workers : nat)
      (st st' : state) :
  dispatch_inv commands st -> steps max_workers st st' ->
  dispatch_inv commands st'.
Proof.
  intros Hinv Hsteps. induction Hsteps; eauto using dispatch_inv_step.
Qed.

(** *** Connections are conserved *)

Lemma checked_out_app (ws1 ws2 : list worker) :
  checked_out (ws1 ++ ws2) = checked_out ws1 + checked_out ws2.
Proof. unfold checked_out. now rewrite filter_app, length_app. Qed.

Lemma pool_inv_step (size max_workers : nat) (st st' : state) :
  pool_inv size st -> step max_workers st st' -> pool_inv size st'.
Proof.
  unfold pool_inv. intros H Hstep.
  destruct Hstep; simpl in *; rewrite ?checked_out_app in *;
    unfold checked_out in *; simpl in *; rewrite ?length_app; simpl; lia.
Qed.

Lemma connect_loop_length (connects : nat -> bool) (k n : nat)
      (queue queue' : list conn) :
  connect_loop connects k n queue = Returned queue' ->
  length queue' = length queue + n.
Proof.
  revert k queue. induction n as [|n IH]; intros k queue H; simpl in H.
  - injection H as <-. lia.
  - destruct (connects k); [|discriminate].
    apply IH in H. rewrite length_app in H. simpl in H. lia.
Qed.

Lemma connect_loop_all (connects : nat -> bool) (k n : nat)
      (queue : list conn) :
  (forall j, connects j = true) ->
  connect_loop connects k n queue = Returned (queue ++ seq k n).
Proof.
  intros Hall. revert k queue. induction n as [|n IH]; intros k queue; simpl.
  - now rewrite app_nil_r.
  - rewrite Hall, IH, <- app_assoc. reflexivity.
Qed.

(** *** Progress and termination *)

Lemma workers_waiting_or_not (ws : list worker) :
  Forall (fun w => holds_conn w = false /\ exists i cmd, w = Waiting i cmd) ws \/
  exists ws1 w ws2, ws = ws1 ++ w :: ws2 /\ forall i cmd, w <> Waiting i cmd.
Proof.
  induction ws as [|w ws IH]; [left; constructor|].
  destruct w as [i cmd | i cmd c | i c r | i r].
  - destruct IH as [IH | (ws1 & w & ws2 & -> & Hw)].
    + left. constructor; [split; [reflexivity|eauto] | assumption].
    + right. exists (Waiting i cmd :: ws1), w, ws2. split; [reflexivity|assumption].
  - right. exists [], (Holding i cmd c), ws. split; [reflexivity|discriminate].
  - right. exists [], (Replied i c r), ws. split; [reflexivity|discriminate].
  - right. exists [], (Returning i r), ws. split; [reflexivity|discriminate].
Qed.

Lemma checked_out_waiting (ws : list worker) :
  Forall (fun w => holds_conn w = false /\ exists i cmd, w = Waiting i cmd) ws ->
  checked_out ws = 0.
Proof.
  unfold checked_out. induction 1 as [|w ws [Hw _] _ IH]; simpl; [reflexivity|].
  now rewrite Hw.
Qed.

(** No deadlock: with as many connections as worker threads, a dispatch
    that is not finished can move. *)
Lemma step_progress (max_workers : nat) (st : state) :
  0 < max_workers -> pool_inv max_workers st -> ~ finished st ->
  exists st', step max_workers st st'.
Proof.
  intros Hpos Hpool Hnf. destruct st as [q wk ws fs log].
  unfold pool_inv, finished in *. simpl in *.
  destruct ws as [|w ws].
  - destruct wk as [|[i cmd] rest]; [tauto|].
    eexists. apply step_take. simpl. exact Hpos.
  - destruct (workers_waiting_or_not (w :: ws)) as [Hall | (ws1 & w' & ws2 & E & Hw')].
    + rewrite (checked_out_waiting _ Hall) in Hpool.
      destruct q as [|c q]; [simpl in Hpool; lia|].
      apply Forall_inv in Hall as [_ (i & cmd & ->)].
      eexists. apply (step_get max_workers c q wk [] i cmd ws fs log).
    + rewrite E. destruct w' as [i cmd | i cmd c | i c r | i r].
      * now destruct (Hw' i cmd).
      * eexists. apply (step_command max_workers EmptyString).
      * eexists. apply step_put.
      * eexists. apply step_return.
Qed.

(** Every move lowers the weight by one: no dispatch runs forever. *)
Lemma step_weight (max_workers : nat) (st st' : state) :
  step max_workers st st' -> weight st = S (weight st').
Proof.
  intros Hstep. unfold weight.
  destruct Hstep; simpl; rewrite ?map_app, ?list_sum_app; simpl; lia.
Qed.

Lemma steps_trans (max_workers : nat) (st1 st2 st3 : state) :
  steps max_workers st1 st2 -> steps max_workers st2 st3 ->
  steps max_workers st1 st3.
Proof.
  intros H12 H23. induction H12; [assumption|].
  eapply steps_step; eauto.
Qed.

Lemma finished_dec (st : state) : finished st \/ ~ finished st.
Proof.
  unfold finished. destruct (work st), (workers st); auto;
    right; intros [? ?]; discriminate.
Qed.

(** Every dispatch can be run to its end. *)
Lemma steps_to_finished (max_workers : nat) (st : state) :
  0 < max_workers -> pool_inv max_workers st ->
  exists st', steps max_workers st st' /\ finished st'.
Proof.
  intros Hpos. remember (weight st) as k eqn:Hk. revert st Hk.
  induction k as [k IH] using lt_wf_ind. intros st Hk Hpool.
  destruct (finished_dec st) as [Hfin | Hnf].
  - exists st. split; [apply steps_refl | assumption].
  - destruct (step_progress max_workers st Hpos Hpool Hnf) as (st1 & Hstep).
    pose proof (step_weight _ _ _ Hstep) as Hw.
    destruct (IH (weight st1)) with (st := st1) as (st' & Hsteps & Hfin).
    + lia.
    + reflexivity.
    + eapply pool_inv_step; eauto.
    + exists st'. split; [eapply steps_step; eauto | assumption].
Qed.

Lemma pool_inv_steps (size max_workers : nat) (st st' : state) :
  pool_inv size st -> steps max_workers st st' -> pool_inv size st'.
Proof.
  intros Hinv Hsteps. induction Hsteps; eauto using pool_inv_step.
Qed.

(** Never more connections checked out than the pool has. *)
Lemma checked_out_bounded (size : nat) (st : state) :
  pool_inv size st -> checked_out (workers st) <= size.
Proof. unfold pool_inv. lia. Qed.

(** The loop of [close_all] empties the queue, disconnecting what it held
    from the oldest on. *)
Lemma close_all_loop (queue disconnected : list conn) :
  close_all queue disconnected = (disconnected ++ queue, []).
Proof.
  revert disconnected. induction queue as [|c rest IH]; intros d; simpl.
  - now rewrite app_nil_r.
  - rewrite IH, <- app_assoc. reflexivity.
Qed.

(** At the end every connection is back in the queue, and [close_all]
    disconnects them all. *)
Lemma finished_pool_full (size : nat) (st : state) :
  pool_inv size st -> finished st ->
  length (fst (close_all (pool st) [])) = size.
Proof.
  unfold pool_inv, finished, checked_out. intros H [_ Hidle].
  rewrite close_all_loop. rewrite Hidle in H. simpl in *. lia.
Qed.

(** *** Each command is sent once *)

Lemma calls_of_absent (i : nat) (log : list call) :
  ~ In i (map call_index log) -> calls_of i log = [].
Proof.
  unfold calls_of. induction log as [|k log IH]; simpl; [reflexivity|].
  intros H. destruct (Nat.eqb_spec (call_index k) i) as [E | _]; [tauto|].
  apply IH. tauto.
Qed.

Lemma calls_of_unique (log : list call) (k : call) :
  NoDup (map call_index log) -> In k log ->
  calls_of (call_index k) log = [k].
Proof.
  induction log as [|a log IH]; simpl; [contradiction|].
  intros Hnd Hin. apply NoDup_cons_iff in Hnd as [Ha Hnd].
  destruct Hin as [-> | Hin].
  - unfold calls_of. simpl. rewrite Nat.eqb_refl. f_equal.
    now apply calls_of_absent.
  - unfold calls_of. simpl.
    destruct (Nat.eqb_spec (call_index a) (call_index k)) as [E | _].
    + exfalso. apply Ha. rewrite E. now apply in_map.
    + now apply IH.
Qed.

(** In a finished dispatch the future of every input position holds the
    reply to the one call made for that position. *)
Lemma finished_results (commands : list command) (st : state)
      (results : list response) :
  dispatch_inv commands st -> finished st ->
  collect (futures st) = Some results ->
  length results = length commands /\
  forall i cmd, nth_error commands i = Some cmd ->
    exists c r, calls_of i (calls st) = [mkCall i c cmd r] /\
                nth_error results i = Some r.
Proof.
  intros [Hw Hws Hc Hfl Hf Hcov Hon] [Hwork Hidle] Hcol.
  apply collect_some in Hcol. rewrite Hwork, Hidle in *. simpl in *.
  split; [rewrite <- Hfl, Hcol; symmetry; apply length_map|].
  intros i cmd Hi.
  assert (Hlt : i < length commands) by (apply nth_error_Some; congruence).
  destruct (Hcov i Hlt) as [[] | [[] | (r & Hr)]].
  destruct (Hf i r Hr) as (c & cmd' & Hin).
  rewrite Forall_forall in Hc. pose proof (Hc _ Hin) as Hcmd. simpl in Hcmd.
  assert (cmd' = cmd) by congruence. subst cmd'.
  exists c, r. split.
  - exact (calls_of_unique (calls st) (mkCall i c cmd r) Hon Hin).
  - rewrite Hcol, nth_error_map in Hr.
    destruct (nth_error results i); simpl in Hr; congruence.
Qed.

(** *** [send_commands] *)

(** C9, as first written, fails at the pool: creating the pool with size 0
    is not rejected.  The connection loop runs zero times and
    [RCONConnectionPool] returns normally, with an empty queue. *)
Lemma pool_size_zero_builds_empty_pool :
  RCONConnectionPool (fun _ => true) 0 = Returned [] /\
  ~ (exists e, RCONConnectionPool (fun _ => true) 0 = Raised e).
Proof.
  split; [reflexivity|]. intros (e & He). discriminate He.
Qed.

(** C9 (as the code has it).  With [pool_size = 0] the pool is built, empty,
    without any error; [send_commands] then ends in an error and in nothing
    else: the [ValueError] with which the executor refuses
    [max_workers = 0].  It is raised before any task is submitted, so no
    command reaches the service and no thread ever waits on the empty
    queue. *)
Theorem send_commands_pool_size_zero (connects : nat -> bool)
        (commands : list command) :
  RCONConnectionPool connects 0 = Returned [] /\
  send_commands connects commands 0
    (Raised (ValueError "max_workers must be greater than 0")) [] /\
  (forall o log, send_commands connects commands 0 o log ->
     o = Raised (ValueError "max_workers must be greater than 0") /\
     log = []).
Proof.
  split; [reflexivity|]. split.
  - eapply send_no_executor; reflexivity.
  - intros o log H.
    destruct H as [e He | queue e _ He | queue max_workers st results _ He _ _ _].
    + discriminate He.
    + injection He as <-. split; reflexivity.
    + discriminate He.
Qed.

(** A run of two commands on two connections in which the second command
    is answered first: the results still come back in input order. *)
Example send_commands_out_of_order :
  send_commands (fun _ => true) ["first"; "second"]%string 2
    (Returned ["reply to first"; "reply to second"]%string)
    [ mkCall 1 0 "second" "reply to second";
      mkCall 0 1 "first" "reply to first" ]%string.
Proof.
  set (r1 := "reply to first"%string). set (r2 := "reply to second"%string).
  set (c1 := "first"%string). set (c2 := "second"%string).
  apply (send_done (fun _ => true) [c1; c2] 2 [0; 1] 2
           (mkState [0; 1] [] [] [Some r1; Some r2]
                    [mkCall 1 0 c2 r2; mkCall 0 1 c1 r1]) [r1; r2]);
    try reflexivity; [|split; reflexivity].
  unfold init_state, tasks. simpl.
  eapply steps_step; [apply step_take; simpl; lia|].
  eapply steps_step; [apply step_take; simpl; lia|].
  eapply steps_step; [apply (step_get 2 0 [1] [] [] 1 c2 [Waiting 0 c1])|].
  eapply steps_step;
    [apply (step_get 2 1 [] [] [Holding 1 c2 0] 0 c1 [])|].
  eapply steps_step;
    [apply (step_command 2 r2 [] [] [] 1 c2 0 [Holding 0 c1 1])|].
  eapply steps_step;
    [apply (step_command 2 r1 [] [] [Replied 1 0 r2] 0 c1 1 [])|].
  eapply steps_step; [apply (step_put 2 [] [] [] 1 0 r2 [Replied 0 1 r1])|].
  eapply steps_step; [apply (step_put 2 [0] [] [Returning 1 r2] 0 1 r1 [])|].
  eapply steps_step;
    [apply (step_return 2 [0; 1] [] [] 1 r2 [Returning 0 r1])|].
  eapply steps_step; [apply (step_return 2 [0; 1] [] [] 0 r1 [])|].
  apply steps_refl.
Qed.

(** C10.  With a positive pool size and every connection established,
    [send_commands] returns (some interleaving runs to the end, none is
    stuck and none raises), and whatever the interleaving, the list it
    returns has one result per input command, the service was called exactly
    once for each input position [i], with the [i]-th command, and the
    [i]-th result is the reply to that call. *)
Theorem send_commands_results_in_order (connects : nat -> bool)
        (commands : list command) (pool_size : Z) :
  (0 < pool_size)%Z ->
  (forall k, connects k = true) ->
  (exists results log,
     send_commands connects commands pool_size (Returned results) log) /\
  (forall o log, send_commands connects commands pool_size o log ->
     exists results,
       o = Returned results /\
       length results = length commands /\
       forall i cmd, nth_error commands i = Some cmd ->
         exists c r, calls_of i log = [mkCall i c cmd r] /\
                     nth_error results i = Some r).
Proof.
  intros Hpos Hconn.
  assert (Hpool : RCONConnectionPool connects pool_size
                  = Returned (seq 0 (Z.to_nat pool_size))).
  { unfold RCONConnectionPool. now rewrite connect_loop_all. }
  assert (Hexec : ThreadPoolExecutor pool_size = Returned (Z.to_nat pool_size)).
  { unfold ThreadPoolExecutor.
    destruct (Z.leb_spec pool_size 0); [lia | reflexivity]. }
  split.
  - destruct (steps_to_finished (Z.to_nat pool_size)
                (init_state (seq 0 (Z.to_nat pool_size)) commands))
      as (st & Hsteps & Hfin).
    + lia.
    + unfold pool_inv. simpl. rewrite length_seq. unfold checked_out. simpl. lia.
    + pose proof (dispatch_inv_steps commands _ _ _
                    (dispatch_inv_init _ commands) Hsteps) as Hinv.
      destruct (collect_all_set (futures st)) as (results & Hcol).
      { intros i Hi. rewrite (inv_futures_length _ _ Hinv) in Hi.
        destruct Hfin as [Hwork Hidle].
        destruct (inv_cover _ _ Hinv i Hi) as [H | [H | H]].
        - rewrite Hwork in H. destruct H.
        - rewrite Hidle in H. destruct H.
        - exact H. }
      exists results, (calls st). eapply send_done; eauto.
  - intros o log H.
    destruct H as [e He | queue e _ He
                  | queue max_workers st results _ _ Hsteps Hfin Hcol].
    + rewrite Hpool in He. discriminate He.
    + rewrite Hexec in He. discriminate He.
    + exists results. split; [reflexivity|].
      apply finished_results; [|assumption|assumption].
      eapply dispatch_inv_steps; [apply dispatch_inv_init | exact Hsteps].
Qed.

Lemma send_commands_results_in_order_witness :
  let commands := ["setblock 0 66 100 minecraft:stone";
                   "setblock 1 66 100 minecraft:dirt"]%string in
  (0 < 2)%Z /\ (forall k : nat, (fun _ : nat => true) k = true) /\
  (exists results log,
     send_commands (fun _ => true) commands 2 (Returned results) log) /\
  (forall o log, send_commands (fun _ => true) commands 2 o log ->
     exists results,
       o = Returned results /\
       length results = length commands /\
       forall i cmd, nth_error commands i = Some cmd ->
         exists c r, calls_of i log = [mkCall i c cmd r] /\
                     nth_error results i = Some r).
Proof.
  intros commands. split; [lia|]. split; [reflexivity|].
  apply (send_commands_results_in_order (fun _ => true) commands 2).
  - lia.
  - reflexivity.
Defined.

End DispatchFacts.

(* ------------------------------------------------------------------ *)
(** ** More on vectors and the camera                                  *)
(* ------------------------------------------------------------------ *)

Module FrameFacts.
Import Vec Camera VecFacts CameraFacts.
Open Scope R_scope.

Lemma norm_zero_iff (u : vec3) : norm u = 0 <-> dot u u = 0.
Proof.
  unfold norm. split; intros H.
  - apply sqrt_eq_0; [apply dot_self_nonneg | exact H].
  - rewrite H. apply sqrt_0.
Qed.

Lemma vscale_vscale (a b : R) (u : vec3) :
  vscale a (vscale b u) = vscale (a * b) u.
Proof. destruct u as [[x y] z]. simpl. vec_eq; ring. Qed.

Lemma vscale_one (u : vec3) : vscale 1 u = u.
Proof. destruct u as [[x y] z]. simpl. vec_eq; ring. Qed.

(** X1.  [normalize] never divides by zero: a vector of norm zero is sent
    to [(0, 0, 0)]; any other vector is sent to the unit vector of the same
    direction (scaling the result by the norm gives the vector back). *)
Theorem normalize_zero_or_unit (u : vec3) :
  (norm u = 0 -> normalize u = (0, 0, 0)) /\
  (norm u <> 0 ->
   norm (normalize u) = 1 /\ vscale (norm u) (normalize u) = u).
Proof.
  split.
  - intros H. unfold normalize.
    destruct (Req_dec_T (norm u) 0) as [_ | Hn]; [reflexivity | contradiction].
  - intros Hn.
    assert (Hpos : 0 < dot u u).
    { destruct (dot_self_nonneg u) as [Hlt | Heq]; [exact Hlt|].
      exfalso. apply Hn. apply norm_zero_iff. now symmetry. }
    split.
    + apply norm_unit, dot_normalize_self, Hpos.
    + rewrite normalize_scale by exact Hpos. rewrite vscale_vscale.
      replace (norm u * / norm u) with 1 by (field; exact Hn).
      apply vscale_one.
Qed.

Lemma normalize_zero_or_unit_witness :
  norm (3, 0, 4) <> 0 /\
  norm (normalize (3, 0, 4)) = 1 /\
  vscale (norm (3, 0, 4)) (normalize (3, 0, 4)) = (3, 0, 4).
Proof.
  assert (H : norm (3, 0, 4) <> 0).
  { intros H. apply norm_zero_iff in H. simpl in H. lra. }
  split; [exact H|].
  exact (proj2 (normalize_zero_or_unit (3, 0, 4)) H).
Defined.

(** X2.  [cross u v] is orthogonal to [u] and to [v], changes sign when its
    arguments are swapped, and its squared length is
    [|u|^2 |v|^2 - (u . v)^2]. *)
Theorem cross_orthogonal_antisymmetric (u v : vec3) :
  dot (cross u v) u = 0 /\
  dot (cross u v) v = 0 /\
  cross v u = vscale (-1) (cross u v) /\
  dot (cross u v) (cross u v) = dot u u * dot v v - dot u v * dot u v.
Proof.
  split; [apply dot_cross_l|]. split; [apply dot_cross_r|].
  split; [|apply dot_cross_cross].
  destruct u as [[a b] c], v as [[x y] z]. simpl. vec_eq; ring.
Qed.

(** The triple product expansion, for [a x (b x a)]. *)
Lemma cross_cross_same (a b : vec3) :
  cross a (cross b a) = vsub (vscale (dot a a) b) (vscale (dot a b) a).
Proof. destruct a as [[a0 a1] a2], b as [[b0 b1] b2]. simpl. vec_eq; ring. Qed.

Lemma cross_cross_left (a b : vec3) :
  cross (cross a b) a = vsub (vscale (dot a a) b) (vscale (dot a b) a).
Proof. destruct a as [[a0 a1] a2], b as [[b0 b1] b2]. simpl. vec_eq; ring. Qed.

Lemma vsub_zero_scale (u v : vec3) : vsub (vscale 1 u) (vscale 0 v) = u.
Proof.
  destruct u as [[a b] c], v as [[x y] z]. simpl. vec_eq; ring.
Qed.

Lemma true_up_is_cross (l : vec3) :
  dot l l = 1 -> true_up_vector l = cross l (right_vector l).
Proof.
  intros Hl. unfold true_up_vector.
  apply normalize_unit, cross_look_right_unit, Hl.
Qed.

(** X3.  For every yaw and pitch the basis is right-handed in the order
    (look, right, true_up): each vector is the cross product of the other
    two, taken cyclically.  In particular the second normalisation leaves
    [cross look right] unchanged. *)
Theorem camera_frame_right_handed (pos : vec3) (yaw pitch : R) :
  let F := camera_frame pos yaw pitch in
  true_up F = cross (look F) (right F) /\
  look F = cross (right F) (true_up F) /\
  right F = cross (true_up F) (look F).
Proof.
  simpl. pose proof (look_vector_unit yaw pitch) as Hl.
  set (l := look_vector yaw pitch) in *.
  pose proof (right_vector_unit l Hl) as Hr.
  pose proof (right_vector_orth_look l Hl) as Hrl.
  rewrite (true_up_is_cross l Hl). split; [reflexivity|]. split.
  - rewrite cross_cross_same, Hr, Hrl. symmetry. apply vsub_zero_scale.
  - rewrite cross_cross_left, Hl, (dot_comm l), Hrl.
    symmetry. apply vsub_zero_scale.
Qed.

(** X4.  While the default reference (0,1,0) is in use, that is while
    [|sin pitch| <= 0.99], the camera has no roll: [right] is horizontal and
    [true_up] points upward (its y component is positive). *)
Theorem camera_frame_no_roll (pos : vec3) (yaw pitch : R) :
  Rabs (sin (radians pitch)) <= 0.99 ->
  let F := camera_frame pos yaw pitch in
  approximate_up (look F) = (0, 1, 0) /\
  snd (fst (right F)) = 0 /\
  0 < snd (fst (true_up F)).
Proof.
  intros Hp. simpl.
  pose proof (look_vector_unit yaw pitch) as Hl.
  assert (Hup : approximate_up (look_vector yaw pitch) = (0, 1, 0)).
  { unfold approximate_up, look_vector. simpl.
    match goal with
    | |- context [Rgt_dec ?a ?b] => destruct (Rgt_dec a b) as [H | H]
    end; [|reflexivity].
    exfalso.
    replace (- sin (radians yaw) * cos (radians pitch) * 0
             + - sin (radians pitch) * 1
             + cos (radians yaw) * cos (radians pitch) * 0)
      with (- sin (radians pitch)) in H by ring.
    rewrite Rabs_Ropp in H. lra. }
  split; [exact Hup|].
  rewrite (true_up_is_cross _ Hl).
  pose proof (cross_up_look_nonzero _ Hl) as Hc.
  unfold right_vector. rewrite Hup in *.
  rewrite (normalize_scale _ Hc).
  pose proof (norm_pos _ Hc) as Hn. apply Rinv_0_lt_compat in Hn.
  set (k := / norm (cross (0, 1, 0) (look_vector yaw pitch))) in *.
  clearbody k.
  destruct (look_vector yaw pitch) as [[dx dy] dz]. simpl in *.
  split; [ring | nra].
Qed.

Lemma camera_frame_no_roll_witness :
  Rabs (sin (radians 0)) <= 0.99 /\
  approximate_up (look (camera_frame (0, 64, 0) 30 0)) = (0, 1, 0) /\
  snd (fst (right (camera_frame (0, 64, 0) 30 0))) = 0 /\
  0 < snd (fst (true_up (camera_frame (0, 64, 0) 30 0))).
Proof.
  assert (H : Rabs (sin (radians 0)) <= 0.99).
  { unfold radians. replace (0 * (PI / 180)) with 0 by ring.
    rewrite sin_0, Rabs_R0. lra. }
  split; [exact H|].
  exact (camera_frame_no_roll (0, 64, 0) 30 0 H).
Defined.

End FrameFacts.

(* ------------------------------------------------------------------ *)
(** ** More on the projection and the emission                         *)
(* ------------------------------------------------------------------ *)

Module ProjectionFacts.
Import Vec Camera Pixels VecFacts CameraFacts PixelsFacts.
Open Scope R_scope.

(** X5.  Seen from the eye, a pixel keeps its direction whatever its depth:
    the offset of [block_pos] from the eye is the depth times a vector that
    depends on the row and the column only.  Two depths of one pixel lie on
    one ray through the eye; this holds in any frame (for a pixel of the
    image and a [max_distance] other than zero, as the divisions need). *)
Theorem block_pos_on_ray (s : settings) (F : frame) (w h : nat)
        (distance : R) (row col : nat) :
  max_distance s <> 0 -> (row < h)%nat -> (col < w)%nat ->
  vsub (block_pos s F w h distance row col) (eye F)
  = vscale distance (pixel_ray s F w h row col).
Proof.
  intros _ _ _.
  unfold block_pos, pixel_ray, norm_offset_right, norm_offset_up,
    scale_factor.
  destruct F as [[[e0 e1] e2] [[l0 l1] l2] [[r0 r1] r2] [[t0 t1] t2]].
  simpl. unfold Rdiv. vec_eq; ring.
Qed.

Lemma block_pos_on_ray_witness :
  let s := default_settings 4 4 in
  let F := camera_frame (0, 64, 0) 30 10 in
  max_distance s <> 0 /\ (1 < 4)%nat /\ (2 < 4)%nat /\
  vsub (block_pos s F 4 4 75 1 2) (eye F)
  = vscale 75 (pixel_ray s F 4 4 1 2).
Proof.
  intros s F.
  assert (H : max_distance s <> 0) by (simpl; lra).
  split; [exact H|]. split; [lia|]. split; [lia|].
  apply (block_pos_on_ray s F 4 4 75 1 2 H); lia.
Defined.

Lemma block_pos_up_component (s : settings) (F : frame) (w h : nat)
      (distance : R) (row col : nat) :
  dot (look F) (true_up F) = 0 ->
  dot (right F) (true_up F) = 0 ->
  dot (true_up F) (true_up F) = 1 ->
  dot (vsub (block_pos s F w h distance row col) (eye F)) (true_up F)
  = norm_offset_up s h distance row.
Proof.
  intros Hlu Hru Huu. unfold block_pos.
  destruct F as [[[e0 e1] e2] [[l0 l1] l2] [[r0 r1] r2] [[t0 t1] t2]].
  simpl in *.
  set (a := norm_offset_right s w distance col).
  set (b := norm_offset_up s h distance row).
  replace ((e0 + l0 * distance + r0 * a + t0 * b - e0) * t0 +
           (e1 + l1 * distance + r1 * a + t1 * b - e1) * t1 +
           (e2 + l2 * distance + r2 * a + t2 * b - e2) * t2)
    with (distance * (l0 * t0 + l1 * t1 + l2 * t2)
          + a * (r0 * t0 + r1 * t1 + r2 * t2)
          + b * (t0 * t0 + t1 * t1 + t2 * t2)) by ring.
  rewrite Hlu, Hru, Huu. ring.
Qed.

Lemma block_pos_look_component (s : settings) (F : frame) (w h : nat)
      (distance : R) (row col : nat) :
  dot (look F) (look F) = 1 ->
  dot (right F) (look F) = 0 ->
  dot (true_up F) (look F) = 0 ->
  dot (vsub (block_pos s F w h distance row col) (eye F)) (look F)
  = distance.
Proof.
  intros Hll Hrl Hul. unfold block_pos.
  destruct F as [[[e0 e1] e2] [[l0 l1] l2] [[r0 r1] r2] [[t0 t1] t2]].
  simpl in *.
  set (a := norm_offset_right s w distance col).
  set (b := norm_offset_up s h distance row).
  replace ((e0 + l0 * distance + r0 * a + t0 * b - e0) * l0 +
           (e1 + l1 * distance + r1 * a + t1 * b - e1) * l1 +
           (e2 + l2 * distance + r2 * a + t2 * b - e2) * l2)
    with (distance * (l0 * l0 + l1 * l1 + l2 * l2)
          + a * (r0 * l0 + r1 * l1 + r2 * l2)
          + b * (t0 * l0 + t1 * l1 + t2 * l2)) by ring.
  rewrite Hll, Hrl, Hul. ring.
Qed.

(** X6.  For every yaw and pitch, the offset of a pixel's position from the
    eye has the coordinates (depth, lateral offset, vertical offset) in the
    basis (look, right, true_up): the pixel sits in the plane perpendicular
    to the view axis at exactly its depth. *)
Theorem block_pos_coordinates (s : settings) (pos : vec3) (yaw pitch : R)
        (w h : nat) (distance : R) (row col : nat) :
  max_distance s <> 0 -> (row < h)%nat -> (col < w)%nat ->
  let F := camera_frame pos yaw pitch in
  let d := vsub (block_pos s F w h distance row col) (eye F) in
  dot d (look F) = distance /\
  dot d (right F) = norm_offset_right s w distance col /\
  dot d (true_up F) = norm_offset_up s h distance row.
Proof.
  intros _ _ _ F d. unfold d.
  pose proof (look_vector_unit yaw pitch) as Hl.
  pose proof (right_vector_unit _ Hl) as Hr.
  pose proof (true_up_vector_unit _ Hl) as Hu.
  pose proof (right_vector_orth_look _ Hl) as Hrl.
  pose proof (true_up_vector_orth_look _ Hl) as Hul.
  pose proof (true_up_vector_orth_right _ Hl) as Hur.
  split; [|split].
  - apply block_pos_look_component; assumption.
  - apply block_pos_right_component; try assumption.
    rewrite dot_comm. exact Hrl.
  - apply block_pos_up_component; try assumption.
    + rewrite dot_comm. exact Hul.
    + rewrite dot_comm. exact Hur.
Qed.

Lemma block_pos_coordinates_witness :
  let s := default_settings 4 4 in
  let F := camera_frame (0, 64, 0) 30 10 in
  let d := vsub (block_pos s F 4 4 75 1 2) (eye F) in
  max_distance s <> 0 /\ (1 < 4)%nat /\ (2 < 4)%nat /\
  dot d (look F) = 75 /\
  dot d (right F) = norm_offset_right s 4 75 2 /\
  dot d (true_up F) = norm_offset_up s 4 75 1.
Proof.
  intros s F d.
  assert (H : max_distance s <> 0) by (simpl; lra).
  split; [exact H|]. split; [lia|]. split; [lia|].
  apply (block_pos_coordinates s (0, 64, 0) 30 10 4 4 75 1 2 H); lia.
Defined.

Lemma up_component_of_frame (s : settings) (pos : vec3) (yaw pitch : R)
      (w h : nat) (distance : R) (row col : nat) :
  let F := camera_frame pos yaw pitch in
  dot (vsub (block_pos s F w h distance row col) (eye F)) (true_up F)
  = norm_offset_up s h distance row.
Proof.
  intros F.
  pose proof (look_vector_unit yaw pitch) as Hl.
  apply block_pos_up_component.
  - rewrite dot_comm. apply true_up_vector_orth_look, Hl.
  - rewrite dot_comm. apply true_up_vector_orth_right, Hl.
  - apply true_up_vector_unit, Hl.
Qed.

Lemma norm_offset_up_sign (s : settings) (h : nat) (distance : R)
      (row : nat) :
  (0 < h)%nat -> (0 < output_height s)%nat ->
  0 < max_distance s -> 0 < distance ->
  (INR row < INR h / 2 -> 0 < norm_offset_up s h distance row) /\
  (INR h / 2 < INR row -> norm_offset_up s h distance row < 0).
Proof.
  intros Hh Hoh Hm Hd.
  pose proof (scale_factor_pos s distance Hm Hd) as Hsf.
  apply lt_0_INR in Hh, Hoh. unfold norm_offset_up.
  set (H := INR h) in *. set (O := INR (output_height s)) in *.
  set (k := scale_factor s distance) in *.
  assert (Hok : 0 < O / 2 * k) by (apply Rmult_lt_0_compat; lra).
  set (x := (H / 2 - INR row) / (H / 2)).
  replace (x * (O / 2) * k) with (x * (O / 2 * k)) by ring.
  split; intros Hc.
  - assert (0 < x) by (unfold x; apply Rdiv_lt_0_compat; lra).
    nra.
  - assert (x < 0).
    { assert (0 < (INR row - H / 2) / (H / 2))
        by (apply Rdiv_lt_0_compat; lra).
      replace x with (- ((INR row - H / 2) / (H / 2)))
        by (unfold x; field; lra).
      lra. }
    nra.
Qed.

(** X7.  Rows keep their orientation, unlike columns: for every yaw and
    pitch, with positive depth, [max_distance] and output height, a row above
    the image centre ([row < height/2]) is placed on the positive side of
    [true_up], a row below it on the negative side. *)
Theorem vertical_offset_sign (s : settings) (pos : vec3) (yaw pitch : R)
        (w h : nat) (distance : R) (row col : nat) :
  (row < h)%nat -> (0 < output_height s)%nat ->
  0 < max_distance s -> 0 < distance ->
  let F := camera_frame pos yaw pitch in
  (INR row < INR h / 2 ->
   0 < dot (vsub (block_pos s F w h distance row col) (eye F)) (true_up F)) /\
  (INR h / 2 < INR row ->
   dot (vsub (block_pos s F w h distance row col) (eye F)) (true_up F) < 0).
Proof.
  intros Hrow Hoh Hm Hd F.
  unfold F. rewrite up_component_of_frame.
  apply norm_offset_up_sign; try assumption. lia.
Qed.

Lemma vertical_offset_sign_witness :
  let s := default_settings 4 4 in
  let F := camera_frame (0, 64, 0) 45 10 in
  ((0 < 4)%nat /\ (0 < output_height s)%nat) /\
  (0 < max_distance s /\ 0 < 100) /\
  INR 0 < INR 4 / 2 /\
  0 < dot (vsub (block_pos s F 4 4 100 0 0) (eye F)) (true_up F).
Proof.
  intros s F.
  assert (Hrow : INR 0 < INR 4 / 2) by (simpl; lra).
  split; [split; simpl; lia|]. split; [split; simpl; lra|].
  split; [exact Hrow|].
  apply (vertical_offset_sign s (0, 64, 0) 45 10 4 4 100 0 0).
  - lia.
  - simpl. lia.
  - simpl. lra.
  - lra.
  - exact Hrow.
Defined.

(** X8.  Neighbouring pixels at one depth: stepping one column moves the
    position by [(output_width / width) * scale_factor] against [right], and
    stepping one row by [(output_height / height) * scale_factor] against
    [true_up], in any frame. *)
Theorem block_pos_neighbours (s : settings) (F : frame) (w h : nat)
        (distance : R) (row col : nat) :
  max_distance s <> 0 -> (0 < w)%nat -> (0 < h)%nat ->
  vsub (block_pos s F w h distance row (S col))
       (block_pos s F w h distance row col)
  = vscale (- (INR (output_width s) / INR w * scale_factor s distance))
           (right F) /\
  vsub (block_pos s F w h distance (S row) col)
       (block_pos s F w h distance row col)
  = vscale (- (INR (output_height s) / INR h * scale_factor s distance))
           (true_up F).
Proof.
  intros _ Hw Hh. apply lt_0_INR in Hw, Hh.
  unfold block_pos, norm_offset_right, norm_offset_up.
  rewrite !S_INR.
  destruct F as [[[e0 e1] e2] [[l0 l1] l2] [[r0 r1] r2] [[t0 t1] t2]].
  simpl. split; vec_eq; field; lra.
Qed.

Lemma block_pos_neighbours_witness :
  let s := default_settings 4 2 in
  let F := camera_frame (0, 64, 0) 0 0 in
  max_distance s <> 0 /\ ((0 < 4)%nat /\ (0 < 2)%nat) /\
  vsub (block_pos s F 4 2 90 0 1) (block_pos s F 4 2 90 0 0)
  = vscale (- (INR (output_width s) / INR 4 * scale_factor s 90)) (right F) /\
  vsub (block_pos s F 4 2 90 1 0) (block_pos s F 4 2 90 0 0)
  = vscale (- (INR (output_height s) / INR 2 * scale_factor s 90))
           (true_up F).
Proof.
  intros s F.
  assert (H : max_distance s <> 0) by (simpl; lra).
  split; [exact H|]. split; [split; lia|].
  apply (block_pos_neighbours s F 4 2 90 0 0 H); lia.
Defined.

End ProjectionFacts.

(* ------------------------------------------------------------------ *)
(** ** More on rounding, the commands of an image and the palette      *)
(* ------------------------------------------------------------------ *)

Module EmissionFacts.
Import Vec Camera Pixels Palette PaletteFacts PixelsFacts.
Open Scope R_scope.

(** X9.  [round] takes the nearest integer: the block coordinate written
    is within half a block of the projected coordinate, and an integer
    strictly nearer than one half is the one returned. *)
Theorem py_round_nearest (x : R) :
  Rabs (IZR (py_round x) - x) <= 1 / 2 /\
  (forall z, Rabs (IZR z - x) < 1 / 2 -> py_round x = z).
Proof.
  split.
  - destruct (base_Int_part x) as [Hlo Hhi]. unfold py_round.
    set (f := Int_part x) in *.
    destruct (Rlt_dec (x - IZR f) (1 / 2)) as [H1 | H1].
    + apply Rabs_le. lra.
    + destruct (Rlt_dec (1 / 2) (x - IZR f)) as [H2 | H2].
      * rewrite plus_IZR. apply Rabs_le. lra.
      * destruct (Z.even f); [|rewrite plus_IZR]; apply Rabs_le; lra.
  - intros z Hz. apply Rabs_def2 in Hz as [Hz1 Hz2].
    destruct (Rle_lt_dec (IZR z) x) as [Hle | Hgt].
    + replace x with (IZR z + (x - IZR z)) by ring.
      apply py_round_below. lra.
    + replace x with (IZR (z - 1) + (x - IZR (z - 1))) by ring.
      rewrite py_round_above; [lia|]. rewrite minus_IZR. lra.
Qed.

Lemma py_round_nearest_witness :
  Rabs (IZR 66 - 65.62) < 1 / 2 /\ py_round 65.62 = 66%Z.
Proof.
  assert (H : Rabs (IZR 66 - 65.62) < 1 / 2).
  { apply Rabs_def1; lra. }
  split; [exact H|].
  exact (proj2 (py_round_nearest 65.62) 66%Z H).
Defined.

(** *** Counting *)

Lemma pixel_commands_length (s : settings) (m : block_rgb_map) (F : frame)
      (w h : nat) (pixel : rgba) (distance : R) (row col : nat) :
  length (pixel_commands s m F w h pixel distance row col)
  = pixel_count s pixel distance.
Proof.
  destruct pixel as [[[r g] b] a]. unfold pixel_commands, pixel_count.
  destruct (a <? 128)%Z; [reflexivity|].
  rewrite length_map. unfold pixel_positions.
  destruct (Rge_dec distance (far_threshold s)); [|reflexivity].
  destruct (right F) as [[? ?] ?]. destruct (true_up F) as [[? ?] ?].
  destruct (block_pos s F w h distance row col) as [[? ?] ?]. reflexivity.
Qed.

Lemma pixel_count_le (s : settings) (pixel : rgba) (distance : R) :
  (pixel_count s pixel distance <= 4)%nat.
Proof.
  destruct pixel as [[[r g] b] a]. unfold pixel_count.
  destruct (a <? 128)%Z; [lia|].
  destruct (Rge_dec distance (far_threshold s)); lia.
Qed.

Lemma list_sum_le (A : Type) (f : A -> nat) (k : nat) (l : list A) :
  (forall x, In x l -> (f x <= k)%nat) ->
  (list_sum (map f l) <= length l * k)%nat.
Proof.
  induction l as [|x l IH]; intros H; simpl; [lia|].
  specialize (H x (or_introl eq_refl)) as Hx.
  assert (list_sum (map f l) <= length l * k)%nat
    by (apply IH; intros y Hy; apply H; now right).
  lia.
Qed.

Lemma process_image_length_sum (s : settings) (m : block_rgb_map)
      (F : frame) (im : image) :
  length (process_image s m F im)
  = list_sum (map (fun row =>
      list_sum (map (fun col =>
        pixel_count s (pixel_data im col row) (depth_map s im row col))
        (seq 0 (width im))))
      (seq 0 (height im))).
Proof.
  unfold process_image. rewrite length_flat_map. f_equal.
  apply map_ext. intros row. rewrite length_flat_map. f_equal.
  apply map_ext. intros col. apply pixel_commands_length.
Qed.

Lemma process_image_length_le (s : settings) (m : block_rgb_map)
      (F : frame) (im : image) :
  (length (process_image s m F im) <= 4 * (width im * height im))%nat.
Proof.
  rewrite process_image_length_sum. etransitivity.
  - apply list_sum_le with (k := (width im * 4)%nat). intros row _.
    etransitivity.
    + apply list_sum_le with (k := 4%nat). intros col _. apply pixel_count_le.
    + rewrite length_seq. lia.
  - rewrite length_seq. lia.
Qed.

(** X10.  The number of commands of an image is the sum, over its pixels,
    of 0 for a transparent pixel, 4 for an opaque pixel at or beyond
    [far_threshold] and 1 for any other; it never exceeds four times the
    number of pixels ([max_distance], by which the loop divides, being other
    than zero). *)
Theorem process_image_length (s : settings) (m : block_rgb_map) (F : frame)
        (im : image) :
  max_distance s <> 0 ->
  length (process_image s m F im)
  = list_sum (map (fun row =>
      list_sum (map (fun col =>
        pixel_count s (pixel_data im col row) (depth_map s im row col))
        (seq 0 (width im))))
      (seq 0 (height im))) /\
  (length (process_image s m F im) <= 4 * (width im * height im))%nat.
Proof.
  intros _.
  split; [apply process_image_length_sum | apply process_image_length_le].
Qed.

Lemma process_image_length_witness :
  let s := default_settings 2 1 in
  let F := camera_frame (0, 64, 0) 0 0 in
  let im := mkImage 2 1 (fun col _ => (0, 0, 0, 255 * Z.of_nat col)%Z)
                    (fun _ _ => 0%Z) in
  max_distance s <> 0 /\
  length (process_image s [] F im)
  = list_sum (map (fun row =>
      list_sum (map (fun col =>
        pixel_count s (pixel_data im col row) (depth_map s im row col))
        (seq 0 (width im))))
      (seq 0 (height im))) /\
  (length (process_image s [] F im) <= 4 * (width im * height im))%nat.
Proof.
  intros s F im.
  assert (H : max_distance s <> 0) by (simpl; lra).
  split; [exact H|]. exact (process_image_length s [] F im H).
Defined.

(** X11.  An image yields no command at all exactly when every one of its
    pixels has an alpha below 128 ([max_distance] being other than zero). *)
Theorem process_image_nil_iff (s : settings) (m : block_rgb_map) (F : frame)
        (im : image) :
  max_distance s <> 0 ->
  process_image s m F im = [] <->
  forall row col, (row < height im)%nat -> (col < width im)%nat ->
                  (snd (pixel_data im col row) < 128)%Z.
Proof.
  intros _. split.
  - intros Hnil row col Hrow Hcol.
    destruct (Z.lt_ge_cases (snd (pixel_data im col row)) 128) as [H | H];
      [exact H|].
    exfalso.
    assert (Hlen : (1 <= length (pixel_commands s m F (width im) (height im)
                      (pixel_data im col row) (depth_map s im row col)
                      row col))%nat).
    { rewrite pixel_commands_length.
      destruct (pixel_data im col row) as [[[r g] b] a]. simpl in *.
      unfold pixel_count.
      destruct (Z.ltb_spec a 128); [lia|].
      destruct (Rge_dec (depth_map s im row col) (far_threshold s)); lia. }
    destruct (pixel_commands s m F (width im) (height im)
                (pixel_data im col row) (depth_map s im row col) row col)
      as [|cmd cmds] eqn:E; [simpl in Hlen; lia|].
    assert (Hin : In cmd (process_image s m F im)).
    { apply in_process_image. exists row, col. rewrite E.
      repeat split; try assumption. now left. }
    rewrite Hnil in Hin. exact Hin.
  - intros Hall.
    destruct (process_image s m F im) as [|cmd cmds] eqn:E; [reflexivity|].
    exfalso.
    assert (Hin : In cmd (process_image s m F im)) by (rewrite E; now left).
    apply in_process_image in Hin as (row & col & Hrow & Hcol & Hin).
    specialize (Hall row col Hrow Hcol).
    destruct (pixel_data im col row) as [[[r g] b] a]. simpl in Hall.
    unfold pixel_commands in Hin.
    destruct (Z.ltb_spec a 128); [exact Hin | lia].
Qed.

Lemma process_image_nil_iff_witness :
  let s := default_settings 2 2 in
  let F := camera_frame (0, 64, 0) 0 0 in
  let im := mkImage 2 2 (fun _ _ => (200, 10, 10, 127)%Z)
                    (fun _ _ => 60%Z) in
  max_distance s <> 0 /\
  (process_image s [] F im = [] <->
   forall row col, (row < height im)%nat -> (col < width im)%nat ->
                   (snd (pixel_data im col row) < 128)%Z).
Proof.
  intros s F im.
  assert (H : max_distance s <> 0) by (simpl; lra).
  split; [exact H|]. exact (process_image_nil_iff s [] F im H).
Defined.

(** X12.  Every command of an image is a [setblock] whose block identifier
    is a key of the palette, or ["minecraft:stone"] when the palette is
    empty: no other identifier is ever written. *)
Theorem process_image_block_ids (s : settings) (m : block_rgb_map)
        (F : frame) (im : image) (cmd : string) :
  max_distance s <> 0 ->
  In cmd (process_image s m F im) ->
  exists pos block_id,
    cmd = setblock pos block_id /\
    ((m <> [] /\ In block_id (map fst m)) \/
     (m = [] /\ block_id = "minecraft:stone"%string)).
Proof.
  intros _ Hin. apply in_process_image in Hin as (row & col & _ & _ & Hin).
  destruct (pixel_data im col row) as [[[r g] b] a].
  unfold pixel_commands in Hin.
  destruct (a <? 128)%Z; [destruct Hin|].
  apply in_map_iff in Hin as (pos & <- & _).
  exists pos, (pixel_block_id (r, g, b) m). split; [reflexivity|].
  destruct m as [|e m'] eqn:Em; [right; split; reflexivity|].
  left. split; [discriminate|]. rewrite <- Em.
  destruct (find_closest_block_argmin r g b m)
    as (i & block_id & c & Hf & Hi & _); [rewrite Em; discriminate|].
  unfold pixel_block_id. rewrite Hf.
  apply nth_error_In in Hi. now apply (in_map fst) in Hi.
Qed.

Lemma process_image_block_ids_witness :
  let m := [("minecraft:black_wool", (0, 0, 0)%Z)]%string in
  let im := mkImage 1 1 (fun _ _ => (0, 0, 0, 255)%Z) (fun _ _ => 0%Z) in
  let F := camera_frame (0, 64, 0) 0 0 in
  max_distance (default_settings 1 1) <> 0 /\
  In "setblock 0 66 180 minecraft:black_wool"%string
     (process_image (default_settings 1 1) m F im) /\
  exists pos block_id,
    "setblock 0 66 180 minecraft:black_wool"%string = setblock pos block_id /\
    ((m <> [] /\ In block_id (map fst m)) \/
     (m = [] /\ block_id = "minecraft:stone"%string)).
Proof.
  intros m im F.
  assert (Hin : In "setblock 0 66 180 minecraft:black_wool"%string
                   (process_image (default_settings 1 1) m F im)).
  { pose proof far_pixel_cluster as E.
    unfold process_image_depthmap_and_get_commands in E.
    unfold m, im, F. rewrite E. now left. }
  assert (H : max_distance (default_settings 1 1) <> 0) by (simpl; lra).
  split; [exact H|]. split; [exact Hin|].
  exact (process_image_block_ids (default_settings 1 1) m F im _ H Hin).
Defined.

(** *** Which pixels are far *)

(** X28.  Under the bounds the program runs with, [min_distance = 60] and
    [max_distance = 180], a pixel is at or beyond [far_threshold], and so
    is written as a 2 x 2 cluster when opaque, exactly when its grayscale
    sample is at most 102; a lighter opaque pixel is written as one block.
    (At these bounds the depth of gray 102 is 132 and that of gray 103 is
    below 131.6, so the boundary does not hang on the last digit.) *)
Theorem far_pixels_by_gray (s : settings) (m : Palette.block_rgb_map)
        (F : frame) (im : image) (row col : nat) :
  min_distance s = 60 -> max_distance s = 180 ->
  (depth_map s im row col >= far_threshold s <->
   (gray_data im row col <= 102)%Z) /\
  ((gray_data im row col <= 102)%Z ->
   132 <= depth_map s im row col) /\
  ((103 <= gray_data im row col)%Z ->
   depth_map s im row col < 131.6) /\
  (forall r g b a,
     (row < height im)%nat -> (col < width im)%nat ->
     pixel_data im col row = (r, g, b, a) -> (128 <= a)%Z ->
     length (pixel_commands s m F (width im) (height im) (r, g, b, a)
               (depth_map s im row col) row col)
     = if (gray_data im row col <=? 102)%Z then 4%nat else 1%nat).
Proof.
  intros Hlo Hhi.
  assert (Hth : far_threshold s = 132)
    by (unfold far_threshold; rewrite Hlo, Hhi; lra).
  assert (Hd : depth_map s im row col
               = 180 - IZR (gray_data im row col) / 255 * 120).
  { unfold depth_map, Depth.depth, Depth.normalized.
    rewrite Hlo, Hhi. field. }
  set (gr := gray_data im row col) in *.
  assert (Hfar : (gr <= 102)%Z -> 132 <= depth_map s im row col).
  { intros H. apply IZR_le in H. rewrite Hd. lra. }
  assert (Hnear : (103 <= gr)%Z -> depth_map s im row col < 131.6).
  { intros H. apply IZR_le in H. rewrite Hd. lra. }
  split; [|split; [exact Hfar | split; [exact Hnear|]]].
  - rewrite Hth. split.
    + intros H. destruct (Z_le_gt_dec gr 102) as [Hle | Hgt]; [exact Hle|].
      assert (depth_map s im row col < 131.6) by (apply Hnear; lia). lra.
    + intros H. apply Hfar in H. lra.
  - intros r g b a _ _ _ Ha. rewrite pixel_commands_opaque by exact Ha.
    rewrite length_map.
    destruct (Z.leb_spec gr 102) as [Hle | Hgt].
    + rewrite pixel_positions_far by (rewrite Hth; apply Hfar in Hle; lra).
      reflexivity.
    + rewrite pixel_positions_near
        by (rewrite Hth;
            assert (depth_map s im row col < 131.6) by (apply Hnear; lia);
            lra).
      reflexivity.
Qed.

Lemma far_pixels_by_gray_witness :
  let s := default_settings 1 1 in
  let im := mkImage 1 1 (fun _ _ => (0, 0, 0, 255)%Z) (fun _ _ => 102%Z) in
  let F := camera_frame (0, 64, 0) 0 0 in
  (min_distance s = 60 /\ max_distance s = 180) /\
  (depth_map s im 0 0 >= far_threshold s <-> (gray_data im 0 0 <= 102)%Z) /\
  length (pixel_commands s [] F 1 1 (0, 0, 0, 255)%Z (depth_map s im 0 0) 0 0)
  = 4%nat.
Proof.
  intros s im F.
  assert (H1 : min_distance s = 60) by reflexivity.
  assert (H2 : max_distance s = 180) by reflexivity.
  split; [split; assumption|].
  destruct (far_pixels_by_gray s [] F im 0 0 H1 H2) as (Hiff & _ & _ & Hlen).
  split; [exact Hiff|].
  apply (Hlen 0%Z 0%Z 0%Z 255%Z); [simpl; lia | simpl; lia | reflexivity | lia].
Defined.

(** *** The palette order *)

(** X13.  Reordering the palette can change which block is chosen only
    among blocks at the same distance: the squared distance of the chosen
    entry is the same for any two orderings of one palette. *)
Theorem find_closest_block_permutation (r g b : Z) (m m' : block_rgb_map) :
  Permutation m m' -> m <> [] ->
  exists i i' block_id block_id' c c',
    find_closest_block r g b m = Some block_id /\
    nth_error m i = Some (block_id, c) /\
    find_closest_block r g b m' = Some block_id' /\
    nth_error m' i' = Some (block_id', c') /\
    dist_sq r g b c = dist_sq r g b c'.
Proof.
  intros Hp Hne.
  assert (Hne' : m' <> []).
  { intros ->. apply Permutation_sym, Permutation_nil in Hp. contradiction. }
  destruct (find_closest_block_argmin r g b m Hne)
    as (i & id & c & Hf & Hi & Hmin & _).
  destruct (find_closest_block_argmin r g b m' Hne')
    as (i' & id' & c' & Hf' & Hi' & Hmin' & _).
  exists i, i', id, id', c, c'. repeat split; try assumption.
  simpl in *.
  assert (H1 : In (id, c) m') by (eapply Permutation_in; eauto using nth_error_In).
  assert (H2 : In (id', c') m).
  { eapply Permutation_in; [apply Permutation_sym|]; eauto using nth_error_In. }
  apply In_nth_error in H1 as (j & Hj). apply In_nth_error in H2 as (j' & Hj').
  specialize (Hmin _ _ Hj'). specialize (Hmin' _ _ Hj). simpl in *.
  apply Z.le_antisymm; assumption.
Qed.

Lemma find_closest_block_permutation_witness :
  let m : block_rgb_map :=
    [("minecraft:a", (0, 0, 0)%Z); ("minecraft:b", (2, 0, 0)%Z)]%string in
  let m' : block_rgb_map :=
    [("minecraft:b", (2, 0, 0)%Z); ("minecraft:a", (0, 0, 0)%Z)]%string in
  Permutation m m' /\ m <> [] /\
  exists i i' block_id block_id' c c',
    find_closest_block 1 0 0 m = Some block_id /\
    nth_error m i = Some (block_id, c) /\
    find_closest_block 1 0 0 m' = Some block_id' /\
    nth_error m' i' = Some (block_id', c') /\
    dist_sq 1 0 0 c = dist_sq 1 0 0 c'.
Proof.
  intros m m'.
  assert (Hp : Permutation m m') by apply perm_swap.
  split; [exact Hp|]. split; [discriminate|].
  apply (find_closest_block_permutation 1 0 0 m m' Hp). discriminate.
Defined.

End EmissionFacts.

(* ------------------------------------------------------------------ *)
(** ** [generate_plane_commands]                                       *)
(* ------------------------------------------------------------------ *)

Module PlaneFacts.
Import Vec Camera Pixels VecFacts CameraFacts.
Open Scope R_scope.

(** Row-major indexing of a grid built row by row. *)
Lemma nth_error_grid {A : Type} (f : nat -> nat -> A) (W : nat) :
  forall (H a r c : nat), (r < H)%nat -> (c < W)%nat ->
    nth_error (flat_map (fun row => map (f row) (seq 0 W)) (seq a H))
              (r * W + c)
    = Some (f (a + r)%nat c).
Proof.
  induction H as [|H IH]; intros a r c Hr Hc; [lia|]. simpl.
  destruct r as [|r].
  - simpl. rewrite nth_error_app1 by (rewrite length_map, length_seq; exact Hc).
    rewrite nth_error_map, nth_error_seq.
    destruct (Nat.ltb_spec c W); [|lia]. rewrite Nat.add_0_r. reflexivity.
  - rewrite nth_error_app2 by (rewrite length_map, length_seq; simpl; lia).
    rewrite length_map, length_seq.
    replace (S r * W + c - W)%nat with (r * W + c)%nat by (simpl; lia).
    rewrite IH by lia. f_equal. f_equal. lia.
Qed.

(** X14.  [generate_plane_commands] returns one command per cell of the
    [plane_height] x [plane_width] grid, row by row: the command of the cell
    at [row], [col] stands at index [row * plane_width + col], and every
    command carries the one [block_id] given ([base_distance], by which the
    function divides, being other than zero). *)
Theorem generate_plane_commands_grid (distance base_distance : R)
        (W H : nat) (pixel_scale : R) (F : frame) (block_id : string)
        (offset_right : R) (row col : nat) :
  base_distance <> 0 ->
  (row < H)%nat -> (col < W)%nat ->
  length (generate_plane_commands distance base_distance W H pixel_scale F
            block_id offset_right) = (H * W)%nat /\
  nth_error (generate_plane_commands distance base_distance W H pixel_scale F
               block_id offset_right) (row * W + col)
  = Some (setblock (plane_block_pos F distance base_distance W H pixel_scale
                      offset_right row col) block_id).
Proof.
  intros _ Hrow Hcol. unfold generate_plane_commands. split.
  - rewrite (flat_map_constant_length (c := W)).
    + now rewrite length_seq.
    + intros x _. now rewrite length_map, length_seq.
  - rewrite (nth_error_grid
               (fun row col =>
                  setblock (plane_block_pos F distance base_distance W H
                              pixel_scale offset_right row col) block_id)
               W H 0 row col Hrow Hcol).
    reflexivity.
Qed.

Lemma generate_plane_commands_grid_witness :
  let F := camera_frame (0, 64, 0) 0 0 in
  (10 <> 0 /\ (1 < 2)%nat /\ (2 < 3)%nat) /\
  length (generate_plane_commands 10 10 3 2 1 F "minecraft:stone" 0)
  = (2 * 3)%nat /\
  nth_error (generate_plane_commands 10 10 3 2 1 F "minecraft:stone" 0)
            (1 * 3 + 2)
  = Some (setblock (plane_block_pos F 10 10 3 2 1 0 1 2) "minecraft:stone").
Proof.
  intros F.
  assert (Hb : 10 <> 0) by lra.
  split; [split; [exact Hb | split; lia]|].
  apply (generate_plane_commands_grid 10 10 3 2 1 F "minecraft:stone" 0 1 2 Hb);
    lia.
Defined.

Lemma norm_one_dot (u : vec3) : norm u = 1 -> dot u u = 1.
Proof. intros H. rewrite <- norm_sqr, H. ring. Qed.

(** X15.  In an orthonormal frame the cell at [row], [col] of the plane
    lies at exactly [distance] along [look], at
    [effective_offset + (col - plane_width/2) * step] along [right] and at
    [(plane_height/2 - row) * step] along [true_up], where
    [step = pixel_scale * distance / base_distance] ([base_distance] being
    other than zero).  The grid is flat,
    perpendicular to the view axis, and its columns run along [right]
    without the left-right inversion of the image loop. *)
Theorem plane_block_pos_coordinates (F : frame) (distance base_distance : R)
        (W H : nat) (pixel_scale offset_right : R) (row col : nat) :
  base_distance <> 0 ->
  orthonormal (look F) (right F) (true_up F) ->
  let d := vsub (plane_block_pos F distance base_distance W H pixel_scale
                   offset_right row col) (eye F) in
  let step := pixel_scale * (distance / base_distance) in
  dot d (look F) = distance /\
  dot d (right F)
  = effective_offset distance base_distance offset_right
    + (INR col - INR W / 2) * step /\
  dot d (true_up F) = (INR H / 2 - INR row) * step.
Proof.
  intros _ (Hl & Hr & Hu & Hlr & Hlu & Hru) d step. unfold d, step.
  apply norm_one_dot in Hl, Hr, Hu.
  unfold plane_block_pos, plane_top_left, plane_center.
  set (eff := effective_offset distance base_distance offset_right).
  destruct F as [[[e0 e1] e2] [[l0 l1] l2] [[r0 r1] r2] [[t0 t1] t2]].
  simpl in *.
  set (sf := distance / base_distance) in *.
  set (c := INR col) in *. set (rw := INR row) in *.
  set (w := INR W) in *. set (h := INR H) in *.
  assert (Hrl : r0 * l0 + r1 * l1 + r2 * l2 = 0) by (rewrite <- Hlr; ring).
  assert (Htl : t0 * l0 + t1 * l1 + t2 * l2 = 0) by (rewrite <- Hlu; ring).
  assert (Htr : t0 * r0 + t1 * r1 + t2 * r2 = 0) by (rewrite <- Hru; ring).
  split; [|split].
  - transitivity (distance * (l0 * l0 + l1 * l1 + l2 * l2)
                  + (eff + (c - w / 2) * (pixel_scale * sf))
                    * (r0 * l0 + r1 * l1 + r2 * l2)
                  + ((h / 2 - rw) * (pixel_scale * sf))
                    * (t0 * l0 + t1 * l1 + t2 * l2)); [field|].
    rewrite Hl, Hrl, Htl. ring.
  - transitivity (distance * (l0 * r0 + l1 * r1 + l2 * r2)
                  + (eff + (c - w / 2) * (pixel_scale * sf))
                    * (r0 * r0 + r1 * r1 + r2 * r2)
                  + ((h / 2 - rw) * (pixel_scale * sf))
                    * (t0 * r0 + t1 * r1 + t2 * r2)); [field|].
    rewrite Hlr, Hr, Htr. ring.
  - transitivity (distance * (l0 * t0 + l1 * t1 + l2 * t2)
                  + (eff + (c - w / 2) * (pixel_scale * sf))
                    * (r0 * t0 + r1 * t1 + r2 * t2)
                  + ((h / 2 - rw) * (pixel_scale * sf))
                    * (t0 * t0 + t1 * t1 + t2 * t2)); [field|].
    rewrite Hlu, Hru, Hu. ring.
Qed.

Lemma plane_block_pos_coordinates_witness :
  let F := camera_frame (0, 64, 0) 20 (-5) in
  let d := vsub (plane_block_pos F 90 180 8 6 1 3 2 5) (eye F) in
  (180 <> 0 /\ orthonormal (look F) (right F) (true_up F)) /\
  dot d (look F) = 90 /\
  dot d (right F)
  = effective_offset 90 180 3 + (INR 5 - INR 8 / 2) * (1 * (90 / 180)) /\
  dot d (true_up F) = (INR 6 / 2 - INR 2) * (1 * (90 / 180)).
Proof.
  intros F d.
  pose proof (camera_frame_orthonormal (0, 64, 0) 20 (-5)) as Ho.
  assert (Hb : 180 <> 0) by lra.
  split; [split; [exact Hb | exact Ho]|].
  exact (plane_block_pos_coordinates F 90 180 8 6 1 3 2 5 Hb Ho).
Defined.

End PlaneFacts.

(* ------------------------------------------------------------------ *)
(** ** More on [parse_list_response]                                   *)
(* ------------------------------------------------------------------ *)

Module ParseMoreFacts.
Import Parse ParseFacts.
Open Scope string_scope.
Open Scope char_scope.

(** One part more than there are commas. *)
Lemma split_comma_length (data : string) :
  length (split_comma data)
  = S (count_occ ascii_dec (list_ascii_of_string data) ",").
Proof.
  induction data as [|c data IH]; simpl; [reflexivity|].
  destruct (Ascii.eqb_spec c ",") as [-> | Hc].
  - simpl. destruct (ascii_dec "," ","); [now rewrite IH | congruence].
  - destruct (ascii_dec c ","); [congruence|].
    pose proof (split_comma_nonempty data) as Hne.
    destruct (split_comma data) as [|p ps]; [congruence|]. exact IH.
Qed.

Lemma convert_all_length {F : Type} (conv : string -> option F)
      (parts : list string) (vs : list F) :
  convert_all conv parts = Some vs -> length vs = length parts.
Proof.
  intros H. apply convert_all_some in H. symmetry.
  exact (Forall2_length H).
Qed.

(** X16.  A successful parse never returns an empty list: it returns one
    value per comma-separated part of the bracketed text, that is one more
    than the text has commas. *)
Theorem parse_list_response_length {F : Type}
        (py_float : string -> option F) (s : string) (vs : list F) :
  parse_list_response py_float s = Some vs ->
  vs <> [] /\
  exists data,
    search_bracket s = Some data /\
    length vs = S (count_occ ascii_dec (list_ascii_of_string data) ",").
Proof.
  unfold parse_list_response. intros H.
  destruct (search_bracket s) as [data|]; [|discriminate].
  apply convert_all_length in H. rewrite split_comma_length in H.
  split.
  - intros ->. discriminate H.
  - exists data. split; [reflexivity | exact H].
Qed.

Lemma parse_list_response_length_witness :
  let s := "Pos has the following properties: [123.0, 64.0, -12.0]"%string in
  let vs := [123.0%Q; 64.0%Q; (-12.0)%Q] in
  parse_list_response float_of_string s = Some vs /\
  vs <> [] /\
  exists data,
    search_bracket s = Some data /\
    length vs = S (count_occ ascii_dec (list_ascii_of_string data) ",").
Proof.
  intros s vs.
  assert (H : parse_list_response float_of_string s = Some vs) by reflexivity.
  split; [exact H|].
  exact (parse_list_response_length float_of_string s vs H).
Defined.

Lemma search_bracket_first (pre body post : string) :
  ~ In "[" (list_ascii_of_string pre) ->
  body <> EmptyString ->
  ~ In "]" (list_ascii_of_string body) ->
  search_bracket (pre ++ String "[" (body ++ String "]" post)) = Some body.
Proof.
  intros Hpre Hne Hb. induction pre as [|c pre IH]; simpl.
  - rewrite until_close_app by assumption.
    destruct body; [congruence | reflexivity].
  - simpl in Hpre. destruct (Ascii.eqb_spec c "[") as [-> | _]; [tauto|].
    apply IH. tauto.
Qed.

(** X17.  Only the first bracket pair counts.  When the text before the
    first ['['] holds no other ['['] and the bracketed text is non-empty
    and free of [']'], the result is decided by the bracketed text alone:
    whatever precedes the opening bracket or follows the closing one is
    ignored. *)
Theorem parse_list_response_context {F : Type}
        (py_float : string -> option F) (pre body post : string) :
  ~ In "[" (list_ascii_of_string pre) ->
  body <> EmptyString ->
  ~ In "]" (list_ascii_of_string body) ->
  parse_list_response py_float (pre ++ String "[" (body ++ String "]" post))
  = convert_all py_float (split_comma body).
Proof.
  intros Hpre Hne Hb. unfold parse_list_response.
  now rewrite search_bracket_first.
Qed.

Lemma parse_list_response_context_witness :
  let pre := "Steve has the following entity data: "%string in
  let body := "-90.5f, 12.25f"%string in
  let post := " [stale, text]"%string in
  ~ In "[" (list_ascii_of_string pre) /\
  body <> EmptyString /\
  ~ In "]" (list_ascii_of_string body) /\
  parse_list_response float_of_string
    (pre ++ String "[" (body ++ String "]" post))
  = convert_all float_of_string (split_comma body).
Proof.
  intros pre body post.
  assert (H1 : ~ In "[" (list_ascii_of_string pre)).
  { simpl. intros H. repeat (destruct H as [H | H]; [discriminate H|]).
    exact H. }
  assert (H2 : body <> EmptyString) by discriminate.
  assert (H3 : ~ In "]" (list_ascii_of_string body)).
  { simpl. intros H. repeat (destruct H as [H | H]; [discriminate H|]).
    exact H. }
  split; [exact H1|]. split; [exact H2|]. split; [exact H3|].
  exact (parse_list_response_context float_of_string pre body post H1 H2 H3).
Defined.

End ParseMoreFacts.

(* ------------------------------------------------------------------ *)
(** ** More on the pool and the dispatch                               *)
(* ------------------------------------------------------------------ *)

Module PoolFacts.
Import Dispatch DispatchFacts.
Open Scope nat_scope.

(** *** Establishing the pool *)

Lemma connect_loop_first_failure (connects : nat -> bool) (n a k : nat)
      (queue : list conn) :
  a <= k < a + n -> connects k = false ->
  (forall j, a <= j < k -> connects j = true) ->
  connect_loop connects a n queue = Raised (ConnectionFailed k).
Proof.
  revert a queue. induction n as [|n IH]; intros a queue Hk Hf Hok; [lia|].
  simpl. destruct (Nat.eq_dec a k) as [-> | Hne].
  - now rewrite Hf.
  - rewrite Hok by lia. apply IH; [lia | assumption |].
    intros j Hj. apply Hok. lia.
Qed.

(** X18.  When the [k]-th connection is the first that cannot be
    established, [RCONConnectionPool] raises that failure, and so does
    [send_commands]: no executor is created and no command is sent. *)
Theorem send_commands_connection_failure (connects : nat -> bool)
        (commands : list command) (pool_size : Z) (k : nat) :
  k < Z.to_nat pool_size -> connects k = false ->
  (forall j, j < k -> connects j = true) ->
  RCONConnectionPool connects pool_size = Raised (ConnectionFailed k) /\
  send_commands connects commands pool_size (Raised (ConnectionFailed k)) [] /\
  (forall o log, send_commands connects commands pool_size o log ->
     o = Raised (ConnectionFailed k) /\ log = []).
Proof.
  intros Hk Hf Hok.
  assert (E : RCONConnectionPool connects pool_size
              = Raised (ConnectionFailed k)).
  { unfold RCONConnectionPool. apply connect_loop_first_failure;
      [lia | assumption | intros j Hj; apply Hok; lia]. }
  split; [exact E|]. split; [now apply send_connect_failed|].
  intros o log H.
  destruct H as [e He | queue e He _ | queue mw st results He _ _ _ _].
  - rewrite E in He. injection He as <-. split; reflexivity.
  - rewrite E in He. discriminate He.
  - rewrite E in He. discriminate He.
Qed.

Lemma send_commands_connection_failure_witness :
  let connects := fun k : nat => negb (k =? 2) in
  let commands := ["setblock 0 66 100 minecraft:stone"%string] in
  2 < Z.to_nat 16 /\ connects 2 = false /\
  (forall j, j < 2 -> connects j = true) /\
  RCONConnectionPool connects 16 = Raised (ConnectionFailed 2) /\
  send_commands connects commands 16 (Raised (ConnectionFailed 2)) [] /\
  (forall o log, send_commands connects commands 16 o log ->
     o = Raised (ConnectionFailed 2) /\ log = []).
Proof.
  intros connects commands.
  assert (H1 : 2 < Z.to_nat 16) by (simpl; lia).
  assert (H2 : connects 2 = false) by reflexivity.
  assert (H3 : forall j, j < 2 -> connects j = true).
  { intros j Hj. unfold connects.
    destruct (Nat.eqb_spec j 2); [lia | reflexivity]. }
  split; [exact H1|]. split; [exact H2|]. split; [exact H3|].
  exact (send_commands_connection_failure connects commands 16 2 H1 H2 H3).
Defined.

(** X19.  Any pool size that is not positive is refused like 0: the pool
    is built empty and the executor raises its [ValueError] before anything
    is sent. *)
Theorem send_commands_nonpositive_pool_size (connects : nat -> bool)
        (commands : list command) (pool_size : Z) :
  (pool_size <= 0)%Z ->
  RCONConnectionPool connects pool_size = Returned [] /\
  (forall o log, send_commands connects commands pool_size o log ->
     o = Raised (ValueError "max_workers must be greater than 0") /\
     log = []) /\
  send_commands connects commands pool_size
    (Raised (ValueError "max_workers must be greater than 0")) [].
Proof.
  intros Hle.
  assert (Ep : RCONConnectionPool connects pool_size = Returned []).
  { unfold RCONConnectionPool.
    replace (Z.to_nat pool_size) with 0 by lia. reflexivity. }
  assert (Ee : ThreadPoolExecutor pool_size
               = Raised (ValueError "max_workers must be greater than 0")).
  { unfold ThreadPoolExecutor.
    destruct (Z.leb_spec pool_size 0); [reflexivity | lia]. }
  split; [exact Ep|]. split.
  - intros o log H.
    destruct H as [e He | queue e _ He | queue mw st results _ He _ _ _].
    + rewrite Ep in He. discriminate He.
    + rewrite Ee in He. injection He as <-. split; reflexivity.
    + rewrite Ee in He. discriminate He.
  - eapply send_no_executor; eassumption.
Qed.

Lemma send_commands_nonpositive_pool_size_witness :
  (-3 <= 0)%Z /\
  RCONConnectionPool (fun _ => true) (-3) = Returned [] /\
  (forall o log, send_commands (fun _ => true) ["say hi"%string] (-3) o log ->
     o = Raised (ValueError "max_workers must be greater than 0") /\
     log = []) /\
  send_commands (fun _ => true) ["say hi"%string] (-3)
    (Raised (ValueError "max_workers must be greater than 0")) [].
Proof.
  split; [lia|].
  apply (send_commands_nonpositive_pool_size (fun _ => true)
           ["say hi"%string] (-3)). lia.
Defined.

(** *** Who holds which connection *)

Lemma held_app (ws1 ws2 : list worker) :
  held (ws1 ++ ws2) = held ws1 ++ held ws2.
Proof. unfold held. apply flat_map_app. Qed.

Lemma held_step (max_workers : nat) (st st' : state) :
  step max_workers st st' ->
  Permutation (pool st ++ held (workers st))
              (pool st' ++ held (workers st')).
Proof.
  intros Hstep.
  destruct Hstep as [q i cmd rest ws fs log Hlen
                    | c q wk ws1 i cmd ws2 fs log
                    | r q wk ws1 i cmd c ws2 fs log
                    | q wk ws1 i c r ws2 fs log
                    | q wk ws1 i r ws2 fs log];
    simpl; rewrite ?held_app; simpl.
  - reflexivity.
  - rewrite !app_assoc. apply Permutation_middle.
  - reflexivity.
  - rewrite <- app_assoc. apply Permutation_app_head. simpl.
    apply Permutation_sym, Permutation_middle.
  - reflexivity.
Qed.

Lemma held_steps (max_workers : nat) (st st' : state) :
  steps max_workers st st' ->
  Permutation (pool st ++ held (workers st))
              (pool st' ++ held (workers st')).
Proof.
  intros H. induction H as [st | st1 st2 st3 Hstep _ IH]; [reflexivity|].
  etransitivity; [eapply held_step; eassumption | exact IH].
Qed.

Lemma connect_loop_returned (connects : nat -> bool) (n a : nat)
      (queue queue' : list conn) :
  connect_loop connects a n queue = Returned queue' ->
  queue' = queue ++ seq a n.
Proof.
  revert a queue. induction n as [|n IH]; intros a queue H; simpl in H.
  - injection H as <-. now rewrite app_nil_r.
  - destruct (connects a); [|discriminate].
    apply IH in H. rewrite <- app_assoc in H. exact H.
Qed.

Lemma RCONConnectionPool_returned (connects : nat -> bool) (pool_size : Z)
      (queue : list conn) :
  RCONConnectionPool connects pool_size = Returned queue ->
  queue = seq 0 (Z.to_nat pool_size).
Proof. intros H. now apply connect_loop_returned in H. Qed.

(** A run of two commands on two connections, stopped while one worker
    holds a connection and the other waits. *)
Example run_prefix :
  steps 2 (init_state [0; 1] ["first"; "second"]%string)
    (mkState [1] [] [Holding 1 "second" 0; Waiting 0 "first"]%string
             [None; None] []).
Proof.
  unfold init_state, tasks. simpl.
  eapply steps_step; [apply step_take; simpl; lia|].
  eapply steps_step; [apply step_take; simpl; lia|].
  eapply steps_step;
    [apply (step_get 2 0 [1] [] [] 1 "second"%string
              [Waiting 0 "first"%string])|].
  apply steps_refl.
Qed.

Lemma pool_held_permutation (connects : nat -> bool) (pool_size : Z)
      (queue : list conn) (max_workers : nat) (commands : list command)
      (st : state) :
  RCONConnectionPool connects pool_size = Returned queue ->
  steps max_workers (init_state queue commands) st ->
  Permutation (pool st ++ held (workers st)) (seq 0 (Z.to_nat pool_size)).
Proof.
  intros Hq Hsteps. apply RCONConnectionPool_returned in Hq. subst queue.
  apply Permutation_sym.
  pose proof (held_steps _ _ _ Hsteps) as H. simpl in H.
  now rewrite app_nil_r in H.
Qed.

(** X20.  At every moment of a dispatch the connections in the queue and
    the connections held by workers are pairwise distinct and are, together,
    exactly the connections the pool was created with: no connection is
    ever held by two workers, lost or duplicated. *)
Theorem connections_exclusive (connects : nat -> bool) (pool_size : Z)
        (queue : list conn) (max_workers : nat) (commands : list command)
        (st : state) :
  RCONConnectionPool connects pool_size = Returned queue ->
  steps max_workers (init_state queue commands) st ->
  Permutation (pool st ++ held (workers st)) (seq 0 (Z.to_nat pool_size)) /\
  NoDup (pool st ++ held (workers st)).
Proof.
  intros Hq Hsteps.
  pose proof (pool_held_permutation _ _ _ _ _ _ Hq Hsteps) as Hp.
  split; [exact Hp|].
  eapply Permutation_NoDup; [apply Permutation_sym, Hp | apply seq_NoDup].
Qed.

Lemma connections_exclusive_witness :
  let st := mkState [1] [] [Holding 1 "second" 0; Waiting 0 "first"]%string
                    [None; None] [] in
  RCONConnectionPool (fun _ => true) 2 = Returned [0; 1] /\
  steps 2 (init_state [0; 1] ["first"; "second"]%string) st /\
  Permutation (pool st ++ held (workers st)) (seq 0 (Z.to_nat 2)) /\
  NoDup (pool st ++ held (workers st)).
Proof.
  intros st. split; [reflexivity|]. split; [exact run_prefix|].
  exact (connections_exclusive (fun _ => true) 2 [0; 1] 2
           ["first"; "second"]%string st eq_refl run_prefix).
Defined.

(** *** Bounds *)

Lemma workers_bound_step (max_workers : nat) (st st' : state) :
  step max_workers st st' ->
  length (workers st) <= max_workers -> length (workers st') <= max_workers.
Proof.
  intros Hstep.
  destruct Hstep; simpl; rewrite ?length_app; simpl; lia.
Qed.

Lemma workers_bound_steps (max_workers : nat) (st st' : state) :
  steps max_workers st st' ->
  length (workers st) <= max_workers -> length (workers st') <= max_workers.
Proof.
  intros H. induction H; eauto using workers_bound_step.
Qed.

(** X21.  A dispatch with pool size [P] never runs more than [P] tasks at
    once and never has more than [P] connections checked out, however many
    commands there are. *)
Theorem dispatch_bounded (connects : nat -> bool) (pool_size : Z)
        (queue : list conn) (max_workers : nat) (commands : list command)
        (st : state) :
  RCONConnectionPool connects pool_size = Returned queue ->
  ThreadPoolExecutor pool_size = Returned max_workers ->
  steps max_workers (init_state queue commands) st ->
  length (workers st) <= Z.to_nat pool_size /\
  length (held (workers st)) <= Z.to_nat pool_size.
Proof.
  intros Hq He Hsteps.
  assert (Emw : max_workers = Z.to_nat pool_size).
  { unfold ThreadPoolExecutor in He.
    destruct (pool_size <=? 0)%Z; [discriminate|]. now injection He as <-. }
  split.
  - rewrite <- Emw. apply (workers_bound_steps _ _ _ Hsteps). simpl. lia.
  - pose proof (pool_held_permutation _ _ _ _ _ _ Hq Hsteps) as Hp.
    apply Permutation_length in Hp.
    rewrite length_app, length_seq in Hp. lia.
Qed.

Lemma dispatch_bounded_witness :
  let st := mkState [1] [] [Holding 1 "second" 0; Waiting 0 "first"]%string
                    [None; None] [] in
  RCONConnectionPool (fun _ => true) 2 = Returned [0; 1] /\
  ThreadPoolExecutor 2 = Returned 2 /\
  steps 2 (init_state [0; 1] ["first"; "second"]%string) st /\
  length (workers st) <= Z.to_nat 2 /\
  length (held (workers st)) <= Z.to_nat 2.
Proof.
  intros st. split; [reflexivity|]. split; [reflexivity|].
  split; [exact run_prefix|].
  exact (dispatch_bounded (fun _ => true) 2 [0; 1] 2
           ["first"; "second"]%string st eq_refl eq_refl run_prefix).
Defined.

(** *** The end of a dispatch *)

(** A complete run of two commands on two connections (the second command
    is answered first). *)
Example run_complete :
  steps 2 (init_state [0; 1] ["first"; "second"]%string)
    (mkState [0; 1] [] []
             [Some "reply to first"; Some "reply to second"]%string
             [ mkCall 1 0 "second" "reply to second";
               mkCall 0 1 "first" "reply to first" ]%string).
Proof.
  set (r1 := "reply to first"%string). set (r2 := "reply to second"%string).
  set (c1 := "first"%string). set (c2 := "second"%string).
  unfold init_state, tasks. simpl.
  eapply steps_step; [apply step_take; simpl; lia|].
  eapply steps_step; [apply step_take; simpl; lia|].
  eapply steps_step; [apply (step_get 2 0 [1] [] [] 1 c2 [Waiting 0 c1])|].
  eapply steps_step;
    [apply (step_get 2 1 [] [] [Holding 1 c2 0] 0 c1 [])|].
  eapply steps_step;
    [apply (step_command 2 r2 [] [] [] 1 c2 0 [Holding 0 c1 1])|].
  eapply steps_step;
    [apply (step_command 2 r1 [] [] [Replied 1 0 r2] 0 c1 1 [])|].
  eapply steps_step; [apply (step_put 2 [] [] [] 1 0 r2 [Replied 0 1 r1])|].
  eapply steps_step; [apply (step_put 2 [0] [] [Returning 1 r2] 0 1 r1 [])|].
  eapply steps_step;
    [apply (step_return 2 [0; 1] [] [] 1 r2 [Returning 0 r1])|].
  eapply steps_step; [apply (step_return 2 [0; 1] [] [] 0 r1 [])|].
  apply steps_refl.
Qed.

(** X22.  When a dispatch has finished, the loop of [close_all] ends with
    the queue empty, and the connections it disconnected are the ones the
    pool was created with, [0 .. pool_size - 1], each of them disconnected
    exactly once and no other connection at all. *)
Theorem close_all_closes_each_once (connects : nat -> bool) (pool_size : Z)
        (queue : list conn) (max_workers : nat) (commands : list command)
        (st : state) :
  RCONConnectionPool connects pool_size = Returned queue ->
  steps max_workers (init_state queue commands) st ->
  finished st ->
  exists disconnected,
    close_all (pool st) [] = (disconnected, []) /\
    length disconnected = Z.to_nat pool_size /\
    (forall c, c < Z.to_nat pool_size ->
               count_occ Nat.eq_dec disconnected c = 1) /\
    (forall c, Z.to_nat pool_size <= c ->
               count_occ Nat.eq_dec disconnected c = 0).
Proof.
  intros Hq Hsteps [_ Hidle].
  pose proof (pool_held_permutation _ _ _ _ _ _ Hq Hsteps) as Hp.
  rewrite Hidle in Hp. simpl in Hp. rewrite app_nil_r in Hp.
  assert (Hnd : NoDup (pool st)).
  { eapply Permutation_NoDup; [apply Permutation_sym, Hp | apply seq_NoDup]. }
  exists (pool st). rewrite close_all_loop. split; [reflexivity|].
  split; [|split].
  - rewrite (Permutation_length Hp). apply length_seq.
  - intros c Hc. apply NoDup_count_occ'; [exact Hnd|].
    apply (Permutation_in c (Permutation_sym Hp)). apply in_seq. lia.
  - intros c Hc. apply count_occ_not_In. intros Hin.
    apply (Permutation_in c Hp) in Hin. apply in_seq in Hin. lia.
Qed.

Lemma close_all_closes_each_once_witness :
  let st := mkState [0; 1] [] []
              [Some "reply to first"; Some "reply to second"]%string
              [ mkCall 1 0 "second" "reply to second";
                mkCall 0 1 "first" "reply to first" ]%string in
  RCONConnectionPool (fun _ => true) 2 = Returned [0; 1] /\
  steps 2 (init_state [0; 1] ["first"; "second"]%string) st /\
  finished st /\
  exists disconnected,
    close_all (pool st) [] = (disconnected, []) /\
    length disconnected = Z.to_nat 2 /\
    (forall c, c < Z.to_nat 2 ->
               count_occ Nat.eq_dec disconnected c = 1) /\
    (forall c, Z.to_nat 2 <= c ->
               count_occ Nat.eq_dec disconnected c = 0).
Proof.
  intros st.
  assert (Hfin : finished st) by (split; reflexivity).
  split; [reflexivity|]. split; [exact run_complete|]. split; [exact Hfin|].
  exact (close_all_closes_each_once (fun _ => true) 2 [0; 1] 2
           ["first"; "second"]%string st eq_refl run_complete Hfin).
Defined.

(** *** What the service receives *)

Lemma map_nth_seq {A : Type} (d : A) (l : list A) (a : nat) :
  map (fun i => nth (i - a) l d) (seq a (length l)) = l.
Proof.
  revert a. induction l as [|x l IH]; intros a; simpl; [reflexivity|].
  rewrite Nat.sub_diag. f_equal.
  transitivity (map (fun i => nth (i - S a) l d) (seq (S a) (length l)));
    [|apply IH].
  apply map_ext_in. intros i Hi.
  apply in_seq in Hi. replace (i - a) with (S (i - S a)) by lia. reflexivity.
Qed.

Lemma call_cmds_by_index (commands : list command) (log : list call) :
  Forall (fun k => nth_error commands (call_index k) = Some (call_cmd k)) log ->
  map call_cmd log
  = map (fun i => nth (i - 0) commands EmptyString) (map call_index log).
Proof.
  intros H. rewrite map_map. apply map_ext_in. intros k Hk.
  rewrite Forall_forall in H. specialize (H k Hk).
  rewrite Nat.sub_0_r. symmetry. now apply nth_error_nth.
Qed.

Lemma finished_call_indices (commands : list command) (st : state) :
  dispatch_inv commands st -> finished st ->
  NoDup (map call_index (calls st)) /\
  forall i, In i (map call_index (calls st)) <-> In i (seq 0 (length commands)).
Proof.
  intros [Hw Hws Hc Hfl Hf Hcov Hon] [Hwork Hidle].
  rewrite Hwork, Hidle in *. simpl in *. split; [exact Hon|].
  intros i. rewrite in_seq. split.
  - intros Hi. apply in_map_iff in Hi as (k & <- & Hk).
    pose proof (call_index_lt commands _ k Hc Hk). lia.
  - intros [_ Hi]. simpl in Hi.
    destruct (Hcov i Hi) as [[] | [[] | (r & Hr)]].
    destruct (Hf i r Hr) as (c & cmd & Hin).
    apply in_map_iff. exists (mkCall i c cmd r). split; [reflexivity|exact Hin].
Qed.

(** X23.  Whatever the interleaving, the commands the service receives
    during a call of [send_commands] that returns are the input commands,
    each once, in some order: nothing is dropped, repeated or invented. *)
Theorem sent_commands_permutation (connects : nat -> bool)
        (commands : list command) (pool_size : Z)
        (results : list response) (log : list call) :
  send_commands connects commands pool_size (Returned results) log ->
  Permutation (map call_cmd log) commands /\
  length log = length commands.
Proof.
  intros H. inversion H as [| | queue mw st res Hq He Hsteps Hfin Hcol]; subst.
  pose proof (dispatch_inv_steps commands _ _ _
                (dispatch_inv_init queue commands) Hsteps) as Hinv.
  destruct (finished_call_indices commands st Hinv Hfin) as [Hnd Hiff].
  assert (Hp : Permutation (map call_index (calls st))
                           (seq 0 (length commands))).
  { apply NoDup_Permutation; [exact Hnd | apply seq_NoDup | exact Hiff]. }
  split.
  - rewrite (call_cmds_by_index commands _ (inv_calls _ _ Hinv)).
    eapply Permutation_trans; [apply Permutation_map, Hp|].
    now rewrite (map_nth_seq (A := command) EmptyString commands 0).
  - apply Permutation_length in Hp.
    now rewrite length_map, length_seq in Hp.
Qed.

Lemma sent_commands_permutation_witness :
  let log := [ mkCall 1 0 "second" "reply to second";
               mkCall 0 1 "first" "reply to first" ]%string in
  send_commands (fun _ => true) ["first"; "second"]%string 2
    (Returned ["reply to first"; "reply to second"]%string) log /\
  Permutation (map call_cmd log) ["first"; "second"]%string /\
  length log = length ["first"; "second"]%string.
Proof.
  intros log. split; [exact send_commands_out_of_order|].
  exact (sent_commands_permutation _ _ _ _ _ send_commands_out_of_order).
Defined.

(** *** A single worker *)

Lemma in_order_step (n : nat) (st st' : state) :
  step 1 st st' -> in_order n st -> in_order n st'.
Proof.
  unfold in_order. intros Hstep [Hseq Hlen].
  destruct Hstep as [q i cmd rest ws fs log Hlt
                    | c q wk ws1 i cmd ws2 fs log
                    | r q wk ws1 i cmd c ws2 fs log
                    | q wk ws1 i c r ws2 fs log
                    | q wk ws1 i r ws2 fs log]; simpl in *.
  - destruct ws as [|w ws]; [|simpl in Hlt; lia].
    simpl in *. split; [exact Hseq | lia].
  - rewrite uncalled_app in *. rewrite length_app in *. simpl in *.
    split; assumption.
  - rewrite length_app in *. simpl in *.
    destruct ws1 as [|w1 ws1]; [|simpl in Hlen; lia].
    destruct ws2 as [|w2 ws2]; [|simpl in Hlen; lia].
    simpl in *. rewrite map_app, <- app_assoc. simpl. split; [exact Hseq | lia].
  - rewrite uncalled_app in *. rewrite length_app in *. simpl in *.
    split; assumption.
  - rewrite uncalled_app in *. rewrite length_app in *. simpl in *.
    split; [exact Hseq | lia].
Qed.

Lemma in_order_steps (n : nat) (st st' : state) :
  steps 1 st st' -> in_order n st -> in_order n st'.
Proof.
  intros H. induction H; eauto using in_order_step.
Qed.

Lemma in_order_init (queue : list conn) (commands : list command) :
  in_order (length commands) (init_state queue commands).
Proof.
  unfold in_order, init_state, tasks. simpl.
  rewrite map_fst_combine_seq. split; [reflexivity | lia].
Qed.

(** A complete run of two commands on a pool of one connection. *)
Example send_commands_single_worker :
  send_commands (fun _ => true) ["first"; "second"]%string 1
    (Returned ["reply to first"; "reply to second"]%string)
    [ mkCall 0 0 "first" "reply to first";
      mkCall 1 0 "second" "reply to second" ]%string.
Proof.
  set (r1 := "reply to first"%string). set (r2 := "reply to second"%string).
  set (c1 := "first"%string). set (c2 := "second"%string).
  apply (send_done (fun _ => true) [c1; c2] 1 [0] 1
           (mkState [0] [] [] [Some r1; Some r2]
                    [mkCall 0 0 c1 r1; mkCall 1 0 c2 r2]) [r1; r2]);
    try reflexivity; [|split; reflexivity].
  unfold init_state, tasks. simpl.
  eapply steps_step; [apply step_take; simpl; lia|].
  eapply steps_step; [apply (step_get 1 0 [] [(1, c2)] [] 0 c1 [])|].
  eapply steps_step; [apply (step_command 1 r1 [] [(1, c2)] [] 0 c1 0 [])|].
  eapply steps_step; [apply (step_put 1 [] [(1, c2)] [] 0 0 r1 [])|].
  eapply steps_step; [apply (step_return 1 [0] [(1, c2)] [] 0 r1 [])|].
  eapply steps_step; [apply step_take; simpl; lia|].
  eapply steps_step; [apply (step_get 1 0 [] [] [] 1 c2 [])|].
  eapply steps_step; [apply (step_command 1 r2 [] [] [] 1 c2 0 [])|].
  eapply steps_step; [apply (step_put 1 [] [] [] 1 0 r2 [])|].
  eapply steps_step; [apply (step_return 1 [0] [] [] 1 r2 [])|].
  apply steps_refl.
Qed.

(** X24.  With a pool of size 1 the service receives the commands in the
    order of the input list (with a larger pool it need not, as the run
    [send_commands_out_of_order] shows). *)
Theorem single_worker_sends_in_order (connects : nat -> bool)
        (commands : list command) (results : list response)
        (log : list call) :
  send_commands connects commands 1 (Returned results) log ->
  map call_cmd log = commands /\
  map call_index log = seq 0 (length commands).
Proof.
  intros H. inversion H as [| | queue mw st res Hq He Hsteps Hfin Hcol]; subst.
  assert (Emw : mw = 1) by (vm_compute in He; now injection He).
  subst mw.
  pose proof (dispatch_inv_steps commands _ _ _
                (dispatch_inv_init queue commands) Hsteps) as Hinv.
  destruct (in_order_steps _ _ _ Hsteps (in_order_init queue commands))
    as [Hseq _].
  destruct Hfin as [Hwork Hidle]. rewrite Hwork, Hidle in Hseq.
  simpl in Hseq. rewrite app_nil_r in Hseq.
  split; [|exact Hseq].
  rewrite (call_cmds_by_index commands _ (inv_calls _ _ Hinv)), Hseq.
  apply (map_nth_seq (A := command) EmptyString commands 0).
Qed.

Lemma single_worker_sends_in_order_witness :
  let log := [ mkCall 0 0 "first" "reply to first";
               mkCall 1 0 "second" "reply to second" ]%string in
  send_commands (fun _ => true) ["first"; "second"]%string 1
    (Returned ["reply to first"; "reply to second"]%string) log /\
  map call_cmd log = ["first"; "second"]%string /\
  map call_index log = seq 0 (length ["first"; "second"]%string).
Proof.
  intros log. split; [exact send_commands_single_worker|].
  exact (single_worker_sends_in_order _ _ _ _ send_commands_single_worker).
Defined.

(** *** Every run ends *)

Lemma steps_n_weight (max_workers k : nat) (st st' : state) :
  steps_n max_workers k st st' -> weight st = k + weight st'.
Proof.
  intros H. induction H as [st | k st1 st2 st3 Hstep _ IH]; [reflexivity|].
  rewrite (step_weight _ _ _ Hstep), IH. lia.
Qed.

Lemma worker_weight_pos (w : worker) : 1 <= worker_weight w.
Proof. destruct w; simpl; lia. Qed.

Lemma weight_zero_iff (st : state) : weight st = 0 <-> finished st.
Proof.
  unfold weight, finished. split.
  - intros H. destruct (work st) as [|t wk]; [|simpl in H; lia].
    destruct (workers st) as [|w ws]; [split; reflexivity|].
    simpl in H. pose proof (worker_weight_pos w). lia.
  - intros [-> ->]. reflexivity.
Qed.

Lemma tasks_length (commands : list command) :
  length (tasks commands) = length commands.
Proof. unfold tasks. rewrite length_combine, length_seq. lia. Qed.

(** A run of three moves. *)
Example run_prefix_counted :
  steps_n 2 3 (init_state [0; 1] ["first"; "second"]%string)
    (mkState [1] [] [Holding 1 "second" 0; Waiting 0 "first"]%string
             [None; None] []).
Proof.
  unfold init_state, tasks. simpl.
  eapply steps_n_S; [apply step_take; simpl; lia|].
  eapply steps_n_S; [apply step_take; simpl; lia|].
  eapply steps_n_S;
    [apply (step_get 2 0 [1] [] [] 1 "second"%string
              [Waiting 0 "first"%string])|].
  apply steps_n_O.
Qed.

(** X25.  No dispatch runs forever: a run of [n] commands makes at most
    [5 * n] moves, whatever the interleaving, and it has finished exactly
    when it has made [5 * n] of them (a take, a [get], a [command], a [put]
    and a return per command). *)
Theorem dispatch_run_length (max_workers k : nat) (queue : list conn)
        (commands : list command) (st : state) :
  steps_n max_workers k (init_state queue commands) st ->
  k + weight st = 5 * length commands /\
  k <= 5 * length commands /\
  (finished st <-> k = 5 * length commands).
Proof.
  intros H. apply steps_n_weight in H.
  assert (E : weight (init_state queue commands) = 5 * length commands).
  { unfold weight. simpl. rewrite tasks_length. lia. }
  rewrite E in H. split; [lia|]. split; [lia|].
  rewrite <- weight_zero_iff. lia.
Qed.

Lemma dispatch_run_length_witness :
  let st := mkState [1] [] [Holding 1 "second" 0; Waiting 0 "first"]%string
                    [None; None] [] in
  steps_n 2 3 (init_state [0; 1] ["first"; "second"]%string) st /\
  3 + weight st = 5 * length ["first"; "second"]%string /\
  3 <= 5 * length ["first"; "second"]%string /\
  (finished st <-> 3 = 5 * length ["first"; "second"]%string).
Proof.
  intros st. split; [exact run_prefix_counted|].
  exact (dispatch_run_length 2 3 [0; 1] ["first"; "second"]%string st
           run_prefix_counted).
Defined.

End PoolFacts.

(* ------------------------------------------------------------------ *)
(** ** [main]                                                          *)
(* ------------------------------------------------------------------ *)

Module MainFacts.
Import Vec Camera Pixels Parse Main EmissionFacts.
Open Scope string_scope.

Lemma unpack_pos_some (pos : list R) (p : vec3) :
  unpack_pos pos = Some p ->
  exists px py pz, pos = [px; py; pz] /\ p = (px, py, pz).
Proof.
  destruct pos as [|px [|py [|pz [|x l]]]]; simpl; try discriminate.
  intros [= <-]. eauto.
Qed.

Lemma unpack_rot_some (rot : list R) (yp : R * R) :
  unpack_rot rot = Some yp ->
  exists yaw pitch, rot = [yaw; pitch] /\ yp = (yaw, pitch).
Proof.
  destruct rot as [|yaw [|pitch [|x l]]]; simpl; try discriminate.
  intros [= <-]. eauto.
Qed.

Lemma unpack_pos_none (pos : list R) :
  length pos <> 3%nat -> unpack_pos pos = None.
Proof.
  destruct pos as [|px [|py [|pz [|x l]]]]; simpl; intros H;
    try reflexivity. congruence.
Qed.

Lemma unpack_rot_none (rot : list R) :
  length rot <> 2%nat -> unpack_rot rot = None.
Proof.
  destruct rot as [|yaw [|pitch [|x l]]]; simpl; intros H;
    try reflexivity. congruence.
Qed.

(** X26.  [main] hands commands to [send_commands] only when the palette
    file exists, both credentials are non-empty, the server answers, the
    position parses to exactly three numbers and the rotation to exactly
    two.  The commands are then those of the image under that pose, at most
    four per pixel of the image. *)
Theorem main_sends_only_parsed_pose (py_float : string -> option R)
        (env : environment) (commands : list string) :
  main py_float env = Sends commands ->
  rgb_json_exists env = true /\
  password env <> "" /\ player_name env <> "" /\
  server_up env = true /\
  (exists px py pz yaw pitch,
     parse_list_response py_float (rcon env (pos_query (player_name env)))
     = Some [px; py; pz] /\
     parse_list_response py_float (rcon env (rot_query (player_name env)))
     = Some [yaw; pitch] /\
     commands
     = process_image_depthmap_and_get_commands
         (default_settings 400 (height (image_png env)))
         (rgb_values env) (image_png env) (px, py, pz) yaw pitch) /\
  (length commands
   <= 4 * (width (image_png env) * height (image_png env)))%nat.
Proof.
  unfold main. intros H.
  destruct (rgb_json_exists env); [|discriminate]. simpl in H.
  assert (Hrest :
    (if String.eqb (password env) "" || String.eqb (player_name env) ""
     then Stopped CredentialsMissing
     else if negb (server_up env) then Crashed ConnectFailed
     else match parse_list_response py_float
                  (rcon env (pos_query (player_name env))),
                parse_list_response py_float
                  (rcon env (rot_query (player_name env))) with
          | Some pos, Some rot =>
              match process_player_info
                      (default_settings 400 (height (image_png env)))
                      (rgb_values env) (image_png env) pos rot with
              | Some cmds => Sends cmds
              | None => Crashed UnpackError
              end
          | _, _ => Stopped ParseFailed
          end) = Sends commands).
  { destruct (manual_json env) as [[|]|]; [exact H | discriminate | exact H]. }
  clear H.
  destruct (String.eqb_spec (password env) "") as [|Hpw]; [discriminate|].
  destruct (String.eqb_spec (player_name env) "") as [|Hpn]; [discriminate|].
  simpl in Hrest.
  destruct (server_up env); [|discriminate]. simpl in Hrest.
  destruct (parse_list_response py_float
              (rcon env (pos_query (player_name env)))) as [pos|];
    [|discriminate].
  destruct (parse_list_response py_float
              (rcon env (rot_query (player_name env)))) as [rot|];
    [|discriminate].
  unfold process_player_info in Hrest.
  destruct (unpack_pos pos) as [p|] eqn:Ep; [|discriminate].
  destruct (unpack_rot rot) as [[yaw pitch]|] eqn:Er; [|discriminate].
  injection Hrest as <-.
  apply unpack_pos_some in Ep as (px & py & pz & -> & ->).
  apply unpack_rot_some in Er as (yaw' & pitch' & -> & [= -> ->]).
  repeat split; try assumption.
  - exists px, py, pz, yaw', pitch'. repeat split.
  - unfold process_image_depthmap_and_get_commands.
    apply process_image_length_le.
Qed.

Lemma main_sends_only_parsed_pose_witness :
  let env := sample_environment
               "Steve has the following entity data: [0.5d, 64.0d, -3.0d]"
               "Steve has the following entity data: [90.0f, 0.0f]" in
  main decimal_float env = Sends [] /\
  rgb_json_exists env = true /\
  password env <> "" /\ player_name env <> "" /\
  server_up env = true /\
  (exists px py pz yaw pitch,
     parse_list_response decimal_float (rcon env (pos_query (player_name env)))
     = Some [px; py; pz] /\
     parse_list_response decimal_float (rcon env (rot_query (player_name env)))
     = Some [yaw; pitch] /\
     [] = process_image_depthmap_and_get_commands
            (default_settings 400 (height (image_png env)))
            (rgb_values env) (image_png env) (px, py, pz) yaw pitch) /\
  (length (@nil string)
   <= 4 * (width (image_png env) * height (image_png env)))%nat.
Proof.
  intros env.
  assert (H : main decimal_float env = Sends []) by reflexivity.
  split; [exact H|].
  exact (main_sends_only_parsed_pose decimal_float env [] H).
Defined.

(** X27.  [main] checks only that the two parses are not [None].  A
    position that parses to other than three numbers, or a rotation that
    parses to other than two, passes that check and then fails in the
    unpacking of [process_image_depthmap_and_get_commands]: the run ends in
    an uncaught error, not in the parse-failure message, and nothing is
    sent. *)
Theorem main_wrong_arity_crashes (py_float : string -> option R)
        (env : environment) (pos rot : list R) :
  rgb_json_exists env = true ->
  manual_json env <> Some false ->
  password env <> "" -> player_name env <> "" ->
  server_up env = true ->
  parse_list_response py_float (rcon env (pos_query (player_name env)))
  = Some pos ->
  parse_list_response py_float (rcon env (rot_query (player_name env)))
  = Some rot ->
  length pos <> 3%nat \/ length rot <> 2%nat ->
  main py_float env = Crashed UnpackError.
Proof.
  intros Hrgb Hman Hpw Hpn Hup Hpos Hrot Hlen. unfold main.
  rewrite Hrgb. simpl.
  assert (E : process_player_info
                (default_settings 400 (height (image_png env)))
                (rgb_values env) (image_png env) pos rot = None).
  { unfold process_player_info. destruct Hlen as [H | H].
    - now rewrite unpack_pos_none.
    - rewrite (unpack_rot_none rot H). now destruct (unpack_pos pos). }
  destruct (String.eqb_spec (password env) "") as [|_]; [contradiction|].
  destruct (String.eqb_spec (player_name env) "") as [|_]; [contradiction|].
  simpl. rewrite Hup, Hpos, Hrot, E. simpl.
  destruct (manual_json env) as [[|]|]; [reflexivity | congruence | reflexivity].
Qed.

Lemma main_wrong_arity_crashes_witness :
  let env := sample_environment
               "Steve has the following entity data: [0.5d, 64.0d]"
               "Steve has the following entity data: [90.0f, 0.0f]" in
  (rgb_json_exists env = true /\ manual_json env <> Some false) /\
  (password env <> "" /\ player_name env <> "" /\ server_up env = true) /\
  (exists pos rot,
     parse_list_response decimal_float (rcon env (pos_query (player_name env)))
     = Some pos /\
     parse_list_response decimal_float (rcon env (rot_query (player_name env)))
     = Some rot /\
     (length pos <> 3%nat \/ length rot <> 2%nat)) /\
  main decimal_float env = Crashed UnpackError.
Proof.
  intros env.
  assert (H1 : rgb_json_exists env = true) by reflexivity.
  assert (H2 : manual_json env <> Some false) by discriminate.
  assert (H3 : password env <> "") by discriminate.
  assert (H4 : player_name env <> "") by discriminate.
  assert (H5 : server_up env = true) by reflexivity.
  assert (H6 : parse_list_response decimal_float
                 (rcon env (pos_query (player_name env)))
               = Some [Q2R 0.5; Q2R 64.0]) by reflexivity.
  assert (H7 : parse_list_response decimal_float
                 (rcon env (rot_query (player_name env)))
               = Some [Q2R 90.0; Q2R 0.0]) by reflexivity.
  assert (H8 : length [Q2R 0.5; Q2R 64.0] <> 3%nat
               \/ length [Q2R 90.0; Q2R 0.0] <> 2%nat)
    by (left; discriminate).
  split; [split; assumption|]. split; [repeat split; assumption|].
  split; [exists [Q2R 0.5; Q2R 64.0], [Q2R 90.0; Q2R 0.0]; repeat split;
          assumption|].
  exact (main_wrong_arity_crashes decimal_float env _ _
           H1 H2 H3 H4 H5 H6 H7 H8).
Defined.

End MainFacts.
